(** * Verification of [utils/git.js] (Home Assistant Version Control)

    A shallow embedding of the history parsers ([gitLog],
    [getLightweightGitLog]), of the repository probe ([gitCheckIsRepo]) and
    of the safe restore ([gitCheckoutSafe]), together with the parts of the
    JavaScript runtime they call: strings as sequences of UTF-16 code units,
    [String.prototype.trim/split], [Array.prototype.join/slice],
    [parseInt], [Date.prototype.toISOString], the UTF-8 decoding and
    encoding between the program's text and the bytes of the tool and of
    the files, and an explicit model of the process runner, the file
    system and the console. *)

From Stdlib Require Import ZArith NArith List Lia Bool.
From stdpp Require Import base list strings gmap.

Local Open Scope N_scope.

(** ** JavaScript strings *)

(** A JavaScript string is a finite sequence of UTF-16 code units. *)
Abbreviation jsstring := (list N).

(** ASCII literals of the source, written as Rocq strings. *)
Definition js (s : string) : jsstring :=
  map Ascii.N_of_ascii (String.list_ascii_of_string s).
Arguments js s%_string : simpl never.

Definition LF : jsstring := [10].
Definition TAB : jsstring := [9].
Definition SP : jsstring := [32].

(** ** Errors and completions *)

(** A thrown value: every value the source throws or catches is an [Error]
    object, of which the code reads [message] only. *)
Record JsError := mkError { err_name : jsstring; err_message : jsstring }.

(** The outcome of evaluating a piece of code (for an [async] function:
    the settled state of the promise it returns). *)
Inductive Completion (A : Type) : Type :=
| Normal (a : A)
| Throw (e : JsError).
Arguments Normal {A} a.
Arguments Throw {A} e.

Definition cbind {A B} (c : Completion A) (k : A -> Completion B)
    : Completion B :=
  match c with
  | Normal a => k a
  | Throw e => Throw e
  end.

(** [arr.map(f)] for a callback that may throw: the first exception
    aborts the traversal. *)
Fixpoint mapC {A B} (f : A -> Completion B) (l : list A)
    : Completion (list B) :=
  match l with
  | [] => Normal []
  | x :: l' =>
      cbind (f x) (fun y => cbind (mapC f l') (fun ys => Normal (y :: ys)))
  end.

(** The runtime functions the source calls, under their JavaScript names. *)
Module JS.

(** [ToBoolean] on strings: only the empty string is falsy. *)
Definition truthy (s : jsstring) : bool :=
  match s with [] => false | _ :: _ => true end.

(** ECMAScript [WhiteSpace] and [LineTerminator] code units: what
    [String.prototype.trim] strips and what [\s] matches. *)
Definition isWhiteSpace (c : N) : bool :=
  (c =? 9) || (c =? 10) || (c =? 11) || (c =? 12) || (c =? 13) ||
  (c =? 32) || (c =? 160) || (c =? 5760) ||
  ((8192 <=? c) && (c <=? 8202)) ||
  (c =? 8232) || (c =? 8233) || (c =? 8239) || (c =? 8287) ||
  (c =? 12288) || (c =? 65279).

Fixpoint trimStart (s : jsstring) : jsstring :=
  match s with
  | [] => []
  | c :: s' => if isWhiteSpace c then trimStart s' else s
  end.

Definition trimEnd (s : jsstring) : jsstring := rev (trimStart (rev s)).

(** [String.prototype.trim]. *)
Definition trim (s : jsstring) : jsstring := trimEnd (trimStart s).

(** [s.startsWith(p)]. *)
Fixpoint startsWith (p s : jsstring) : bool :=
  match p, s with
  | [], _ => true
  | _ :: _, [] => false
  | a :: p', b :: s' => (a =? b) && startsWith p' s'
  end.

(** The scan of [String.prototype.split] for a non-empty separator: [cur]
    is the piece being collected (reversed), [skip] counts the code units
    of a matched separator still to be passed over. *)
Fixpoint split_scan (sep : jsstring) (skip : nat) (cur : jsstring)
    (s : jsstring) : list jsstring :=
  match s with
  | [] => [rev cur]
  | c :: s' =>
      match skip with
      | S k => split_scan sep k cur s'
      | O =>
          if startsWith sep s
          then rev cur :: split_scan sep (Nat.pred (length sep)) [] s'
          else split_scan sep O (c :: cur) s'
      end
  end.

(** [s.split(sep)] with a string separator.  The empty separator cuts
    between all code units. *)
Definition split (sep s : jsstring) : list jsstring :=
  match sep with
  | [] => map (fun c => [c]) s
  | _ :: _ => split_scan sep O [] s
  end.

(** [arr.join(sep)]. *)
Fixpoint join (sep : jsstring) (l : list jsstring) : jsstring :=
  match l with
  | [] => []
  | [x] => x
  | x :: l' => x ++ sep ++ join sep l'
  end.

(** [s.charAt(0)]. *)
Definition charAt0 (s : jsstring) : jsstring := take 1 s.

(** [/^[AMD]\s+/.test(s)]. *)
Definition statusLineRe (s : jsstring) : bool :=
  match s with
  | c :: w :: _ => ((c =? 65) || (c =? 77) || (c =? 68)) && isWhiteSpace w
  | _ => false
  end.

(** *** Numbers

    The source computes [parseInt(timestamp) * 1000] in binary64.  The
    model keeps the mathematical integer [parseInt] reads.  This is exact
    for what the source does with it: [new Date(v)] only tests
    [|v| <= 8.64e15] and then uses [v]; integers up to [2^53] (above
    [8.64e15]) are binary64 values, and rounding is monotone, so the test
    decides alike on the integer and on its binary64 image, and below the
    bound the two coincide. *)
Inductive number : Type :=
| NaN
| Int (z : Z).

Definition mul (a : number) (k : Z) : number :=
  match a with
  | NaN => NaN
  | Int z => Int (z * k)
  end.

(** Value of a code unit as a digit in the given radix. *)
Definition digitOf (radix : Z) (c : N) : option Z :=
  let v :=
    if (48 <=? c) && (c <=? 57) then Some (Z.of_N c - 48)%Z
    else if (97 <=? c) && (c <=? 122) then Some (Z.of_N c - 87)%Z
    else if (65 <=? c) && (c <=? 90) then Some (Z.of_N c - 55)%Z
    else None in
  match v with
  | Some d => if (d <? radix)%Z then Some d else None
  | None => None
  end.

(** Longest prefix of digits; [None] when there is none. *)
Fixpoint parseDigits (radix : Z) (s : jsstring) (acc : option Z)
    : option Z :=
  match s with
  | [] => acc
  | c :: s' =>
      match digitOf radix c with
      | Some d => parseDigits radix s' (Some (radix * default 0 acc + d)%Z)
      | None => acc
      end
  end.

(** [parseInt(s)] with no radix argument: white space, a sign, a [0x]
    or [0X] prefix, then the longest run of digits. *)
Definition parseInt (s : jsstring) : number :=
  let s0 := trimStart s in
  let '(neg, s1) :=
    match s0 with
    | c :: r =>
        if c =? 45 then (true, r)
        else if c =? 43 then (false, r)
        else (false, s0)
    | [] => (false, s0)
    end in
  let '(radix, s2) :=
    match s1 with
    | c :: x :: r =>
        if (c =? 48) && ((x =? 120) || (x =? 88)) then (16%Z, r)
        else (10%Z, s1)
    | _ => (10%Z, s1)
    end in
  match parseDigits radix s2 None with
  | None => NaN
  | Some v => Int (if neg then - v else v)
  end.

(** Decimal digits of a non-negative integer, most significant first. *)
Fixpoint digits_from (fuel : nat) (n : Z) (acc : jsstring) : jsstring :=
  let acc' := (48 + Z.to_N (n mod 10)) :: acc in
  match fuel with
  | O => acc'
  | S f => if (n <? 10)%Z then acc' else digits_from f (n / 10) acc'
  end.

Definition digits (n : Z) : jsstring :=
  digits_from (Z.to_nat (Z.log2 n)) n [].

(** [String(n)] for an integer [n] below [10^21] in absolute value
    (template-literal interpolation).  From [10^21] on JavaScript prints
    a number in exponent notation, which is not modelled. *)
Definition Number_toString (n : Z) : jsstring :=
  if (n <? 0)%Z then 45 :: digits (- n) else digits n.

(** [String(n).padStart(w, '0')] for a non-negative [n]. *)
Definition pad (w : nat) (n : Z) : jsstring :=
  let d := digits n in
  replicate (w - length d) 48 ++ d.

(** *** Dates *)

(** [new Date(v)]: the time value in milliseconds, [None] for an invalid
    date ([TimeClip]). *)
Definition Date (v : number) : option Z :=
  match v with
  | NaN => None
  | Int t => if (Z.abs t <=? 8640000000000000)%Z then Some t else None
  end.

(** Proleptic Gregorian year, month and day of a day number counted from
    1970-01-01. *)
Definition civil (day : Z) : Z * Z * Z :=
  (let z := day + 719468 in
   let era := z / 146097 in
   let doe := z - era * 146097 in
   let yoe := (doe - doe / 1460 + doe / 36524 - doe / 146096) / 365 in
   let doy := doe - (365 * yoe + yoe / 4 - yoe / 100) in
   let mp := (5 * doy + 2) / 153 in
   let d := doy - (153 * mp + 2) / 5 + 1 in
   let m := if mp <? 10 then mp + 3 else mp - 9 in
   let y := yoe + era * 400 + (if m <=? 2 then 1 else 0) in
   (y, m, d))%Z.

Definition isoYear (y : Z) : jsstring :=
  if ((0 <=? y) && (y <=? 9999))%Z then pad 4 y
  else (if (y <? 0)%Z then 45 else 43) :: pad 6 (Z.abs y).

(** The ISO 8601 form of a time value. *)
Definition isoFormat (tv : Z) : jsstring :=
  (let '(y, m, dd) := civil (tv / 86400000) in
   let t := tv mod 86400000 in
   isoYear y ++ js "-" ++ pad 2 m ++ js "-" ++ pad 2 dd ++ js "T" ++
   pad 2 (t / 3600000) ++ js ":" ++ pad 2 (t / 60000 mod 60) ++ js ":" ++
   pad 2 (t / 1000 mod 60) ++ js "." ++ pad 3 (t mod 1000) ++ js "Z")%Z.

Definition invalid_time : JsError :=
  mkError (js "RangeError") (js "Invalid time value").

(** [d.toISOString()]: throws a [RangeError] on an invalid date. *)
Definition toISOString (d : option Z) : Completion jsstring :=
  match d with
  | None => Throw invalid_time
  | Some tv => Normal (isoFormat tv)
  end.

End JS.

(** ** UTF-8

    The program handles text, where the tool and the files hold bytes.
    Node decodes the output of a child process as UTF-8 ([execFile]
    without an [encoding] option), [fs.readFileSync(p, 'utf-8')] decodes
    the file, and [fs.writeFileSync(p, text, 'utf-8')] encodes the text.
    A byte is a number below 256. *)
Abbreviation bytes := (list N).

Module Utf8.

(** U+FFFD, which stands for what cannot be decoded or encoded. *)
Definition REPLACEMENT : N := 0xFFFD.

(** [lo <= b <= hi]. *)
Definition inRange (lo hi b : N) : bool := (lo <=? b) && (b <=? hi).

(** The UTF-16 code units of a code point. *)
Definition units (cp : N) : jsstring :=
  if cp <? 0x10000 then [cp]
  else [0xD800 + (cp - 0x10000) / 0x400; 0xDC00 + (cp - 0x10000) mod 0x400].

(** What the first byte of a sequence announces: a code point of its own,
    a code point of which it holds the first bits, with the number of
    bytes still to come and the bounds of the next one, or nothing. *)
Inductive Lead : Type :=
| One (c : N)
| More (cp : N) (needed : nat) (lower upper : N)
| Invalid.

Definition lead (b : N) : Lead :=
  if b <? 0x80 then One b
  else if inRange 0xC2 0xDF b then More (b - 0xC0) 1 0x80 0xBF
  else if inRange 0xE0 0xEF b then
    More (b - 0xE0) 2 (if b =? 0xE0 then 0xA0 else 0x80)
                      (if b =? 0xED then 0x9F else 0xBF)
  else if inRange 0xF0 0xF4 b then
    More (b - 0xF0) 3 (if b =? 0xF0 then 0x90 else 0x80)
                      (if b =? 0xF4 then 0x8F else 0xBF)
  else Invalid.

(** A first byte: what it gives at once, and the sequence it starts. *)
Definition first (b : N) : jsstring * option (N * nat * N * N) :=
  match lead b with
  | One c => ([c], None)
  | More cp n lo hi => ([], Some (cp, n, lo, hi))
  | Invalid => ([REPLACEMENT], None)
  end.

(** One byte of the decoder of the Encoding Standard; [st] is the
    sequence under way: the bits read, the bytes still to come and the
    bounds of the next one.  A byte that cannot continue the sequence
    ends it with U+FFFD and is read as a first byte. *)
Definition step (st : option (N * nat * N * N)) (b : N)
    : jsstring * option (N * nat * N * N) :=
  match st with
  | None => first b
  | Some (cp, n, lo, hi) =>
      if inRange lo hi b then
        let cp' := cp * 64 + (b - 0x80) in
        match n with
        | S (S k) => ([], Some (cp', S k, 0x80, 0xBF))
        | _ => (units cp', None)
        end
      else (REPLACEMENT :: fst (first b), snd (first b))
  end.

(** The decoder of [Buffer.prototype.toString('utf8')]: that of the
    Encoding Standard, without the removal of a byte order mark.  An
    unfinished sequence at the end gives U+FFFD. *)
Fixpoint decode_from (st : option (N * nat * N * N)) (l : bytes)
    : jsstring :=
  match l with
  | [] => match st with None => [] | Some _ => [REPLACEMENT] end
  | b :: l' => fst (step st b) ++ decode_from (snd (step st b)) l'
  end.

Definition decode (l : bytes) : jsstring := decode_from None l.

Definition isHighSurrogate (c : N) : bool := inRange 0xD800 0xDBFF c.
Definition isLowSurrogate (c : N) : bool := inRange 0xDC00 0xDFFF c.

(** The bytes of a scalar value. *)
Definition encodeScalar (cp : N) : bytes :=
  if cp <? 0x80 then [cp]
  else if cp <? 0x800 then [0xC0 + cp / 64; 0x80 + cp mod 64]
  else if cp <? 0x10000 then
    [0xE0 + cp / 4096; 0x80 + (cp / 64) mod 64; 0x80 + cp mod 64]
  else [0xF0 + cp / 262144; 0x80 + (cp / 4096) mod 64;
        0x80 + (cp / 64) mod 64; 0x80 + cp mod 64].

(** The encoder of [Buffer.from(s, 'utf8')]: a surrogate pair is one code
    point, a surrogate on its own is written as U+FFFD. *)
Fixpoint encode (s : jsstring) : bytes :=
  match s with
  | [] => []
  | c :: s' =>
      if isHighSurrogate c then
        match s' with
        | d :: s'' =>
            if isLowSurrogate d
            then encodeScalar (0x10000 + (c - 0xD800) * 0x400 + (d - 0xDC00))
                 ++ encode s''
            else encodeScalar REPLACEMENT ++ encode s'
        | [] => encodeScalar REPLACEMENT
        end
      else if isLowSurrogate c then encodeScalar REPLACEMENT ++ encode s'
      else encodeScalar c ++ encode s'
  end.

(** Well-formed UTF-8 (Unicode, table 3-7): the bounds of the second
    byte after a first byte of a sequence of three and of four. *)
Definition second3 (b1 b2 : N) : bool :=
  if b1 =? 0xE0 then inRange 0xA0 0xBF b2
  else if b1 =? 0xED then inRange 0x80 0x9F b2
  else inRange 0x80 0xBF b2.

Definition second4 (b1 b2 : N) : bool :=
  if b1 =? 0xF0 then inRange 0x90 0xBF b2
  else if b1 =? 0xF4 then inRange 0x80 0x8F b2
  else inRange 0x80 0xBF b2.

(** A sequence of bytes that is a sequence of well-formed encodings of
    scalar values, of one to four bytes each. *)
Fixpoint wellFormed (l : bytes) : bool :=
  match l with
  | [] => true
  | b1 :: l1 =>
      if b1 <? 0x80 then wellFormed l1
      else
        match l1 with
        | [] => false
        | b2 :: l2 =>
            if inRange 0xC2 0xDF b1
            then inRange 0x80 0xBF b2 && wellFormed l2
            else
              match l2 with
              | [] => false
              | b3 :: l3 =>
                  if inRange 0xE0 0xEF b1
                  then second3 b1 b2 && inRange 0x80 0xBF b3 && wellFormed l3
                  else
                    match l3 with
                    | [] => false
                    | b4 :: l4 =>
                        inRange 0xF0 0xF4 b1 && second4 b1 b2 &&
                        inRange 0x80 0xBF b3 && inRange 0x80 0xBF b4 &&
                        wellFormed l4
                    end
              end
        end
  end.

End Utf8.

(** ** The world the program runs in *)

(** Options object handed to [execFile]. *)
Record ExecOptions := {
  cwd : jsstring;
  timeout : Z;
  maxBuffer : Z;
  windowsHide : bool;
  env : option (list (jsstring * jsstring))
}.

(** What the promisified [execFile] resolves to. *)
Record ExecResult := { stdout : jsstring; stderr : jsstring }.

(** What a child process has written to its standard output and error
    streams when it exits. *)
Record ChildOutput := { child_stdout : bytes; child_stderr : bytes }.

(** An injected failure of [writeFileSync]: the error thrown and what the
    failed write leaves at the path.  The write is a plain overwrite: when
    it fails before the file is opened the path is left as it was
    ([None]); when it fails after, the file is left truncated or partly
    written ([Some] of what it holds). *)
Record WriteFault := { wf_error : JsError; wf_residue : option bytes }.

(** The process runner, the file system and the console.

    - [child_process] is the external tool: what a run of a command line
      prints, as bytes; a non-zero exit, a timeout or an output over
      [maxBuffer] is a [Throw].  The commands whose output the program
      reads ([log], [show], [status], [branch], [rev-parse]) leave the
      files as they are.  What the writing commands ([add], [commit],
      [rm], [reset], [init], [checkout]) change under the root directory
      is not part of the model: of those only the result is described.
    - [files] maps the path of a regular file to its content, as bytes;
      [dirs] is the set of existing directories.
    - the fault schedules let the environment fail the next
      [readFileSync], [mkdirSync] or [writeFileSync] call for reasons of
      its own (permissions, a full disk, a network mount going away);
      each call consumes one entry, [None] or an exhausted schedule
      meaning that the environment adds no failure. *)
Record World := {
  CONFIG_PATH : option jsstring;
  child_process : jsstring -> list jsstring -> ExecOptions ->
                  Completion ChildOutput;
  files : gmap jsstring bytes;
  dirs : gset jsstring;
  read_faults : list (option JsError);
  mkdir_faults : list (option JsError);
  write_faults : list (option WriteFault);
  console : list jsstring
}.

Definition set_files (f : gmap jsstring bytes) (w : World) : World :=
  {| CONFIG_PATH := CONFIG_PATH w; child_process := child_process w;
     files := f; dirs := dirs w; read_faults := read_faults w;
     mkdir_faults := mkdir_faults w; write_faults := write_faults w;
     console := console w |}.

Definition set_dirs (d : gset jsstring) (w : World) : World :=
  {| CONFIG_PATH := CONFIG_PATH w; child_process := child_process w;
     files := files w; dirs := d; read_faults := read_faults w;
     mkdir_faults := mkdir_faults w; write_faults := write_faults w;
     console := console w |}.

Definition set_read_faults (l : list (option JsError)) (w : World) : World :=
  {| CONFIG_PATH := CONFIG_PATH w; child_process := child_process w;
     files := files w; dirs := dirs w; read_faults := l;
     mkdir_faults := mkdir_faults w; write_faults := write_faults w;
     console := console w |}.

Definition set_mkdir_faults (l : list (option JsError)) (w : World) : World :=
  {| CONFIG_PATH := CONFIG_PATH w; child_process := child_process w;
     files := files w; dirs := dirs w; read_faults := read_faults w;
     mkdir_faults := l; write_faults := write_faults w;
     console := console w |}.

Definition set_write_faults (l : list (option WriteFault)) (w : World)
    : World :=
  {| CONFIG_PATH := CONFIG_PATH w; child_process := child_process w;
     files := files w; dirs := dirs w; read_faults := read_faults w;
     mkdir_faults := mkdir_faults w; write_faults := l;
     console := console w |}.

Definition set_console (l : list jsstring) (w : World) : World :=
  {| CONFIG_PATH := CONFIG_PATH w; child_process := child_process w;
     files := files w; dirs := dirs w; read_faults := read_faults w;
     mkdir_faults := mkdir_faults w; write_faults := write_faults w;
     console := l |}.

(** The promisified [execFile], called without an [encoding] option: the
    output of the child is decoded as UTF-8. *)
Definition execFileAsync (w : World) (file : jsstring) (args : list jsstring)
    (o : ExecOptions) : Completion ExecResult :=
  cbind (child_process w file args o)
        (fun raw => Normal {| stdout := Utf8.decode (child_stdout raw);
                              stderr := Utf8.decode (child_stderr raw) |}).

(** ** Computations: state and exceptions *)

Definition M (A : Type) : Type := World -> World * Completion A.

Definition ret {A} (a : A) : M A := fun w => (w, Normal a).

Definition throw {A} (e : JsError) : M A := fun w => (w, Throw e).

Definition bind {A B} (c : M A) (k : A -> M B) : M B :=
  fun w =>
    match c w with
    | (w', Normal a) => k a w'
    | (w', Throw e) => (w', Throw e)
    end.

(** [try { c } catch (e) { h e }]. *)
Definition try_catch {A} (c : M A) (h : JsError -> M A) : M A :=
  fun w =>
    match c w with
    | (w', Normal a) => (w', Normal a)
    | (w', Throw e) => h e w'
    end.

(** A synchronous computation that cannot touch the world. *)
Definition lift {A} (c : Completion A) : M A := fun w => (w, c).

Notation "x <- c1 ;; c2" := (bind c1 (fun x => c2))
  (at level 100, c1 at next level, right associativity).
Notation "c1 ;; c2" := (bind c1 (fun _ => c2))
  (at level 100, right associativity).

(** ** The [fs] and [console] calls of the source *)

Module fs.

Definition ENOENT (p : jsstring) : JsError :=
  mkError (js "Error")
    (js "ENOENT: no such file or directory, open '" ++ p ++ js "'").

Definition EISDIR_read : JsError :=
  mkError (js "Error") (js "EISDIR: illegal operation on a directory, read").

Definition EISDIR (p : jsstring) : JsError :=
  mkError (js "Error")
    (js "EISDIR: illegal operation on a directory, open '" ++ p ++ js "'").

Definition ENOTDIR (p : jsstring) : JsError :=
  mkError (js "Error") (js "ENOTDIR: not a directory, open '" ++ p ++ js "'").

Definition ENOTDIR_mkdir (p : jsstring) : JsError :=
  mkError (js "Error")
    (js "ENOTDIR: not a directory, mkdir '" ++ p ++ js "'").

Definition EEXIST_mkdir (p : jsstring) : JsError :=
  mkError (js "Error")
    (js "EEXIST: file already exists, mkdir '" ++ p ++ js "'").

(** [p] names a regular file. *)
Definition isFile (w : World) (p : jsstring) : bool :=
  bool_decide (is_Some (files w !! p)).

(** [p] names a directory. *)
Definition isDirectory (w : World) (p : jsstring) : bool :=
  bool_decide (p ∈ dirs w).

(** [fs.readFileSync(p, 'utf-8')]: the content of the file, decoded.  A
    directory cannot be read. *)
Definition readFileSync (p : jsstring) : M jsstring := fun w =>
  let w' := set_read_faults (tail (read_faults w)) w in
  match head (read_faults w) with
  | Some (Some e) => (w', Throw e)
  | _ =>
      if isDirectory w p then (w', Throw EISDIR_read)
      else
        match files w !! p with
        | Some content => (w', Normal (Utf8.decode content))
        | None => (w', Throw (ENOENT p))
        end
  end.

(** [fs.existsSync(p)]: never throws. *)
Definition existsSync (p : jsstring) : M bool := fun w =>
  (w, Normal (bool_decide (p ∈ dirs w) ||
              bool_decide (is_Some (files w !! p)))).

Section Paths.
Variable dirname : jsstring -> jsstring.

(** [fs.writeFileSync(p, text, 'utf-8')]: opens [p] for writing,
    creating or truncating it, and writes the encoded text.  A directory
    cannot be opened for writing, and a file can be created in an
    existing directory only; these failures leave everything as it was.
    Past them the environment may still fail the call. *)
Definition writeFileSync (p text : jsstring) : M unit := fun w =>
  let w' := set_write_faults (tail (write_faults w)) w in
  if isDirectory w p then (w', Throw (EISDIR p))
  else if negb (isFile w p) && negb (isDirectory w (dirname p)) then
    (w', Throw (if isFile w (dirname p) then ENOTDIR p else ENOENT p))
  else
    match head (write_faults w) with
    | Some (Some f) =>
        (set_files (match wf_residue f with
                    | Some r => <[p := r]> (files w)
                    | None => files w
                    end) w', Throw (wf_error f))
    | _ => (set_files (<[p := Utf8.encode text]> (files w)) w', Normal tt)
    end.

(** A directory and the directories above it, up to the fixed point of
    [dirname] (the root, or [.]). *)
Fixpoint ancestors (fuel : nat) (d : jsstring) : list jsstring :=
  match fuel with
  | O => [d]
  | S f =>
      let p := dirname d in
      if bool_decide (p = d) then [d] else d :: ancestors f p
  end.

(** [fs.mkdirSync(d, { recursive: true })]: creates [d] and every missing
    directory above it.  It fails, creating nothing, when [d] or a name
    above it is taken by a regular file. *)
Definition mkdirSync_recursive (d : jsstring) : M unit := fun w =>
  let w' := set_mkdir_faults (tail (mkdir_faults w)) w in
  let made := ancestors (length d) d in
  if existsb (isFile w) made then
    (w', Throw (if isFile w d then EEXIST_mkdir d else ENOTDIR_mkdir d))
  else
    match head (mkdir_faults w) with
    | Some (Some e) => (w', Throw e)
    | _ => (set_dirs (dirs w ∪ list_to_set made) w', Normal tt)
    end.

End Paths.
End fs.

(** [console.error(line)]. *)
Definition console_error (line : jsstring) : M unit := fun w =>
  (set_console (console w ++ [line]) w, Normal tt).

(** ** utils/git.js *)

Definition DELIMITER : jsstring := [167; 167; 167; 167].
Definition COMMIT_DELIMITER : jsstring := [177; 177; 177; 177].

(** The second argument of [gitExec], destructured as
    [{ timeout = 30000, env }]. *)
Record GitExecOptions := {
  opt_timeout : option Z;
  opt_env : option (list (jsstring * jsstring))
}.

Definition no_options : GitExecOptions :=
  {| opt_timeout := None; opt_env := None |}.

Definition not_initialized : JsError :=
  mkError (js "Error") (js "CONFIG_PATH not initialized").

(** Lines 15-24: the options [gitExec] hands to [execFile]. *)
Definition execOptionsOf (root : jsstring) (options : GitExecOptions)
    : ExecOptions :=
  {| cwd := root;
     timeout := default 30000%Z (opt_timeout options);
     maxBuffer := (10 * 1024 * 1024)%Z;
     windowsHide := true;
     env := opt_env options |}.

(** [gitExec(args, options = {})]: all git commands run inside
    [CONFIG_PATH]. *)
Definition gitExec (args : list jsstring) (options : GitExecOptions)
    : M ExecResult := fun w =>
  match CONFIG_PATH w with
  | Some root =>
      if JS.truthy root then
        let execOptions := execOptionsOf root options in
        (w, execFileAsync w (js "git") args execOptions)
      else (w, Throw not_initialized)
  | None => (w, Throw not_initialized)
  end.

(** *** gitLog *)

(** The argument of [gitLog]: an object with optional [maxCount] and
    [file], a number, [null], or anything else; a call without argument
    is [OptObject None None]. *)
Inductive LogOptions : Type :=
| OptObject (maxCount : option Z) (file : option jsstring)
| OptNumber (n : Z)
| OptNull
| OptOther.

Record Commit := {
  hash : jsstring;
  short : jsstring;
  authorName : jsstring;
  authorEmail : jsstring;
  date : jsstring;
  message : jsstring;
  body : jsstring;
  status : option jsstring
}.

Record LogResult (A : Type) := {
  all : list A;
  latest : option A;
  total : nat
}.
Arguments all {A} _.
Arguments latest {A} _.
Arguments total {A} _.

Definition emptyResult {A} : LogResult A :=
  {| all := []; latest := None; total := 0 |}.

(** [parts[i] ? parts[i].trim() : ''] *)
Definition field (parts : list jsstring) (i : nat) : jsstring :=
  match parts !! i with
  | Some p => if JS.truthy p then JS.trim p else []
  | None => []
  end.

(** [parts[i] || ''] *)
Definition field_raw (parts : list jsstring) (i : nat) : jsstring :=
  match parts !! i with
  | Some p => if JS.truthy p then p else []
  | None => []
  end.

(** [if (file)] for [file] being [null] or a string. *)
Definition file_given (file : option jsstring) : bool :=
  match file with
  | Some f => JS.truthy f
  | None => false
  end.

(** Lines 91-106: the body and the status out of the last part. *)
Definition bodyStatus (file : option jsstring) (bodyAndStatus : jsstring)
    : jsstring * option jsstring :=
  if file_given file then
    let lines := JS.split LF (JS.trim bodyAndStatus) in
    match last lines with
    | Some lastLine =>
        if JS.truthy lastLine && JS.statusLineRe lastLine
        then (JS.trim (JS.join LF (removelast lines)),
              Some (JS.charAt0 lastLine))
        else (bodyAndStatus, None)
    | None => (bodyAndStatus, None)
    end
  else (bodyAndStatus, None).

(** The callback of [rawCommits.map] (lines 70-118). *)
Definition parseCommit (file : option jsstring) (rawCommit : jsstring)
    : Completion Commit :=
  let parts := JS.split DELIMITER rawCommit in
  let hash := field parts 0 in
  let short := field parts 1 in
  let authorName := field parts 2 in
  let authorEmail := field parts 3 in
  let timestamp := field parts 4 in
  let subject := field parts 5 in
  let bodyAndStatus := field_raw parts 6 in
  let '(body, status) := bodyStatus file bodyAndStatus in
  cbind (JS.toISOString (JS.Date (JS.mul (JS.parseInt timestamp) 1000)))
    (fun date =>
       Normal {| hash := hash; short := short; authorName := authorName;
                 authorEmail := authorEmail; date := date;
                 message := subject; body := JS.trim body;
                 status := status |}).

(** Lines 63-120: from the collected output to the result. *)
Definition gitLog_parse (file : option jsstring) (stdout : jsstring)
    : Completion (LogResult Commit) :=
  if negb (JS.truthy (JS.trim stdout)) then Normal emptyResult
  else
    let rawCommits :=
      List.filter (fun c => JS.truthy (JS.trim c))
                  (JS.split COMMIT_DELIMITER stdout) in
    cbind (mapC (parseCommit file) rawCommits) (fun commits =>
      Normal {| all := commits; latest := head commits;
                total := length commits |}).

(** Lines 35-43. *)
Definition gitLog_options (options : LogOptions)
    : Completion (Z * option jsstring) :=
  match options with
  | OptObject maxCount file =>
      Normal (match maxCount with
              | Some n => if (n =? 0)%Z then 500%Z else n
              | None => 500%Z
              end,
              match file with
              | Some f => if JS.truthy f then Some f else None
              | None => None
              end)
  | OptNumber n => Normal (n, None)
  | OptNull =>
      Throw (mkError (js "TypeError")
               (js "Cannot read properties of null (reading 'maxCount')"))
  | OptOther => Normal (500%Z, None)
  end.

(** Lines 49-59. *)
Definition gitLog_args (maxCount : Z) (file : option jsstring)
    : list jsstring :=
  [ js "log";
    js "--max-count=" ++ JS.Number_toString maxCount;
    js "--date=iso";
    js "--pretty=format:" ++ COMMIT_DELIMITER ++ js "%H" ++ DELIMITER ++
      js "%h" ++ DELIMITER ++ js "%an" ++ DELIMITER ++ js "%ae" ++
      DELIMITER ++ js "%at" ++ DELIMITER ++ js "%s" ++ DELIMITER ++
      js "%b" ] ++
  match file with
  | Some f => if JS.truthy f then [js "--name-status"; js "--"; f] else []
  | None => []
  end.

Definition gitLog (options : LogOptions) : M (LogResult Commit) :=
  mf <- lift (gitLog_options options) ;;
  let '(maxCount, file) := mf in
  out <- gitExec (gitLog_args maxCount file) no_options ;;
  lift (gitLog_parse file (stdout out)).

(** *** getLightweightGitLog *)

Record LightCommit := {
  lw_hash : jsstring;
  lw_parents : list jsstring;
  lw_date : jsstring;
  lw_message : jsstring
}.

(** The callback of [rawCommits.map] (lines 202-210). *)
Definition parseLight (rawCommit : jsstring) : LightCommit :=
  let parts := JS.split DELIMITER rawCommit in
  {| lw_hash := field parts 0;
     lw_parents :=
       match parts !! 1%nat with
       | Some p => if JS.truthy p then JS.split SP (JS.trim p) else []
       | None => []
       end;
     lw_date := field parts 2;
     lw_message := field parts 3 |}.

Definition lightweight_parse (stdout : jsstring) : LogResult LightCommit :=
  if negb (JS.truthy (JS.trim stdout)) then emptyResult
  else
    let rawCommits :=
      List.filter (fun c => JS.truthy (JS.trim c))
                  (JS.split COMMIT_DELIMITER stdout) in
    let commits := map parseLight rawCommits in
    {| all := commits; total := length commits; latest := head commits |}.

Definition lightweight_args : list jsstring :=
  [ js "log";
    js "--pretty=format:%H" ++ DELIMITER ++ js "%P" ++ DELIMITER ++
      js "%aI" ++ DELIMITER ++ js "%s" ++ COMMIT_DELIMITER;
    js "--date-order" ].

Definition getLightweightGitLog : M (LogResult LightCommit) :=
  out <- gitExec lightweight_args no_options ;;
  ret (lightweight_parse (stdout out)).

(** *** gitCheckIsRepo *)

Definition gitCheckIsRepo : M bool :=
  try_catch
    (gitExec [js "rev-parse"; js "--is-inside-work-tree"] no_options ;;
     ret true)
    (fun e => ret false).

(** *** gitCheckoutSafe *)

Section Restore.

(** [path.join] and [path.dirname] of the platform. *)
Variable path_join : jsstring -> jsstring -> jsstring.
Variable path_dirname : jsstring -> jsstring.

Definition join_undefined : JsError :=
  mkError (js "TypeError")
    (js "The " ++ [34] ++ js "path" ++ [34] ++
     js " argument must be of type string. Received undefined").

(** [path.join(global.CONFIG_PATH, filePath)] *)
Definition fullPathOf (filePath : jsstring) : M jsstring := fun w =>
  match CONFIG_PATH w with
  | Some root => (w, Normal (path_join root filePath))
  | None => (w, Throw join_undefined)
  end.

(** Lines 250-257: the backup, [null] when the file cannot be read. *)
Definition readBackup (fullPath : jsstring) : M (option jsstring) :=
  try_catch (text <- fs.readFileSync fullPath ;; ret (Some text))
            (fun e => ret None).

(** Lines 260-272: the body of the outer [try]. *)
Definition restoreAttempt (commitHash filePath fullPath : jsstring)
    : M unit :=
  out <- gitExec [js "show"; commitHash ++ js ":" ++ filePath] no_options ;;
  let newContent := stdout out in
  let dir := path_dirname fullPath in
  present <- fs.existsSync dir ;;
  (if negb present then fs.mkdirSync_recursive path_dirname dir
   else ret tt) ;;
  fs.writeFileSync path_dirname fullPath newContent.

(** Lines 277-284: writing the backup back. *)
Definition rollback (filePath fullPath : jsstring)
    (backupContent : option jsstring) : M unit :=
  match backupContent with
  | Some backup =>
      try_catch
        (fs.writeFileSync path_dirname fullPath backup ;;
         console_error
           (js "[git] Restored backup after failed restore: " ++ filePath))
        (fun restoreError =>
           console_error
             (js "[git] CRITICAL: Restore failed AND could not restore backup: "
              ++ err_message restoreError))
  | None => ret tt
  end.

Definition gitCheckoutSafe (commitHash filePath : jsstring) : M unit :=
  fullPath <- fullPathOf filePath ;;
  backupContent <- readBackup fullPath ;;
  try_catch (restoreAttempt commitHash filePath fullPath)
    (fun error =>
       console_error (js "[git] Restore failed for " ++ filePath ++
                      js ": " ++ err_message error) ;;
       rollback filePath fullPath backupContent ;;
       throw error).

End Restore.

(** ** The POSIX [path] module

    The instance of [path.join] and [path.dirname] on the platform the
    add-on runs on; the concrete runs below use it. *)
Module posix.

Definition SLASH : N := 47.
Definition DOTDOT : jsstring := [46; 46].

Definition isSlash (c : N) : bool := c =? SLASH.

(** Skips the separators at the head of a reversed path. *)
Fixpoint dropSlashes (r : jsstring) : jsstring :=
  match r with
  | [] => []
  | c :: r' => if isSlash c then dropSlashes r' else r
  end.

(** Skips a name, up to the next separator. *)
Fixpoint dropName (r : jsstring) : jsstring :=
  match r with
  | [] => []
  | c :: r' => if isSlash c then r else dropName r'
  end.

(** [path.posix.dirname]: scans from the end for the separator before
    the last name, never looking at the first code unit. *)
Definition dirname (path : jsstring) : jsstring :=
  match path with
  | [] => [46]
  | c0 :: rest =>
      let root := if isSlash c0 then [SLASH] else [46] in
      match dropName (dropSlashes (rev rest)) with
      | [] => root
      | _ :: before =>
          if isSlash c0 && bool_decide (before = [])
          then [SLASH; SLASH]
          else c0 :: rev before
      end
  end.

(** One segment of [normalizeString], on the stack of kept segments. *)
Definition pushSegment (allowAboveRoot : bool) (stack : list jsstring)
    (seg : jsstring) : list jsstring :=
  if bool_decide (seg = []) || bool_decide (seg = [46]) then stack
  else if bool_decide (seg = DOTDOT) then
    match stack with
    | top :: below =>
        if bool_decide (top = DOTDOT)
        then (if allowAboveRoot then DOTDOT :: stack else stack)
        else below
    | [] => if allowAboveRoot then [DOTDOT] else []
    end
  else seg :: stack.

(** [path.posix.normalize]. *)
Definition normalize (path : jsstring) : jsstring :=
  match path with
  | [] => [46]
  | c0 :: _ =>
      let isAbsolute := isSlash c0 in
      let trailingSeparator :=
        match last path with Some c => isSlash c | None => false end in
      let kept :=
        rev (fold_left (pushSegment (negb isAbsolute))
                       (JS.split [SLASH] path) []) in
      let res := JS.join [SLASH] kept in
      match res with
      | [] =>
          if isAbsolute then [SLASH]
          else if trailingSeparator then [46; SLASH] else [46]
      | _ :: _ =>
          let res' := if trailingSeparator then res ++ [SLASH] else res in
          if isAbsolute then SLASH :: res' else res'
      end
  end.

(** [path.posix.join(a, b)]. *)
Definition join (a b : jsstring) : jsstring :=
  match a, b with
  | [], [] => [46]
  | _ :: _, [] => normalize a
  | [], _ :: _ => normalize b
  | _ :: _, _ :: _ => normalize (a ++ [SLASH] ++ b)
  end.

End posix.

(** ** Notions of the specification *)

(** The four values of the specification's status. *)
Inductive FileStatus : Type := Added | Modified | Deleted | Unknown.

(** Reading of the [status] field, after the comment on line 116:
    ['A'] = Added, ['M'] = Modified, ['D'] = Deleted, [null] = unknown. *)
Definition statusMeaning (s : option jsstring) : option FileStatus :=
  match s with
  | None => Some Unknown
  | Some [c] =>
      if c =? 65 then Some Added
      else if c =? 77 then Some Modified
      else if c =? 68 then Some Deleted
      else None
  | Some _ => None
  end.

(** The seventh field of a fragment: [parts[6] || '']. *)
Definition trailingBlob (rawCommit : jsstring) : jsstring :=
  field_raw (JS.split DELIMITER rawCommit) 6.

(** The status pattern in the words of the specification: a single letter
    from A, M, D followed by white space. *)
Definition statusPattern (line : jsstring) : option FileStatus :=
  match line with
  | c :: w :: _ =>
      if JS.isWhiteSpace w then
        if c =? 65 then Some Added
        else if c =? 77 then Some Modified
        else if c =? 68 then Some Deleted
        else None
      else None
  | _ => None
  end.

(** The last non-empty line of a text in the words of the specification:
    the text is split into lines and the last line that is not the empty
    string is taken. *)
Definition lastNonEmptyLine (text : jsstring) : option jsstring :=
  last (List.filter JS.truthy (JS.split LF text)).

(** The status the specification's rule assigns to a trailing blob. *)
Definition specStatus (blob : jsstring) : FileStatus :=
  match lastNonEmptyLine blob with
  | Some line => default Unknown (statusPattern line)
  | None => Unknown
  end.

(** The text after the last line feed, scanned from the end. *)
Fixpoint untilLF (r : jsstring) : jsstring :=
  match r with
  | [] => []
  | c :: r' => if c =? 10 then [] else c :: untilLF r'
  end.

(** What a reversed text has beyond its first line feed. *)
Fixpoint afterLF (r : jsstring) : jsstring :=
  match r with
  | [] => []
  | c :: r' => if c =? 10 then r' else afterLF r'
  end.

(** The last line of a text, and the text before the line feed that
    starts it (empty when the text is a single line). *)
Definition lastLine (t : jsstring) : jsstring := rev (untilLF (rev t)).
Definition beforeLastLine (t : jsstring) : jsstring := rev (afterLF (rev t)).

(** Splitting on white space in the words of the specification: the
    maximal runs of code units that are not white space. *)
Fixpoint tokens (cur : jsstring) (s : jsstring) : list jsstring :=
  match s with
  | [] => if JS.truthy cur then [rev cur] else []
  | c :: s' =>
      if JS.isWhiteSpace c
      then (if JS.truthy cur then rev cur :: tokens [] s' else tokens [] s')
      else tokens (c :: cur) s'
  end.

Definition splitOnWhitespace (s : jsstring) : list jsstring := tokens [] s.

(** A text all of whose code units are white space. *)
Definition blank (s : jsstring) : bool := forallb JS.isWhiteSpace s.

(** *** Well-formed log text *)

(** The fields [git log] substitutes into the pretty format for one
    commit.  [r_blob] is everything the tool prints for [%b] and after it,
    up to the next record: the body, the [--name-status] line when there
    is one, and the line feeds between them. *)
Record LogRecord := {
  r_hash : jsstring;
  r_short : jsstring;
  r_author : jsstring;
  r_email : jsstring;
  r_time : jsstring;
  r_subject : jsstring;
  r_blob : jsstring
}.

Definition render_record (r : LogRecord) : jsstring :=
  r_hash r ++ DELIMITER ++ r_short r ++ DELIMITER ++ r_author r ++
  DELIMITER ++ r_email r ++ DELIMITER ++ r_time r ++ DELIMITER ++
  r_subject r ++ DELIMITER ++ r_blob r.

(** The record separator is placed before each record. *)
Definition render_log (rs : list LogRecord) : jsstring :=
  concat (map (fun r => COMMIT_DELIMITER ++ render_record r) rs).

(** Free of the code units the two separators are made of. *)
Definition sentinel_free (s : jsstring) : bool :=
  forallb (fun c => negb (c =? 167) && negb (c =? 177)) s.

Definition isDigit (c : N) : bool := (48 <=? c) && (c <=? 57).

Definition isHexDigit (c : N) : bool :=
  isDigit c || ((97 <=? c) && (c <=? 102)).

(** A non-empty hexadecimal name, as [%H] and [%h] print. *)
Definition hex_name (s : jsstring) : bool :=
  JS.truthy s && forallb isHexDigit s.

(** The number a string of decimal digits denotes. *)
Definition decimal (s : jsstring) : Z :=
  fold_left (fun acc c => (10 * acc + (Z.of_N c - 48))%Z) s 0%Z.

(** Seconds since the epoch, as [%at] prints, within the range of
    [Date] (100 000 000 days on either side of the epoch). *)
Definition timestamp_ok (s : jsstring) : bool :=
  JS.truthy s && forallb isDigit s && (decimal s <=? 8640000000000)%Z.

Definition well_formed (r : LogRecord) : bool :=
  hex_name (r_hash r) && hex_name (r_short r) && timestamp_ok (r_time r) &&
  sentinel_free (r_author r) && sentinel_free (r_email r) &&
  sentinel_free (r_subject r) && sentinel_free (r_blob r).

(** What the parser is to make of a well-formed record, field by
    field (body and status apart). *)
Definition parsed_from (r : LogRecord) (c : Commit) : Prop :=
  hash c = r_hash r /\ short c = r_short r /\
  authorName c = JS.trim (r_author r) /\
  authorEmail c = JS.trim (r_email r) /\
  message c = JS.trim (r_subject r) /\
  JS.toISOString (Some (decimal (r_time r) * 1000)%Z) = Normal (date c).

(** The record the parser builds from a well-formed record. *)
Definition parsed_record (file : option jsstring) (r : LogRecord) : Commit :=
  {| hash := r_hash r; short := r_short r;
     authorName := JS.trim (r_author r);
     authorEmail := JS.trim (r_email r);
     date := JS.isoFormat (decimal (r_time r) * 1000);
     message := JS.trim (r_subject r);
     body := JS.trim (fst (bodyStatus file (r_blob r)));
     status := snd (bodyStatus file (r_blob r)) |}.

(** One record of the lightweight log: hash, parents separated by single
    spaces, date and subject. *)
Definition render_light (h : jsstring) (parents : list jsstring)
    (d m : jsstring) : jsstring :=
  h ++ DELIMITER ++ JS.join SP parents ++ DELIMITER ++ d ++ DELIMITER ++ m.

(** A parent hash as the tool reports it: not empty, free of white space
    and of the field separator's code unit. *)
Definition parent_name (s : jsstring) : bool :=
  JS.truthy s &&
  forallb (fun c => negb (JS.isWhiteSpace c) && negb (c =? 167)) s.

(** *** The environment's part in a restore *)

(** The environment does not fail the next call of a schedule. *)
Definition unfaulted {A} (l : list (option A)) : bool :=
  match head l with
  | Some (Some _) => false
  | _ => true
  end.



(** The rejection of [execFile] on a failed command. *)
Definition command_failed : JsError :=
  mkError (js "Error") (js "Command failed: git").

(** ** Concrete inputs *)

Module Examples.

Definition config : jsstring := js "/config".
Definition notes : jsstring := js "notes.txt".
Definition notes_path : jsstring := js "/config/notes.txt".
Definition rev1 : jsstring := js "4f2a9c1".

(** A tool that knows one revision of [notes.txt], holding the bytes
    [blob], and fails every other command. *)
Definition tool (blob : bytes) (cmd : jsstring) (args : list jsstring)
    (o : ExecOptions) : Completion ChildOutput :=
  if bool_decide (args = [js "show"; rev1 ++ js ":" ++ notes])
  then Normal {| child_stdout := blob; child_stderr := [] |}
  else Throw command_failed.

(** A tool that answers every command with the same text. *)
Definition answering (out : jsstring) (cmd : jsstring)
    (args : list jsstring) (o : ExecOptions) : Completion ChildOutput :=
  Normal {| child_stdout := Utf8.encode out; child_stderr := [] |}.

Definition world (exec : jsstring -> list jsstring -> ExecOptions ->
                         Completion ChildOutput)
    (fs0 : gmap jsstring bytes) (wfaults : list (option WriteFault))
    : World :=
  {| CONFIG_PATH := Some config; child_process := exec; files := fs0;
     dirs := {[ js "/"; config ]}; read_faults := []; mkdir_faults := [];
     write_faults := wfaults; console := [] |}.

(** The target holds [A]; the tool serves [B].  (The bytes of a text in
    ASCII are its code units.) *)
Definition w_AB : World :=
  world (tool (js "B")) {[ notes_path := js "A" ]} [].

(** Three bytes that are not UTF-8: a byte order mark of UTF-16 and the
    first byte of the letter A. *)
Definition utf16 : bytes := [0xFF; 0xFE; 0x41].

(** What they become when decoded and encoded again: U+FFFD twice
    ([ef bf bd]) and the letter A. *)
Definition utf16_recoded : bytes :=
  [0xEF; 0xBF; 0xBD; 0xEF; 0xBF; 0xBD; 0x41].

(** The target holds those bytes; the tool serves [B]. *)
Definition w_utf16 : World :=
  world (tool (js "B")) {[ notes_path := utf16 ]} [].


(** No target; the tool serves [C] for a file two directories down. *)
Definition deep : jsstring := js "packages/lights/notes.txt".

Definition deep_tool (cmd : jsstring) (args : list jsstring)
    (o : ExecOptions) : Completion ChildOutput :=
  if bool_decide (args = [js "show"; rev1 ++ js ":" ++ deep])
  then Normal {| child_stdout := js "C"; child_stderr := [] |}
  else Throw command_failed.

Definition w_none : World := world deep_tool ∅ [].

Definition disk_full : WriteFault :=
  {| wf_error := mkError (js "Error")
                   (js "ENOSPC: no space left on device, write");
     wf_residue := Some [] |}.

(** The target holds [A] and the disk is full: the next write fails and
    leaves the file truncated. *)
Definition w_full : World :=
  world (tool (js "B")) {[ notes_path := js "A" ]} [Some disk_full].

(** The target holds [A]; the first write fails, the second succeeds. *)
Definition w_once : World :=
  world (tool (js "B")) {[ notes_path := js "A" ]} [Some disk_full; None].

(** The target holds [A]; both writes fail. *)
Definition w_twice : World :=
  world (tool (js "B")) {[ notes_path := js "A" ]}
        [Some disk_full; Some disk_full].

(** No root directory configured. *)
Definition w_unconfigured : World :=
  {| CONFIG_PATH := None; child_process := answering (js "true");
     files := ∅; dirs := ∅; read_faults := []; mkdir_faults := [];
     write_faults := []; console := [] |}.

Definition w_repo : World := world (answering (js "true")) ∅ [].
Definition w_norepo : World := world (tool (js "B")) ∅ [].

(** Two records, the first with a status line after its body. *)
Definition rec1 : LogRecord :=
  {| r_hash := js "4f2a9c1d"; r_short := js "4f2a9c1"; r_author := js "Ann";
     r_email := js "ann@example.org"; r_time := js "1700000000";
     r_subject := js "Tune the lights";
     r_blob := js "Dim at night." ++ LF ++ LF ++ js "M" ++ TAB ++ notes ++
               LF ++ LF |}.

Definition rec2 : LogRecord :=
  {| r_hash := js "0b7e55aa"; r_short := js "0b7e55a"; r_author := js "Bo";
     r_email := js "bo@example.org"; r_time := js "1600000000";
     r_subject := js "Add notes"; r_blob := LF ++ js "A" ++ TAB ++ notes |}.

Definition w_log : World := world (answering (render_log [rec1; rec2])) ∅ [].

(** A record whose body ends in the line [M] followed by a space. *)
Definition rec_trailing : LogRecord :=
  {| r_hash := js "4f2a9c1d"; r_short := js "4f2a9c1"; r_author := js "Ann";
     r_email := js "ann@example.org"; r_time := js "1700000000";
     r_subject := js "Tune the lights"; r_blob := js "fix" ++ LF ++ js "M " |}.

Definition w_trailing : World :=
  world (answering (render_log [rec_trailing])) ∅ [].

(** Output for one commit whose subject contains the record separator. *)
Definition split_subject : jsstring :=
  COMMIT_DELIMITER ++ js "4f2a9c1d" ++ DELIMITER ++ js "4f2a9c1" ++
  DELIMITER ++ js "Ann" ++ DELIMITER ++ js "ann@example.org" ++ DELIMITER ++
  js "1700000000" ++ DELIMITER ++ js "try " ++ COMMIT_DELIMITER ++
  js " as separator" ++ DELIMITER.

Definition w_split : World := world (answering split_subject) ∅ [].

End Examples.

(** ** The other wrappers of utils/git.js *)

(** More of [String.prototype]. *)
Module Str.

Fixpoint indexOf_from (pat s : jsstring) (i : Z) : Z :=
  match s with
  | [] => if JS.startsWith pat [] then i else (-1)%Z
  | _ :: s' =>
      if JS.startsWith pat s then i else indexOf_from pat s' (i + 1)%Z
  end.

(** [s.indexOf(pat)]: the first position at which [pat] occurs, or -1. *)
Definition indexOf (pat s : jsstring) : Z := indexOf_from pat s 0.

(** [s.includes(pat)]. *)
Definition includes (pat s : jsstring) : bool := (0 <=? indexOf pat s)%Z.

(** [s.slice(start)]: a negative start counts from the end. *)
Definition slice (start : Z) (s : jsstring) : jsstring :=
  if (start <? 0)%Z then drop (length s - Z.to_nat (- start)) s
  else drop (Z.to_nat start) s.

(** [s.replace(pat, rep)] for a string pattern and a replacement without
    [$]: the first occurrence only. *)
Fixpoint replace (pat rep s : jsstring) : jsstring :=
  match s with
  | [] => if JS.startsWith pat [] then rep else []
  | c :: s' =>
      if JS.startsWith pat s then rep ++ drop (length pat) s
      else c :: replace pat rep s'
  end.

(** [s[i]]: a string of one code unit, or [undefined]. *)
Definition at_ (s : jsstring) (i : nat) : option jsstring :=
  (fun c => [c]) <$> s !! i.

End Str.

(** *** gitStatus *)

Module Status.

Record File := {
  path : jsstring;
  working_dir : option jsstring;
  index : option jsstring;
  oldPath : option jsstring
}.

Record Result := {
  files : list File;
  current : jsstring;
  conflicted : list jsstring
}.

(** The closure [isClean: () => files.length === 0]. *)
Definition isClean (r : Result) : bool :=
  match files r with
  | [] => true
  | _ :: _ => false
  end.

(** Line 130: [line.split(' ')[1]?.split('...')[0] || branch]. *)
Definition branchOf (line branch : jsstring) : jsstring :=
  match JS.split SP line !! 1%nat with
  | Some tracking =>
      match head (JS.split (js "...") tracking) with
      | Some name => if JS.truthy name then name else branch
      | None => branch
      end
  | None => branch
  end.

(** Lines 134-149: the entry a status line gives. *)
Definition entryOf (line : jsstring) : File :=
  let code := take 2 line in
  let pathStart := (Str.indexOf SP line + 1)%Z in
  let rawPath := Str.slice pathStart line in
  let '(path, oldPath) :=
    if Str.includes (js " -> ") rawPath then
      let parts := JS.split (js " -> ") rawPath in
      (default [] (parts !! 1%nat), parts !! 0%nat)
    else (rawPath, None) in
  {| path := path; working_dir := Str.at_ code 1; index := Str.at_ code 0;
     oldPath := oldPath |}.

(** The body of the [for] loop, on the pair of [files] and [branch]. *)
Definition step (acc : list File * jsstring) (line : jsstring)
    : list File * jsstring :=
  let '(files, branch) := acc in
  if JS.startsWith (js "##") line then (files, branchOf line branch)
  else if negb (JS.truthy (JS.trim line)) then (files, branch)
  else (files ++ [entryOf line], branch).

Definition isC (s : option jsstring) : bool :=
  match s with
  | Some [c] => c =? 67
  | _ => false
  end.

(** Lines 125-156: from the collected output to the result. *)
Definition parse (stdout : jsstring) : Result :=
  let lines := JS.split LF (JS.trim stdout) in
  let '(files, branch) := fold_left step lines ([], js "master") in
  {| files := files; current := branch;
     conflicted :=
       map path (List.filter (fun f => isC (index f) || isC (working_dir f))
                              files) |}.

End Status.

Definition gitStatus : M Status.Result :=
  out <- gitExec [js "status"; js "--porcelain"; js "--branch"] no_options ;;
  ret (Status.parse (stdout out)).

(** *** The pass-through wrappers *)

Definition gitShowFileAtCommit (commitHash filePath : jsstring)
    : M jsstring :=
  out <- gitExec [js "show"; commitHash ++ js ":" ++ filePath] no_options ;;
  ret (stdout out).

Definition gitCommitDetails (commitHash : jsstring) : M jsstring :=
  out <- gitExec [js "show"; js "--name-status"; js "--oneline"; commitHash]
                 no_options ;;
  ret (stdout out).

(** The argument of [gitAdd]: one path or an array of paths. *)
Inductive AddArg : Type :=
| OnePath (file : jsstring)
| Paths (files : list jsstring).

Definition gitAdd (files : AddArg) : M unit :=
  let fileList :=
    match files with
    | Paths l => l
    | OnePath f => [f]
    end in
  gitExec (js "add" :: fileList) no_options ;; ret tt.

Definition gitCommit (message : jsstring) : M unit :=
  gitExec [js "commit"; js "-m"; message] no_options ;; ret tt.

Definition gitRaw (args : list jsstring) : M jsstring :=
  out <- gitExec args no_options ;; ret (stdout out).

Definition gitInit : M unit :=
  gitExec [js "init"] no_options ;; ret tt.

Definition gitDiff (args : list jsstring) : M jsstring :=
  out <- gitExec (js "diff" :: args) no_options ;; ret (stdout out).

Definition gitCheckout (args : list jsstring) : M unit :=
  gitExec (js "checkout" :: args) no_options ;; ret tt.

(** *** gitBranch *)

(** [if (args)]: an array, even an empty one, is truthy; the listing is
    made for [undefined] only, and only then is anything returned. *)
Definition branchNames (stdout : jsstring) : list jsstring :=
  List.filter JS.truthy
    (map (fun b => Str.replace (js "* ") [] (JS.trim b))
         (JS.split LF stdout)).

Definition gitBranch (args : option (list jsstring))
    : M (option (list jsstring)) :=
  match args with
  | Some l => gitExec (js "branch" :: l) no_options ;; ret None
  | None =>
      out <- gitExec [js "branch"] no_options ;;
      ret (Some (branchNames (stdout out)))
  end.

Definition gitRevparse (args : list jsstring) : M jsstring :=
  out <- gitExec (js "rev-parse" :: args) no_options ;;
  ret (JS.trim (stdout out)).

Definition gitRmCached (path : jsstring) : M bool :=
  try_catch
    (gitExec [js "rm"; js "--cached"; js "-f"; path] no_options ;; ret true)
    (fun e => ret false).

Definition gitResetHead (path : jsstring) : M bool :=
  try_catch
    (gitExec [js "reset"; js "HEAD"; js "--"; path] no_options ;; ret true)
    (fun e => ret false).

(** *** What a computation leaves alone *)

(** [keeps F c]: the world [c] ends in is related by [F] to the one it
    started from, whatever the outcome. *)
Definition keeps (F : World -> World -> Prop) {A} (c : M A) : Prop :=
  forall w, F w (fst (c w)).

(** Every file but [p] reads as before. *)
Definition same_files_except (p : jsstring) (w w' : World) : Prop :=
  forall q, q <> p -> files w' !! q = files w !! q.

(** No directory has gone. *)
Definition dirs_grow (w w' : World) : Prop := dirs w ⊆ dirs w'.

(** A regular file at [p] stays one. *)
Definition stays_file (p : jsstring) (w w' : World) : Prop :=
  fs.isDirectory w p = false /\ fs.isFile w p = true ->
  fs.isDirectory w' p = false /\ fs.isFile w' p = true.

(** The root directory and the tool are the same. *)
Definition same_tool (w w' : World) : Prop :=
  CONFIG_PATH w' = CONFIG_PATH w /\ execFileAsync w' = execFileAsync w.

(** Directories may appear, and only among the given ones. *)
Definition dirs_grow_within (made : list jsstring) (w w' : World) : Prop :=
  dirs w ⊆ dirs w' /\ dirs w' ⊆ dirs w ∪ list_to_set made.

(** *** The fragments of a log *)

(** Line 68: the non-blank pieces between record separators. *)
Definition fragments (stdout : jsstring) : list jsstring :=
  List.filter (fun c => JS.truthy (JS.trim c))
              (JS.split COMMIT_DELIMITER stdout).

(** Line 113: the time value of a fragment's fifth field. *)
Definition fragmentTime (rawCommit : jsstring) : option Z :=
  JS.Date (JS.mul (JS.parseInt (field (JS.split DELIMITER rawCommit) 4))
                  1000).

(** *** Well-formed lightweight log text *)

(** The fields [git log] substitutes into the lightweight format for one
    commit: [%H], the hashes of [%P], [%aI] and [%s]. *)
Record LightRecord := {
  l_hash : jsstring;
  l_parents : list jsstring;
  l_date : jsstring;
  l_subject : jsstring
}.

Definition render_light_record (r : LightRecord) : jsstring :=
  render_light (l_hash r) (l_parents r) (l_date r) (l_subject r).

(** The record separator ends each record, and the tool puts a line feed
    between two entries. *)
Definition render_light_log (rs : list LightRecord) : jsstring :=
  JS.join LF (map (fun r => render_light_record r ++ COMMIT_DELIMITER) rs).

Definition light_well_formed (r : LightRecord) : bool :=
  hex_name (l_hash r) && forallb hex_name (l_parents r) &&
  sentinel_free (l_date r) && sentinel_free (l_subject r).

(** The record the lightweight parser builds from a well-formed one. *)
Definition parsed_light (r : LightRecord) : LightCommit :=
  {| lw_hash := l_hash r; lw_parents := l_parents r;
     lw_date := JS.trim (l_date r); lw_message := JS.trim (l_subject r) |}.

(** *** Well-formed status text *)

(** One entry line of [git status --porcelain]: the two status columns
    and what follows the space after them. *)
Record StatusEntry := {
  e_index : N;
  e_worktree : N;
  e_rest : jsstring
}.

Definition render_entry (e : StatusEntry) : jsstring :=
  [e_index e; e_worktree e; 32] ++ e_rest e.

(** The branch line: [## branch], then [...upstream] when the branch
    tracks one, then a space and the ahead/behind note when there is
    one. *)
Definition render_header (branch : jsstring) (upstream info : option jsstring)
    : jsstring :=
  js "## " ++ branch ++
  match upstream with Some u => js "..." ++ u | None => [] end ++
  match info with Some i => SP ++ i | None => [] end.

(** Every line ends in a line feed. *)
Definition render_lines (lines : list jsstring) : jsstring :=
  concat (map (fun l => l ++ LF) lines).

Definition render_status (branch : jsstring) (upstream info : option jsstring)
    (es : list StatusEntry) : jsstring :=
  render_lines (render_header branch upstream info :: map render_entry es).

(** A text that is not empty, has no line feed and ends in a code unit
    that is not white space. *)
Definition ends_solid (s : jsstring) : bool :=
  forallb (fun c => negb (c =? 10)) s &&
  match last s with
  | Some c => negb (JS.isWhiteSpace c)
  | None => false
  end.

(** A branch name: not empty, free of white space and of dots. *)
Definition branch_name (s : jsstring) : bool :=
  JS.truthy s &&
  forallb (fun c => negb (JS.isWhiteSpace c) && negb (c =? 46)) s.

Definition header_ok (branch : jsstring) (upstream info : option jsstring)
    : bool :=
  branch_name branch &&
  match upstream with
  | Some u => JS.truthy u && forallb (fun c => negb (JS.isWhiteSpace c)) u
  | None => true
  end &&
  match info with
  | Some i => ends_solid i
  | None => true
  end.

(** An entry line that is not a branch line, has no [>] (so no rename
    arrow) and ends in a code unit that is not white space. *)
Definition entry_ok (e : StatusEntry) : bool :=
  negb ((e_index e =? 35) && (e_worktree e =? 35)) &&
  negb (e_index e =? 10) && negb (e_worktree e =? 10) &&
  negb (e_index e =? 62) && negb (e_worktree e =? 62) &&
  forallb (fun c => negb (c =? 62)) (e_rest e) &&
  ends_solid (e_rest e).

(** The path [gitStatus] records for an entry: the text after the first
    space of the line. *)
Definition recorded_path (e : StatusEntry) : jsstring :=
  if e_index e =? 32 then e_worktree e :: 32 :: e_rest e
  else if e_worktree e =? 32 then 32 :: e_rest e
  else e_rest e.

Definition recorded (e : StatusEntry) : Status.File :=
  {| Status.path := recorded_path e;
     Status.working_dir := Some [e_worktree e];
     Status.index := Some [e_index e];
     Status.oldPath := None |}.

(** A line that gives an entry: neither a branch line nor blank. *)
Definition entry_line (line : jsstring) : bool :=
  negb (JS.startsWith (js "##") line) && JS.truthy (JS.trim line).

(** *** Well-formed branch listing *)

(** One line of [git branch]: the marker of the current branch, or two
    spaces, and the name. *)
Record BranchLine := {
  b_current : bool;
  b_name : jsstring
}.

Definition render_branch (l : BranchLine) : jsstring :=
  (if b_current l then js "* " else js "  ") ++ b_name l.

Definition render_branches (ls : list BranchLine) : jsstring :=
  render_lines (map render_branch ls).

(** A name that is not empty and has no white space. *)
Definition ref_name (s : jsstring) : bool :=
  JS.truthy s && forallb (fun c => negb (JS.isWhiteSpace c)) s.

(** ** More concrete inputs *)

Module Samples.
Import Examples.

(** Two files; the target holds [A]; both writes of a restore fail on a
    full disk. *)
Definition w_two : World :=
  world (tool (js "B"))
        {[ notes_path := js "A"; js "/config/other.yaml" := js "O" ]}
        [Some disk_full; Some disk_full].

(** A merge commit and the root commit it descends from. *)
Definition light1 : LightRecord :=
  {| l_hash := js "4f2a9c1d"; l_parents := [js "abc123"; js "def456"];
     l_date := js "2023-11-14T22:13:20+00:00"; l_subject := js "Merge" |}.

Definition light2 : LightRecord :=
  {| l_hash := js "abc123"; l_parents := [];
     l_date := js "2020-09-13T12:26:40+00:00"; l_subject := js "Root" |}.

Definition w_light : World :=
  world (answering (render_light_log [light1; light2])) ∅ [].

(** The tool prints one untracked file and no branch line. *)
Definition w_dirty : World :=
  world (answering (js "?? notes.txt" ++ LF)) ∅ [].

(** An unstaged change, a staged change and an untracked file. *)
Definition entries : list StatusEntry :=
  [ {| e_index := 32; e_worktree := 77; e_rest := js "a.yaml" |};
    {| e_index := 77; e_worktree := 32; e_rest := js "b.yaml" |};
    {| e_index := 63; e_worktree := 63; e_rest := js "c.yaml" |} ].

Definition w_status : World :=
  world (answering (render_status (js "main") (Some (js "origin/main"))
                      (Some (js "[ahead 1]")) entries)) ∅ [].

(** Three branches, the first checked out. *)
Definition branches : list BranchLine :=
  [ {| b_current := true; b_name := js "main" |};
    {| b_current := false; b_name := js "feature/lights" |};
    {| b_current := false; b_name := js "old" |} ].

Definition w_branches : World :=
  world (answering (render_branches branches)) ∅ [].

(** The tool prints a hash and a line feed. *)
Definition w_head : World :=
  world (answering (js "4f2a9c1d" ++ LF)) ∅ [].


End Samples.

(** ** Facts about the runtime functions *)

Section StringFacts.

Lemma startsWith_app (p s : jsstring) : JS.startsWith p (p ++ s) = true.
Proof.
  induction p as [|a p IH]; simpl; [done|].
  by rewrite N.eqb_refl, IH.
Qed.

Lemma startsWith_head_ne (c x : N) (p s : jsstring) :
  x ≠ c -> JS.startsWith (c :: p) (x :: s) = false.
Proof.
  intros Hne. simpl. destruct (N.eqb_spec c x); [congruence | done].
Qed.

(** Passing over the rest of a matched separator. *)
Lemma split_scan_skip (sep l cur s : jsstring) :
  JS.split_scan sep (length l) cur (l ++ s) = JS.split_scan sep 0 cur s.
Proof.
  induction l as [|a l IH]; simpl; [|apply IH].
  by destruct s.
Qed.

(** A piece free of the separator's first code unit, followed by the
    separator, is cut off whole. *)
Lemma split_scan_piece (c : N) (p a cur s : jsstring) :
  c ∉ a ->
  JS.split_scan (c :: p) 0 cur (a ++ (c :: p) ++ s)
  = (rev cur ++ a) :: JS.split_scan (c :: p) 0 [] s.
Proof.
  revert cur. induction a as [|x a IH]; intros cur Hc.
  - change ([] ++ (c :: p) ++ s) with (c :: (p ++ s)).
    cbn [JS.split_scan].
    change (c :: p ++ s) with ((c :: p) ++ s).
    rewrite startsWith_app. cbn [length Nat.pred].
    rewrite split_scan_skip. by rewrite app_nil_r.
  - apply not_elem_of_cons in Hc as [Hx Ha].
    change ((x :: a) ++ (c :: p) ++ s) with (x :: (a ++ (c :: p) ++ s)).
    cbn [JS.split_scan].
    rewrite startsWith_head_ne by congruence.
    rewrite IH by done. cbn [rev]. by rewrite <- app_assoc.
Qed.

(** A text free of the separator's first code unit is one piece. *)
Lemma split_scan_whole (c : N) (p a cur : jsstring) :
  c ∉ a -> JS.split_scan (c :: p) 0 cur a = [rev cur ++ a].
Proof.
  revert cur. induction a as [|x a IH]; intros cur Hc.
  - by rewrite app_nil_r.
  - apply not_elem_of_cons in Hc as [Hx Ha].
    cbn [JS.split_scan]. rewrite startsWith_head_ne by congruence.
    rewrite IH by done. cbn [rev]. by rewrite <- app_assoc.
Qed.

Lemma split_piece (c : N) (p a s : jsstring) :
  c ∉ a ->
  JS.split (c :: p) (a ++ (c :: p) ++ s) = a :: JS.split (c :: p) s.
Proof. intros Hc. unfold JS.split. by rewrite split_scan_piece. Qed.

Lemma split_whole (c : N) (p a : jsstring) :
  c ∉ a -> JS.split (c :: p) a = [a].
Proof. intros Hc. unfold JS.split. by rewrite split_scan_whole. Qed.

Lemma split_scan_nonempty (sep : jsstring) (k : nat) (cur s : jsstring) :
  JS.split_scan sep k cur s <> [].
Proof.
  revert k cur. induction s as [|x s IH]; intros k cur; simpl; [done|].
  destruct k; [|apply IH].
  destruct (JS.startsWith sep (x :: s)); [done | apply IH].
Qed.

(** *** Trimming *)

Lemma trimStart_blank (s : jsstring) :
  JS.truthy (JS.trimStart s) = negb (blank s).
Proof.
  induction s as [|c s IH]; simpl; [done|].
  destruct (JS.isWhiteSpace c) eqn:E; simpl; [apply IH | done].
Qed.

Lemma blank_app (a b : jsstring) : blank (a ++ b) = blank a && blank b.
Proof. apply forallb_app. Qed.

Lemma blank_rev (s : jsstring) : blank (rev s) = blank s.
Proof.
  induction s as [|c s IH]; simpl; [done|].
  rewrite blank_app, IH. simpl. rewrite andb_true_r. apply andb_comm.
Qed.

Lemma blank_trimStart (s : jsstring) : blank (JS.trimStart s) = blank s.
Proof.
  induction s as [|c s IH]; simpl; [done|].
  destruct (JS.isWhiteSpace c) eqn:E; simpl; [apply IH | by rewrite E].
Qed.

Lemma truthy_rev (s : jsstring) : JS.truthy (rev s) = JS.truthy s.
Proof.
  destruct s as [|c s]; [done|]. simpl.
  by destruct (rev s).
Qed.

(** [s.trim()] is truthy exactly when [s] has a code unit that is not
    white space. *)
Lemma truthy_trim (s : jsstring) : JS.truthy (JS.trim s) = negb (blank s).
Proof.
  unfold JS.trim, JS.trimEnd.
  by rewrite truthy_rev, trimStart_blank, blank_rev, blank_trimStart.
Qed.

Lemma trim_blank (s : jsstring) : blank s = true -> JS.trim s = [].
Proof.
  intros Hb. pose proof (truthy_trim s) as Ht. rewrite Hb in Ht.
  by destruct (JS.trim s).
Qed.

Lemma trimStart_solid (c : N) (s : jsstring) :
  JS.isWhiteSpace c = false -> JS.trimStart (c :: s) = c :: s.
Proof. intros Hc. simpl. by rewrite Hc. Qed.

(** A text that begins and ends with code units that are not white space
    is its own trim. *)
Lemma trim_solid (s : jsstring) :
  match head s with Some c => JS.isWhiteSpace c = false | None => True end ->
  match last s with Some c => JS.isWhiteSpace c = false | None => True end ->
  JS.trim s = s.
Proof.
  intros Hh Hl. unfold JS.trim, JS.trimEnd.
  destruct s as [|c s]; [done|].
  simpl in Hh. rewrite (trimStart_solid c s Hh).
  destruct (rev (c :: s)) as [|d r] eqn:Er.
  - apply (f_equal (@rev N)) in Er. rewrite rev_involutive in Er. done.
  - assert (Hd : last (c :: s) = Some d).
    { apply (f_equal (@rev N)) in Er. rewrite rev_involutive in Er.
      rewrite Er. cbn [rev]. apply last_snoc. }
    rewrite Hd in Hl. rewrite (trimStart_solid d r Hl).
    rewrite <- Er. apply rev_involutive.
Qed.

End StringFacts.

(** ** UTF-8: decoding and encoding again *)

Section Utf8Facts.
Import Utf8.

(** Decides the comparisons of the goal and of the hypotheses. *)
Ltac by_cases :=
  repeat match goal with
  | |- context [N.ltb ?a ?b] =>
      destruct (N.ltb_spec a b); try (exfalso; lia)
  | |- context [N.leb ?a ?b] =>
      destruct (N.leb_spec a b); try (exfalso; lia)
  | |- context [N.eqb ?a ?b] =>
      destruct (N.eqb_spec a b); try (exfalso; lia)
  | H : context [N.ltb ?a ?b] |- _ =>
      destruct (N.ltb_spec a b); try (exfalso; lia)
  | H : context [N.leb ?a ?b] |- _ =>
      destruct (N.leb_spec a b); try (exfalso; lia)
  | H : context [N.eqb ?a ?b] |- _ =>
      destruct (N.eqb_spec a b); try (exfalso; lia)
  end.

Lemma inRange_spec (lo hi b : N) :
  inRange lo hi b = true <-> lo <= b <= hi.
Proof.
  unfold inRange. rewrite andb_true_iff, !N.leb_le. tauto.
Qed.

Lemma decode_one (b : N) (l : bytes) :
  b < 0x80 -> decode (b :: l) = b :: decode l.
Proof.
  intros Hb. unfold decode. cbn [decode_from step]. unfold first, lead.
  by destruct (N.ltb_spec b 0x80); [|lia].
Qed.

Lemma encode_one (c : N) (s : jsstring) :
  c < 0x80 -> encode (c :: s) = c :: encode s.
Proof.
  intros Hc. cbn [encode].
  unfold isHighSurrogate, isLowSurrogate, inRange, encodeScalar.
  by_cases; done.
Qed.


Lemma decode_start (b cp lo hi : N) (n : nat) (l : bytes) :
  lead b = More cp n lo hi ->
  decode (b :: l) = decode_from (Some (cp, n, lo, hi)) l.
Proof.
  intros Hb. unfold decode. cbn [decode_from step]. unfold first.
  by rewrite Hb.
Qed.

Lemma decode_last (cp lo hi b : N) (l : bytes) :
  lo <= b <= hi ->
  decode_from (Some (cp, 1%nat, lo, hi)) (b :: l)
  = units (cp * 64 + (b - 0x80)) ++ decode l.
Proof.
  intros Hb. cbn [decode_from step].
  by rewrite (proj2 (inRange_spec lo hi b) Hb).
Qed.

Lemma decode_next (cp lo hi b : N) (k : nat) (l : bytes) :
  lo <= b <= hi ->
  decode_from (Some (cp, S (S k), lo, hi)) (b :: l)
  = decode_from (Some (cp * 64 + (b - 0x80), S k, 0x80, 0xBF)) l.
Proof.
  intros Hb. cbn [decode_from step].
  by rewrite (proj2 (inRange_spec lo hi b) Hb).
Qed.

(** A code unit that is no surrogate is encoded on its own. *)
Lemma encode_scalar (c : N) (s : jsstring) :
  c < 0xD800 \/ 0xE000 <= c ->
  encode (c :: s) = encodeScalar c ++ encode s.
Proof.
  intros Hc. cbn [encode]. unfold isHighSurrogate, isLowSurrogate, inRange.
  by_cases; done.
Qed.

Lemma encode_pair (c d : N) (s : jsstring) :
  isHighSurrogate c = true -> isLowSurrogate d = true ->
  encode (c :: d :: s)
  = encodeScalar (0x10000 + (c - 0xD800) * 0x400 + (d - 0xDC00)) ++ encode s.
Proof. intros Hc Hd. cbn [encode]. by rewrite Hc, Hd. Qed.

(** The code units of a scalar value are encoded together. *)
Lemma encode_units (cp : N) (s : jsstring) :
  cp < 0xD800 \/ 0xE000 <= cp < 0x110000 ->
  encode (units cp ++ s) = encodeScalar cp ++ encode s.
Proof.
  intros Hc. unfold units. destruct (N.ltb_spec cp 0x10000) as [Hlt|Hge].
  - apply encode_scalar. lia.
  - cbn [app].
    pose proof (N.Div0.div_mod (cp - 0x10000) 0x400) as Hdm.
    pose proof (N.mod_upper_bound (cp - 0x10000) 0x400 ltac:(lia)) as Hm.
    assert (Hq : (cp - 0x10000) / 0x400 < 0x400)
      by (apply N.Div0.div_lt_upper_bound; lia).
    set (q := (cp - 0x10000) / 0x400) in *.
    set (m := (cp - 0x10000) mod 0x400) in *.
    rewrite encode_pair by (apply inRange_spec; lia).
    f_equal. f_equal. lia.
Qed.

(** The digits in base 64 of a number built from them. *)
Lemma base64_digit (a b : N) :
  b < 64 -> (a * 64 + b) / 64 = a /\ (a * 64 + b) mod 64 = b.
Proof.
  intros Hb. split.
  - symmetry. apply (N.div_unique _ _ a b); lia.
  - symmetry. apply (N.mod_unique _ _ a b); lia.
Qed.

Lemma two_bytes (b1 b2 : N) (l : bytes) :
  0xC2 <= b1 <= 0xDF -> 0x80 <= b2 <= 0xBF ->
  encode (decode (b1 :: b2 :: l)) = b1 :: b2 :: encode (decode l).
Proof.
  intros H1 H2.
  assert (Hlead : lead b1 = More (b1 - 0xC0) 1 0x80 0xBF).
  { unfold lead, inRange. by_cases; done. }
  rewrite (decode_start _ _ _ _ _ _ Hlead), decode_last by done.
  rewrite encode_units by lia. unfold encodeScalar.
  destruct (base64_digit (b1 - 0xC0) (b2 - 0x80)) as [Hq Hr]; [lia|].
  rewrite Hq, Hr.
  set (cp := (b1 - 0xC0) * 64 + (b2 - 0x80)).
  assert (0x80 <= cp < 0x800) by (unfold cp; lia).
  by_cases. cbn [app]. repeat f_equal; lia.
Qed.

Lemma three_bytes (b1 b2 b3 : N) (l : bytes) :
  0xE0 <= b1 <= 0xEF -> second3 b1 b2 = true -> 0x80 <= b3 <= 0xBF ->
  encode (decode (b1 :: b2 :: b3 :: l))
  = b1 :: b2 :: b3 :: encode (decode l).
Proof.
  intros H1 H2 H3.
  assert (Hlead : lead b1
                  = More (b1 - 0xE0) 2 (if b1 =? 0xE0 then 0xA0 else 0x80)
                         (if b1 =? 0xED then 0x9F else 0xBF)).
  { unfold lead, inRange. by_cases; done. }
  assert (H2' : (if b1 =? 0xE0 then 0xA0 else 0x80) <= b2
                <= (if b1 =? 0xED then 0x9F else 0xBF)).
  { revert H2. unfold second3. by_cases; rewrite inRange_spec; lia. }
  rewrite (decode_start _ _ _ _ _ _ Hlead), decode_next, decode_last
    by done.
  set (a := b1 - 0xE0). set (b := b2 - 0x80). set (c := b3 - 0x80).
  assert (Ha : b1 = 0xE0 + a) by lia.
  assert (Hb : b2 = 0x80 + b) by (by_cases; lia).
  assert (Hc : b3 = 0x80 + c) by lia.
  assert (Hbb : b < 64) by (by_cases; lia).
  assert (Hcc : c < 64) by lia.
  assert (Hcp : 0x800 <= (a * 64 + b) * 64 + c < 0xD800 \/
                0xE000 <= (a * 64 + b) * 64 + c < 0x10000)
    by (by_cases; lia).
  rewrite encode_units by lia. unfold encodeScalar.
  destruct (base64_digit (a * 64 + b) c Hcc) as [Hq1 Hr1].
  destruct (base64_digit a b Hbb) as [Hq2 Hr2].
  assert (Hq3 : ((a * 64 + b) * 64 + c) / 4096 = a).
  { change 4096 with (64 * 64). by rewrite <- N.Div0.div_div, Hq1, Hq2. }
  rewrite Hq3, Hq1, Hr1, Hr2.
  set (cp := (a * 64 + b) * 64 + c) in *.
  clearbody a b c. clear H2'. by_cases; cbn [app]; by rewrite Ha, Hb, Hc.
Qed.

Lemma four_bytes (b1 b2 b3 b4 : N) (l : bytes) :
  0xF0 <= b1 <= 0xF4 -> second4 b1 b2 = true ->
  0x80 <= b3 <= 0xBF -> 0x80 <= b4 <= 0xBF ->
  encode (decode (b1 :: b2 :: b3 :: b4 :: l))
  = b1 :: b2 :: b3 :: b4 :: encode (decode l).
Proof.
  intros H1 H2 H3 H4.
  assert (Hlead : lead b1
                  = More (b1 - 0xF0) 3 (if b1 =? 0xF0 then 0x90 else 0x80)
                         (if b1 =? 0xF4 then 0x8F else 0xBF)).
  { unfold lead, inRange. by_cases; done. }
  assert (H2' : (if b1 =? 0xF0 then 0x90 else 0x80) <= b2
                <= (if b1 =? 0xF4 then 0x8F else 0xBF)).
  { revert H2. unfold second4. by_cases; rewrite inRange_spec; lia. }
  rewrite (decode_start _ _ _ _ _ _ Hlead), !decode_next, decode_last
    by done.
  set (a := b1 - 0xF0). set (b := b2 - 0x80). set (c := b3 - 0x80).
  set (d := b4 - 0x80).
  assert (Ha : b1 = 0xF0 + a) by lia.
  assert (Hb : b2 = 0x80 + b) by (by_cases; lia).
  assert (Hc : b3 = 0x80 + c) by lia.
  assert (Hd : b4 = 0x80 + d) by lia.
  assert (Hbb : b < 64) by (by_cases; lia).
  assert (Hcc : c < 64) by lia.
  assert (Hdd : d < 64) by lia.
  assert (Hcp : 0x10000 <= ((a * 64 + b) * 64 + c) * 64 + d < 0x110000)
    by (by_cases; lia).
  rewrite encode_units by lia. unfold encodeScalar.
  destruct (base64_digit ((a * 64 + b) * 64 + c) d Hdd) as [Hq1 Hr1].
  destruct (base64_digit (a * 64 + b) c Hcc) as [Hq2 Hr2].
  destruct (base64_digit a b Hbb) as [Hq3 Hr3].
  assert (Hq4 : (((a * 64 + b) * 64 + c) * 64 + d) / 4096 = a * 64 + b).
  { change 4096 with (64 * 64). by rewrite <- N.Div0.div_div, Hq1, Hq2. }
  assert (Hq5 : (((a * 64 + b) * 64 + c) * 64 + d) / 262144 = a).
  { change 262144 with (4096 * 64). by rewrite <- N.Div0.div_div, Hq4, Hq3. }
  rewrite Hq5, Hq4, Hq1, Hr1, Hr2, Hr3.
  set (cp := ((a * 64 + b) * 64 + c) * 64 + d) in *.
  clearbody a b c d. clear H2'. by_cases; cbn [app]; by rewrite Ha, Hb, Hc, Hd.
Qed.

(** Well-formed UTF-8 survives being decoded and encoded again. *)
Lemma utf8_encode_decode (l : bytes) :
  wellFormed l = true -> encode (decode l) = l.
Proof.
  remember (length l) as n eqn:Hn. revert l Hn.
  induction n as [n IH] using lt_wf_ind. intros l Hn Hwf.
  destruct l as [|b1 l1]; [done|]. cbn [wellFormed] in Hwf.
  destruct (N.ltb_spec b1 0x80) as [Hb1|Hb1].
  { rewrite decode_one, encode_one by done. f_equal.
    apply (IH (length l1)); [cbn in Hn; lia | done | done]. }
  destruct l1 as [|b2 l2]; [done|].
  destruct (inRange 0xC2 0xDF b1) eqn:Hr2.
  { apply andb_true_iff in Hwf as [Hb2 Hwf].
    apply inRange_spec in Hr2, Hb2. rewrite two_bytes by done.
    do 2 f_equal. apply (IH (length l2)); [cbn in Hn; lia | done | done]. }
  destruct l2 as [|b3 l3]; [done|].
  destruct (inRange 0xE0 0xEF b1) eqn:Hr3.
  { apply andb_true_iff in Hwf as [Hwf Hl].
    apply andb_true_iff in Hwf as [Hb2 Hb3].
    apply inRange_spec in Hr3, Hb3. rewrite three_bytes by done.
    do 3 f_equal. apply (IH (length l3)); [cbn in Hn; lia | done | done]. }
  destruct l3 as [|b4 l4]; [done|].
  apply andb_true_iff in Hwf as [Hwf Hl].
  apply andb_true_iff in Hwf as [Hwf Hb4].
  apply andb_true_iff in Hwf as [Hwf Hb3].
  apply andb_true_iff in Hwf as [Hr4 Hb2].
  apply inRange_spec in Hr4, Hb3, Hb4. rewrite four_bytes by done.
  do 4 f_equal. apply (IH (length l4)); [cbn in Hn; lia | done | done].
Qed.

End Utf8Facts.

(** ** The process runner *)

Section GitExec.

(** In the model a run of the tool leaves files, directories and
    console as they are. *)
Lemma gitExec_world (args : list jsstring) (o : GitExecOptions) (w : World) :
  gitExec args o w = (w, snd (gitExec args o w)).
Proof.
  unfold gitExec. destruct (CONFIG_PATH w) as [root|]; [|done].
  by destruct (JS.truthy root).
Qed.

(** Without a root directory nothing is run. *)
Lemma gitExec_unconfigured (args : list jsstring) (o : GitExecOptions)
    (w : World) :
  CONFIG_PATH w = None \/ CONFIG_PATH w = Some [] ->
  gitExec args o w = (w, Throw not_initialized).
Proof. unfold gitExec. by intros [-> | ->]. Qed.

(** Its outcome depends on the root directory and on the tool only. *)
Lemma gitExec_same (args : list jsstring) (o : GitExecOptions)
    (w w' : World) :
  CONFIG_PATH w' = CONFIG_PATH w -> execFileAsync w' = execFileAsync w ->
  snd (gitExec args o w') = snd (gitExec args o w).
Proof.
  intros Hc He. unfold gitExec. rewrite Hc, He.
  destruct (CONFIG_PATH w) as [root|]; [|done].
  by destruct (JS.truthy root).
Qed.

End GitExec.

(** ** gitCheckIsRepo *)

(** C10. [gitCheckIsRepo] never raises: it resolves to [true] when the
    [rev-parse] command succeeds and to [false] when the command fails
    with whatever error, in particular when no root directory is
    configured ([CONFIG_PATH] undefined or empty); the world is left as
    it was. *)
Theorem gitCheckIsRepo_never_raises (w : World) :
  (exists b, gitCheckIsRepo w = (w, Normal b)) /\
  (forall out,
     snd (gitExec [js "rev-parse"; js "--is-inside-work-tree"] no_options w)
     = Normal out ->
     gitCheckIsRepo w = (w, Normal true)) /\
  (forall e,
     snd (gitExec [js "rev-parse"; js "--is-inside-work-tree"] no_options w)
     = Throw e ->
     gitCheckIsRepo w = (w, Normal false)) /\
  (CONFIG_PATH w = None \/ CONFIG_PATH w = Some [] ->
   gitCheckIsRepo w = (w, Normal false)).
Proof.
  assert (Hrun : forall c,
    snd (gitExec [js "rev-parse"; js "--is-inside-work-tree"] no_options w)
    = c ->
    gitCheckIsRepo w
    = (w, Normal (match c with Normal _ => true | Throw _ => false end))).
  { intros c Hc. unfold gitCheckIsRepo, try_catch, bind, ret.
    rewrite gitExec_world, Hc. by destruct c. }
  split; [|split; [|split]].
  - eexists. by apply Hrun.
  - intros out Hout. by rewrite (Hrun _ Hout).
  - intros e He. by rewrite (Hrun _ He).
  - intros Hnone. apply (Hrun (Throw not_initialized)).
    by rewrite (gitExec_unconfigured _ _ _ Hnone).
Qed.

Lemma gitCheckIsRepo_never_raises_witness :
  gitCheckIsRepo Examples.w_repo = (Examples.w_repo, Normal true) /\
  gitCheckIsRepo Examples.w_norepo = (Examples.w_norepo, Normal false) /\
  gitCheckIsRepo Examples.w_unconfigured
  = (Examples.w_unconfigured, Normal false).
Proof.
  split; [|split].
  - apply (proj1 (proj2 (gitCheckIsRepo_never_raises Examples.w_repo))
             {| stdout := js "true"; stderr := [] |}).
    reflexivity.
  - apply (proj1 (proj2 (proj2
             (gitCheckIsRepo_never_raises Examples.w_norepo)))
             command_failed).
    reflexivity.
  - apply (proj2 (proj2 (proj2
             (gitCheckIsRepo_never_raises Examples.w_unconfigured)))).
    left. reflexivity.
Defined.

(** ** Empty output *)

(** C6. When the tool's output is empty or consists of white space only,
    [gitLog] and [getLightweightGitLog] both resolve, without raising, to
    the empty result: no records, no latest record, count 0. *)
Theorem empty_output_empty_result (w : World) (out : ExecResult) :
  blank (stdout out) = true ->
  (forall options maxCount file,
     gitLog_options options = Normal (maxCount, file) ->
     snd (gitExec (gitLog_args maxCount file) no_options w) = Normal out ->
     exists r, gitLog options w = (w, Normal r) /\
               all r = [] /\ latest r = None /\ total r = 0%nat) /\
  (snd (gitExec lightweight_args no_options w) = Normal out ->
   exists r, getLightweightGitLog w = (w, Normal r) /\
             all r = [] /\ latest r = None /\ total r = 0%nat).
Proof.
  intros Hb. pose proof (trim_blank _ Hb) as Ht. split.
  - intros options maxCount file Ho Hx. exists emptyResult.
    split; [|done].
    unfold gitLog, bind, lift. rewrite Ho, gitExec_world, Hx.
    unfold gitLog_parse. by rewrite Ht.
  - intros Hx. exists emptyResult. split; [|done].
    unfold getLightweightGitLog, bind, ret. rewrite gitExec_world, Hx.
    unfold lightweight_parse. by rewrite Ht.
Qed.

Lemma empty_output_empty_result_witness :
  gitLog (OptObject None (Some Examples.notes))
         (Examples.world (Examples.answering (LF ++ SP)) ∅ [])
  = (Examples.world (Examples.answering (LF ++ SP)) ∅ [],
     Normal emptyResult) /\
  getLightweightGitLog (Examples.world (Examples.answering (LF ++ SP)) ∅ [])
  = (Examples.world (Examples.answering (LF ++ SP)) ∅ [],
     Normal emptyResult).
Proof.
  pose proof (empty_output_empty_result
                (Examples.world (Examples.answering (LF ++ SP)) ∅ [])
                {| stdout := LF ++ SP; stderr := [] |} eq_refl) as [Hfull Hlight].
  split.
  - destruct (Hfull (OptObject None (Some Examples.notes)) 500%Z
                (Some Examples.notes) eq_refl eq_refl)
      as (r & Hr & Hall & Hlatest & Htotal).
    rewrite Hr. destruct r as [a l t]. simpl in *. by subst.
  - destruct (Hlight eq_refl) as (r & Hr & Hall & Hlatest & Htotal).
    rewrite Hr. destruct r as [a l t]. simpl in *. by subst.
Defined.

(** ** What a computation leaves alone *)

Section Keeps.

Context (F : World -> World -> Prop).
Hypothesis F_refl : forall w, F w w.
Hypothesis F_trans : forall a b c, F a b -> F b c -> F a c.

Lemma keeps_ret {A} (a : A) : keeps F (ret a).
Proof. intros w. apply F_refl. Qed.

Lemma keeps_throw {A} (e : JsError) : keeps F (@throw A e).
Proof. intros w. apply F_refl. Qed.

Lemma keeps_gitExec (args : list jsstring) (o : GitExecOptions) :
  keeps F (gitExec args o).
Proof. intros w. rewrite gitExec_world. apply F_refl. Qed.

Lemma keeps_bind {A B} (c : M A) (k : A -> M B) :
  keeps F c -> (forall a, keeps F (k a)) -> keeps F (bind c k).
Proof.
  intros Hc Hk w. unfold bind. specialize (Hc w).
  destruct (c w) as [w1 [a|e]]; [|done].
  eapply F_trans; [exact Hc | apply Hk].
Qed.

Lemma keeps_try_catch {A} (c : M A) (h : JsError -> M A) :
  keeps F c -> (forall e, keeps F (h e)) -> keeps F (try_catch c h).
Proof.
  intros Hc Hh w. unfold try_catch. specialize (Hc w).
  destruct (c w) as [w1 [a|e]]; [done|].
  eapply F_trans; [exact Hc | apply Hh].
Qed.

(** The primary attempt keeps whatever its file-system calls keep. *)
Lemma keeps_attempt (path_dirname : jsstring -> jsstring)
    (commitHash filePath fullPath : jsstring) :
  keeps F (fs.existsSync (path_dirname fullPath)) ->
  keeps F (fs.mkdirSync_recursive path_dirname (path_dirname fullPath)) ->
  (forall text, keeps F (fs.writeFileSync path_dirname fullPath text)) ->
  keeps F (restoreAttempt path_dirname commitHash filePath fullPath).
Proof.
  intros Hex Hmk Hwr. unfold restoreAttempt.
  apply keeps_bind; [apply keeps_gitExec | intros out].
  apply keeps_bind; [done | intros present].
  apply keeps_bind; [|intros; apply Hwr].
  destruct (negb present); [done | apply keeps_ret].
Qed.

(** The restore keeps whatever its file-system and console calls keep. *)
Lemma keeps_restore (path_dirname : jsstring -> jsstring)
    (commitHash filePath fullPath : jsstring) :
  keeps F (fs.readFileSync fullPath) ->
  keeps F (fs.existsSync (path_dirname fullPath)) ->
  keeps F (fs.mkdirSync_recursive path_dirname (path_dirname fullPath)) ->
  (forall text, keeps F (fs.writeFileSync path_dirname fullPath text)) ->
  (forall line, keeps F (console_error line)) ->
  keeps F
    (backupContent <- readBackup fullPath ;;
     try_catch (restoreAttempt path_dirname commitHash filePath fullPath)
       (fun error =>
          console_error (js "[git] Restore failed for " ++ filePath ++
                         js ": " ++ err_message error) ;;
          rollback path_dirname filePath fullPath backupContent ;;
          throw error)).
Proof.
  intros Hread Hex Hmk Hwr Hlog.
  apply keeps_bind.
  { apply keeps_try_catch; [|intros; apply keeps_ret].
    apply keeps_bind; [done | intros; apply keeps_ret]. }
  intros backup. apply keeps_try_catch.
  - by apply keeps_attempt.
  - intros e. apply keeps_bind; [apply Hlog | intros _].
    apply keeps_bind; [|intros; apply keeps_throw].
    destruct backup as [b|]; [|apply keeps_ret].
    apply keeps_try_catch; [|intros; apply Hlog].
    apply keeps_bind; [apply Hwr | intros; apply Hlog].
Qed.

End Keeps.

(** ** gitCheckoutSafe *)

Section FsFacts.

Variable path_dirname : jsstring -> jsstring.

(** Past the checks of the path, the outcome of a write is the
    environment's. *)
Lemma writeFileSync_open (p text : jsstring) (w : World) :
  fs.isDirectory w p = false ->
  fs.isFile w p = true \/ fs.isDirectory w (path_dirname p) = true ->
  fs.writeFileSync path_dirname p text w
  = match head (write_faults w) with
    | Some (Some f) =>
        (set_files (match wf_residue f with
                    | Some r => <[p := r]> (files w)
                    | None => files w
                    end) (set_write_faults (tail (write_faults w)) w),
         Throw (wf_error f))
    | _ =>
        (set_files (<[p := Utf8.encode text]> (files w))
           (set_write_faults (tail (write_faults w)) w), Normal tt)
    end.
Proof.
  intros Hd Hp. unfold fs.writeFileSync. rewrite Hd.
  destruct Hp as [-> | ->]; [done|]. by rewrite andb_false_r.
Qed.

(** An unfaulted write to a path that can be opened stores the encoded
    text. *)
Lemma writeFileSync_ok (p text : jsstring) (w : World) :
  fs.isDirectory w p = false ->
  fs.isFile w p = true \/ fs.isDirectory w (path_dirname p) = true ->
  unfaulted (write_faults w) = true ->
  fs.writeFileSync path_dirname p text w
  = (set_files (<[p := Utf8.encode text]> (files w))
       (set_write_faults (tail (write_faults w)) w), Normal tt).
Proof.
  intros Hd Hp. rewrite writeFileSync_open by done. unfold unfaulted.
  by destruct (head (write_faults w)) as [[f|]|].
Qed.




End FsFacts.

Section RestoreFacts.

Variable path_join : jsstring -> jsstring -> jsstring.
Variable path_dirname : jsstring -> jsstring.

Local Abbreviation checkout := (gitCheckoutSafe path_join path_dirname).
Local Abbreviation attempt := (restoreAttempt path_dirname).

(** The backup step always completes: it holds the file's content,
    decoded, when the read succeeds and [null] otherwise; it only uses up
    one entry of the read schedule. *)
Lemma readBackup_run (p : jsstring) (w : World) :
  readBackup p w
  = (set_read_faults (tail (read_faults w)) w,
     Normal (match head (read_faults w) with
             | Some (Some _) => None
             | _ => if fs.isDirectory w p then None
                    else Utf8.decode <$> files w !! p
             end)).
Proof.
  unfold readBackup, try_catch, bind, ret, fs.readFileSync.
  destruct (head (read_faults w)) as [[e|]|]; [done| |];
    (destruct (fs.isDirectory w p); [done|]); by destruct (files w !! p).
Qed.

(** A backup is taken of a regular file only. *)
Lemma readBackup_taken (p text : jsstring) (w w1 : World) :
  readBackup p w = (w1, Normal (Some text)) ->
  w1 = set_read_faults (tail (read_faults w)) w /\
  fs.isDirectory w p = false /\ fs.isFile w p = true.
Proof.
  rewrite readBackup_run. intros [= <- Hb]. split; [done|].
  unfold fs.isFile.
  destruct (head (read_faults w)) as [[e|]|]; [done| |];
    (destruct (fs.isDirectory w p); [done|]);
    (destruct (files w !! p) as [c|] eqn:Hc; [|done]);
    (split; [done|]); by apply bool_decide_eq_true.
Qed.

(** The attempt, when the fetch fails: nothing is touched. *)
Lemma attempt_fetch_fails (commitHash filePath fullPath : jsstring)
    (w : World) (e : JsError) :
  snd (gitExec [js "show"; commitHash ++ js ":" ++ filePath] no_options w)
  = Throw e ->
  attempt commitHash filePath fullPath w = (w, Throw e).
Proof.
  intros He. unfold restoreAttempt, bind. by rewrite gitExec_world, He.
Qed.




(** Neither the directory creation nor a write to [p] turns the regular
    file [p] into anything else. *)
Lemma attempt_stays_file (commitHash filePath p : jsstring) :
  keeps (stays_file p) (attempt commitHash filePath p).
Proof.
  assert (Hrefl : forall w, stays_file p w w) by (by intros w H).
  assert (Htrans : forall a b c,
            stays_file p a b -> stays_file p b c -> stays_file p a c)
    by (intros a b c Hab Hbc H; auto).
  apply keeps_attempt; try done.
  - intros w [Hd Hf]. unfold fs.mkdirSync_recursive.
    destruct (existsb (fs.isFile w) _) eqn:Hex; [done|].
    destruct (head (mkdir_faults w)) as [[e|]|]; [done| |];
      (split; [|done]); apply bool_decide_eq_false; cbn; intros Hin;
      (apply elem_of_union in Hin as [Hin|Hin];
       [by apply bool_decide_eq_false in Hd|]);
      apply elem_of_list_to_set, list_elem_of_In in Hin;
      apply not_true_iff_false in Hex; apply Hex, existsb_exists; eauto.
  - intros text w [Hd Hf]. rewrite writeFileSync_open by auto.
    assert (Hins : forall r, is_Some (<[p := r]> (files w) !! p))
      by (intros r; rewrite lookup_insert_eq; eauto).
    destruct (head (write_faults w)) as [[f|]|];
      [destruct (wf_residue f)| |]; cbn; (split; [done|]);
      apply bool_decide_eq_true; cbn;
      first [apply Hins | by apply bool_decide_eq_true in Hf].
Qed.

(** C1, amended. When the target file holds some content, the fetch of
    the blob fails and the environment does not fail the write of the
    backup, the call raises the fetch's own error.  The backup is the
    content decoded as UTF-8 and is written back encoded, so the file
    holds its former content afterwards when that is well-formed UTF-8;
    otherwise it holds the content decoded and encoded again (or the
    former content, when no backup could be read). *)
Theorem fetch_failure_keeps_file (w : World)
    (commitHash filePath root : jsstring) (content : bytes) (e : JsError) :
  CONFIG_PATH w = Some root ->
  files w !! path_join root filePath = Some content ->
  snd (gitExec [js "show"; commitHash ++ js ":" ++ filePath] no_options w)
  = Throw e ->
  unfaulted (write_faults w) = true ->
  exists w',
    checkout commitHash filePath w = (w', Throw e) /\
    files w' !! path_join root filePath
    = Some (if unfaulted (read_faults w) &&
               negb (fs.isDirectory w (path_join root filePath))
            then Utf8.encode (Utf8.decode content)
            else content) /\
    (Utf8.wellFormed content = true ->
     files w' !! path_join root filePath = Some content).
Proof.
  intros Hroot Hfile He Hw.
  assert (Hgoal : exists w',
    checkout commitHash filePath w = (w', Throw e) /\
    files w' !! path_join root filePath
    = Some (if unfaulted (read_faults w) &&
               negb (fs.isDirectory w (path_join root filePath))
            then Utf8.encode (Utf8.decode content)
            else content)).
  { unfold gitCheckoutSafe, bind at 1. unfold fullPathOf. rewrite Hroot.
    unfold bind at 1. rewrite readBackup_run.
    set (w1 := set_read_faults (tail (read_faults w)) w).
    unfold try_catch at 1.
    rewrite (attempt_fetch_fails commitHash filePath _ w1 e)
      by (by rewrite (gitExec_same _ _ w w1)).
    unfold bind, console_error, throw. rewrite Hfile. unfold unfaulted.
    assert (Hwritten : forall w0 : World,
      fs.isDirectory w0 (path_join root filePath) = false ->
      files w0 = files w -> write_faults w0 = write_faults w ->
      exists w',
        fs.writeFileSync path_dirname (path_join root filePath)
          (Utf8.decode content) w0 = (w', Normal tt) /\
        files w' !! path_join root filePath
        = Some (Utf8.encode (Utf8.decode content))).
    { intros w0 Hd Hf Hs. rewrite writeFileSync_ok.
      - eexists. split; [done|]. cbn. apply lookup_insert_eq.
      - done.
      - left. apply bool_decide_eq_true. rewrite Hf, Hfile. eauto.
      - by rewrite Hs. }
    destruct (head (read_faults w)) as [[r|]|];
      [cbn [rollback ret andb]; eexists; split; done| |];
      (destruct (fs.isDirectory w (path_join root filePath)) eqn:Hd;
       [cbn [rollback ret andb negb fmap option_fmap option_map];
        eexists; split; done|]);
      cbn [rollback fmap option_fmap option_map andb negb];
      unfold try_catch, bind;
      (edestruct Hwritten as (w' & -> & Hres);
       [| | |unfold console_error; eexists; split; [done | exact Hres]]);
      done. }
  destruct Hgoal as (w' & Hrun & Hres). exists w'.
  split; [done|]. split; [done|].
  intros Hwf. rewrite Hres, utf8_encode_decode by done.
  by destruct (_ && _).
Qed.

(** C2, amended. When the primary restore (fetch, directory creation or
    write) fails, the call raises that primary error, whether the
    rollback succeeds or fails; the two outcomes differ on the console
    only, where the line marked CRITICAL is written exactly when a backup
    had been taken and the write of the backup failed. *)
Theorem restore_failure_raises_primary (w w1 w2 : World)
    (commitHash filePath root : jsstring) (backup : option jsstring)
    (e : JsError) :
  CONFIG_PATH w = Some root ->
  readBackup (path_join root filePath) w = (w1, Normal backup) ->
  attempt commitHash filePath (path_join root filePath) w1
  = (w2, Throw e) ->
  exists w',
    checkout commitHash filePath w = (w', Throw e) /\
    console w'
    = console w2 ++
      [js "[git] Restore failed for " ++ filePath ++ js ": " ++
       err_message e] ++
      match backup with
      | None => []
      | Some _ =>
          match head (write_faults w2) with
          | Some (Some f) =>
              [js "[git] CRITICAL: Restore failed AND could not restore backup: "
               ++ err_message (wf_error f)]
          | _ => [js "[git] Restored backup after failed restore: " ++
                  filePath]
          end
      end.
Proof.
  intros Hroot Hback Hrun.
  unfold gitCheckoutSafe, bind at 1. unfold fullPathOf. rewrite Hroot.
  unfold bind at 1. rewrite Hback. unfold try_catch at 1. rewrite Hrun.
  unfold bind, console_error, throw.
  destruct backup as [b|]; cbn [rollback ret].
  - apply readBackup_taken in Hback as (-> & Hd & Hf).
    pose proof (attempt_stays_file commitHash filePath
                  (path_join root filePath)
                  (set_read_faults (tail (read_faults w)) w)
                  (conj Hd Hf)) as [Hd2 Hf2].
    rewrite Hrun in Hd2, Hf2. cbn [fst] in Hd2, Hf2.
    unfold try_catch, bind. rewrite writeFileSync_open by auto.
    unfold console_error. cbn.
    destruct (head (write_faults w2)) as [[f|]|]; cbn;
      (eexists; split; [done|]); cbn; by rewrite <- app_assoc.
  - eexists. split; [done|]. done.
Qed.

End RestoreFacts.

(** *** Concrete restores on the POSIX paths *)

Section RestoreRuns.
Import Examples.

Local Abbreviation restore := (gitCheckoutSafe posix.join posix.dirname).



(** The rollback scenario: the target holds [A], the revision is
    unknown to the tool, nothing fails the write of the backup. *)
Lemma fetch_failure_keeps_file_witness :
  exists w', restore (js "0000000") notes w_AB = (w', Throw command_failed) /\
             files w' !! notes_path = Some (js "A").
Proof.
  destruct (fetch_failure_keeps_file posix.join posix.dirname w_AB
              (js "0000000") notes config (js "A") command_failed
              eq_refl eq_refl eq_refl eq_refl) as (w' & Hrun & _ & Hfile).
  exists w'. split; [exact Hrun | exact (Hfile eq_refl)].
Defined.

(** C1, as stated, fails, in two ways.  The target holds [A], the fetch
    fails, and the write of the backup fails on a full disk after
    truncating the file: the call raises the fetch's error and the file
    is left empty.  And the target holds three bytes that are no UTF-8,
    the fetch fails and the write of the backup succeeds: the file then
    holds seven other bytes. *)
Lemma fetch_failure_may_lose_file :
  (files w_full !! notes_path = Some (js "A") /\
   snd (gitExec [js "show"; js "0000000" ++ js ":" ++ notes] no_options
          w_full)
   = Throw command_failed /\
   snd (restore (js "0000000") notes w_full) = Throw command_failed /\
   files (fst (restore (js "0000000") notes w_full)) !! notes_path
   = Some [] /\
   files (fst (restore (js "0000000") notes w_full)) !! notes_path
   <> files w_full !! notes_path) /\
  (files w_utf16 !! notes_path = Some utf16 /\
   snd (gitExec [js "show"; js "0000000" ++ js ":" ++ notes] no_options
          w_utf16)
   = Throw command_failed /\
   write_faults w_utf16 = [] /\
   snd (restore (js "0000000") notes w_utf16) = Throw command_failed /\
   files (fst (restore (js "0000000") notes w_utf16)) !! notes_path
   = Some utf16_recoded /\
   files (fst (restore (js "0000000") notes w_utf16)) !! notes_path
   <> files w_utf16 !! notes_path).
Proof.
  repeat split; try (vm_compute; reflexivity); vm_compute; discriminate.
Qed.

(** The primary write fails and so does the write of the backup: the
    primary error is raised and the CRITICAL line is the last one on the
    console. *)
Lemma restore_failure_raises_primary_witness :
  exists w',
    restore rev1 notes w_twice = (w', Throw (wf_error disk_full)) /\
    last (console w')
    = Some (js "[git] CRITICAL: Restore failed AND could not restore backup: "
            ++ err_message (wf_error disk_full)).
Proof.
  destruct (restore_failure_raises_primary posix.join posix.dirname
              w_twice (set_read_faults [] w_twice)
              (fst (restoreAttempt posix.dirname rev1 notes notes_path
                      (set_read_faults [] w_twice)))
              rev1 notes config (Some (js "A")) (wf_error disk_full)
              eq_refl (readBackup_run notes_path w_twice) eq_refl)
    as (w' & Hrun & Hcon).
  exists w'. split; [exact Hrun|]. rewrite Hcon. vm_compute. reflexivity.
Defined.

(** C2, as stated, fails: with the rollback succeeding ([w_once], the
    file is [A] again) and with the rollback failing ([w_twice], the file
    is left truncated) the caller receives one and the same error, that
    of the primary write. *)
Lemma rollback_outcomes_raise_same_error :
  snd (restore rev1 notes w_once) = Throw (wf_error disk_full) /\
  files (fst (restore rev1 notes w_once)) !! notes_path = Some (js "A") /\
  snd (restore rev1 notes w_twice) = Throw (wf_error disk_full) /\
  files (fst (restore rev1 notes w_twice)) !! notes_path = Some [] /\
  snd (restore rev1 notes w_once) = snd (restore rev1 notes w_twice).
Proof. repeat split; vm_compute; reflexivity. Qed.

End RestoreRuns.

(** ** gitLog: what every record satisfies *)

Section LogFacts.

(** [mapC] yields one result per element, in order. *)
Lemma mapC_Forall2 {A B} (f : A -> Completion B) (l : list A) (ys : list B) :
  mapC f l = Normal ys -> Forall2 (fun x y => f x = Normal y) l ys.
Proof.
  revert ys. induction l as [|x l IH]; intros ys; simpl.
  - intros [= <-]. constructor.
  - destruct (f x) as [y|e] eqn:Hx; simpl; [|done].
    destruct (mapC f l) as [ys'|e] eqn:Hl; simpl; [|done].
    intros [= <-]. constructor; [done | by apply IH].
Qed.

Lemma mapC_all {A B} (f : A -> Completion B) (g : A -> B) (l : list A) :
  Forall (fun x => f x = Normal (g x)) l -> mapC f l = Normal (map g l).
Proof.
  induction 1 as [|x l Hx _ IH]; simpl; [done|].
  by rewrite Hx, IH.
Qed.

Lemma mapC_map_all {A B C} (f : B -> Completion C) (g : A -> B)
    (h : A -> C) (l : list A) :
  Forall (fun x => f (g x) = Normal (h x)) l ->
  mapC f (map g l) = Normal (map h l).
Proof.
  induction 1 as [|x l Hx _ IH]; simpl; [done|].
  by rewrite Hx, IH.
Qed.

(** The regular expression of line 101 is the specification's pattern,
    and the first code unit of a matching line reads as its status. *)
Lemma statusLineRe_pattern (line : jsstring) :
  if JS.statusLineRe line
  then statusMeaning (Some (JS.charAt0 line)) = statusPattern line /\
       is_Some (statusPattern line)
  else statusPattern line = None.
Proof.
  destruct line as [|c [|x rest]]; [done..|].
  unfold JS.statusLineRe, statusPattern, JS.charAt0, statusMeaning.
  cbn [take].
  destruct (JS.isWhiteSpace x); [|by rewrite andb_false_r].
  rewrite andb_true_r.
  destruct (c =? 65); [by eauto|].
  destruct (c =? 77); [by eauto|].
  destruct (c =? 68); [by eauto | done].
Qed.

Lemma truthy_statusLineRe (line : jsstring) :
  JS.truthy line && JS.statusLineRe line = JS.statusLineRe line.
Proof. by destruct line. Qed.

(** The status taken from a last part reads as one of the four values,
    and as [Unknown] when no file was asked for. *)
Lemma bodyStatus_meaning (file : option jsstring) (blob : jsstring) :
  exists st,
    statusMeaning (snd (bodyStatus file blob)) = Some st /\
    (file_given file = false -> st = Unknown).
Proof.
  unfold bodyStatus. destruct (file_given file); [|by exists Unknown].
  destruct (last _) as [line|]; [|by exists Unknown].
  rewrite truthy_statusLineRe.
  pose proof (statusLineRe_pattern line) as Hp.
  destruct (JS.statusLineRe line); [|by exists Unknown].
  destruct Hp as [Hm [st Hs]]. exists st. cbn [snd].
  split; [congruence | done].
Qed.

(** A record's status and body come from the last part alone. *)
Lemma parseCommit_bodyStatus (file : option jsstring) (rawCommit : jsstring)
    (c : Commit) :
  parseCommit file rawCommit = Normal c ->
  status c = snd (bodyStatus file (trailingBlob rawCommit)) /\
  body c = JS.trim (fst (bodyStatus file (trailingBlob rawCommit))).
Proof.
  unfold parseCommit, trailingBlob.
  destruct (bodyStatus _ _) as [b st].
  destruct (JS.toISOString _) as [d|e]; simpl; [|done].
  by intros [= <-].
Qed.

(** A fragment without a fifth field has no timestamp, and the date
    conversion raises. *)
Lemma parseCommit_missing_timestamp (file : option jsstring)
    (rawCommit : jsstring) :
  JS.split DELIMITER rawCommit !! 4%nat = None ->
  parseCommit file rawCommit = Throw JS.invalid_time.
Proof.
  intros H4. unfold parseCommit, field. rewrite H4.
  by destruct (bodyStatus _ _).
Qed.

Lemma gitLog_options_file (options : LogOptions) (maxCount : Z)
    (file : option jsstring) :
  gitLog_options options = Normal (maxCount, file) ->
  file = None \/ exists f, file = Some f /\ JS.truthy f = true.
Proof.
  destruct options as [mc [f|]| | |]; simpl; intros [= <- <-]; eauto.
  destruct (JS.truthy f) eqn:Hf; eauto.
Qed.

(** C9. In every record [gitLog] returns the status reads as one of
    Added, Modified, Deleted, Unknown, and as Unknown whenever the call
    asked for no file, whatever the text the tool printed. *)
Theorem status_is_one_of_four (w : World) (options : LogOptions)
    (r : LogResult Commit) (c : Commit) :
  snd (gitLog options w) = Normal r ->
  c ∈ all r ->
  exists st,
    statusMeaning (status c) = Some st /\
    (forall maxCount,
       gitLog_options options = Normal (maxCount, None) -> st = Unknown).
Proof.
  unfold gitLog, bind, lift.
  destruct (gitLog_options options) as [[maxCount file]|e] eqn:Ho; [|done].
  rewrite gitExec_world.
  destruct (snd (gitExec _ _ _)) as [out|e]; [|done].
  unfold gitLog_parse. cbn [snd].
  destruct (negb _).
  { intros [= <-]. by intros ?%elem_of_nil. }
  destruct (mapC _ _) as [commits|e] eqn:Hmap; simpl; [|done].
  intros [= <-] Hc. cbn [all] in Hc.
  apply mapC_Forall2 in Hmap.
  apply list_elem_of_lookup in Hc as [i Hi].
  destruct (Forall2_lookup_r _ _ _ _ _ Hmap Hi) as (raw & _ & Hraw).
  destruct (parseCommit_bodyStatus _ _ _ Hraw) as [Hst _].
  destruct (bodyStatus_meaning file (trailingBlob raw)) as (st & Hm & Hu).
  exists st. rewrite Hst. split; [done|].
  intros mc [= _ ->]. by apply Hu.
Qed.

Lemma status_is_one_of_four_witness :
  exists r c,
    snd (gitLog (OptObject None None) Examples.w_log) = Normal r /\
    head (all r) = Some c /\
    statusMeaning (status c) = Some Unknown.
Proof.
  assert (H : exists r c rest,
    snd (gitLog (OptObject None None) Examples.w_log) = Normal r /\
    all r = c :: rest).
  { vm_compute. do 3 eexists. split; reflexivity. }
  destruct H as (r & c & rest & Hr & Hall).
  exists r, c. split; [exact Hr|]. split; [by rewrite Hall|].
  destruct (status_is_one_of_four Examples.w_log (OptObject None None) r c Hr)
    as (st & Hm & Hu).
  - rewrite Hall. left.
  - rewrite Hm. f_equal. apply (Hu 500%Z). reflexivity.
Defined.

End LogFacts.

(** C3 fails on the source.  The output below is what the tool prints
    for one commit whose subject contains the record separator: the text
    after that separator forms a fragment of two fields, its timestamp
    defaults to the empty string, [parseInt] yields [NaN], and
    [toISOString] raises a [RangeError] that aborts the whole listing. *)
Theorem gitLog_raises_on_split_subject :
  snd (gitLog (OptObject None None) Examples.w_split)
  = Throw JS.invalid_time /\
  JS.split DELIMITER (js " as separator" ++ DELIMITER)
  = [js " as separator"; []].
Proof. split; vm_compute; reflexivity. Qed.

(** ** Well-formed log text *)

Ltac to_prop :=
  repeat match goal with
  | H : _ && _ = true |- _ => apply andb_true_iff in H as [? ?]
  | H : _ || _ = true |- _ => apply orb_true_iff in H as [?|?]
  | H : negb _ = true |- _ => apply negb_true_iff in H
  | H : (_ =? _) = true |- _ => apply N.eqb_eq in H
  | H : (_ =? _) = false |- _ => apply N.eqb_neq in H
  | H : (_ <=? _) = true |- _ => apply N.leb_le in H
  | H : (_ <=? _) = false |- _ => apply N.leb_gt in H
  end.

Section WellFormed.

Lemma digit_not_space (c : N) : isDigit c = true -> JS.isWhiteSpace c = false.
Proof.
  unfold isDigit. intros H. apply not_true_is_false. unfold JS.isWhiteSpace.
  intros Hw. to_prop; lia.
Qed.

Lemma hex_not_space (c : N) :
  isHexDigit c = true -> JS.isWhiteSpace c = false.
Proof.
  unfold isHexDigit, isDigit. intros H. apply not_true_is_false.
  unfold JS.isWhiteSpace. intros Hw. to_prop; lia.
Qed.

Lemma hex_not_sentinel (c : N) :
  isHexDigit c = true -> c <> 167 /\ c <> 177.
Proof. unfold isHexDigit, isDigit. intros H. to_prop; lia. Qed.

Lemma digit_hex (c : N) : isDigit c = true -> isHexDigit c = true.
Proof. unfold isHexDigit. by intros ->. Qed.

(** A code unit excluded from every position is not in the text. *)
Lemma forallb_not_elem (P : N -> bool) (c : N) (s : jsstring) :
  forallb P s = true -> P c = false -> c ∉ s.
Proof.
  intros Hs Hc Hin. apply list_elem_of_In in Hin.
  rewrite forallb_forall in Hs. specialize (Hs c Hin). congruence.
Qed.

Lemma sentinel_free_field (s : jsstring) :
  sentinel_free s = true -> 167 ∉ s.
Proof. intros H. by apply (forallb_not_elem _ _ _ H). Qed.

Lemma sentinel_free_record (s : jsstring) :
  sentinel_free s = true -> 177 ∉ s.
Proof. intros H. by apply (forallb_not_elem _ _ _ H). Qed.

Lemma forallb_impl (P Q : N -> bool) (s : jsstring) :
  (forall c, P c = true -> Q c = true) ->
  forallb P s = true -> forallb Q s = true.
Proof.
  intros HPQ. rewrite !forallb_forall. intros H c Hc. by apply HPQ, H.
Qed.

Lemma hex_sentinel_free (s : jsstring) :
  forallb isHexDigit s = true -> sentinel_free s = true.
Proof.
  apply forallb_impl. intros c Hc.
  destruct (hex_not_sentinel c Hc) as [H1 H2].
  apply N.eqb_neq in H1, H2. by rewrite H1, H2.
Qed.

(** A text without white space is its own trim. *)
Lemma trim_no_space (s : jsstring) :
  forallb (fun c => negb (JS.isWhiteSpace c)) s = true -> JS.trim s = s.
Proof.
  intros Hs. rewrite forallb_forall in Hs. apply trim_solid.
  - destruct s as [|c s]; [done|]. simpl.
    apply negb_true_iff, Hs. by left.
  - destruct (last s) as [c|] eqn:Hl; [|done].
    apply negb_true_iff, Hs, list_elem_of_In.
    apply last_Some in Hl as [s' ->]. set_solver.
Qed.

Lemma trim_hex (s : jsstring) : forallb isHexDigit s = true -> JS.trim s = s.
Proof.
  intros Hs. apply trim_no_space. revert Hs. apply forallb_impl.
  intros c Hc. by rewrite (hex_not_space c Hc).
Qed.

(** *** The timestamp *)

Lemma digitOf_digit (c : N) :
  isDigit c = true -> JS.digitOf 10 c = Some (Z.of_N c - 48)%Z.
Proof.
  unfold isDigit, JS.digitOf. intros H. rewrite H.
  to_prop. destruct (Z.ltb_spec (Z.of_N c - 48) 10); [done | lia].
Qed.

Lemma parseDigits_digits (s : jsstring) (acc : option Z) :
  forallb isDigit s = true ->
  JS.parseDigits 10 s acc
  = match s with
    | [] => acc
    | _ :: _ =>
        Some (fold_left (fun a c => (10 * a + (Z.of_N c - 48))%Z) s
                        (default 0%Z acc))
    end.
Proof.
  revert acc. induction s as [|c s IH]; intros acc Hs; [done|].
  cbn [forallb] in Hs. apply andb_true_iff in Hs as [Hc Hs].
  cbn [JS.parseDigits]. rewrite (digitOf_digit c Hc), (IH _ Hs).
  by destruct s.
Qed.

Lemma decimal_from_nonneg (s : jsstring) (a : Z) :
  (0 <= a)%Z -> forallb isDigit s = true ->
  (0 <= fold_left (fun a c => 10 * a + (Z.of_N c - 48)) s a)%Z.
Proof.
  revert a. induction s as [|c s IH]; intros a Ha Hs; [done|].
  cbn [forallb] in Hs. apply andb_true_iff in Hs as [Hc Hs].
  cbn [fold_left]. apply IH; [|done].
  unfold isDigit in Hc. to_prop. lia.
Qed.

Lemma decimal_nonneg (s : jsstring) :
  forallb isDigit s = true -> (0 <= decimal s)%Z.
Proof. by apply decimal_from_nonneg. Qed.

(** [parseInt] reads a string of decimal digits as the number it
    denotes. *)
Lemma parseInt_digits (s : jsstring) :
  JS.truthy s = true -> forallb isDigit s = true ->
  JS.parseInt s = JS.Int (decimal s).
Proof.
  destruct s as [|c s]; [done|]. intros _ Hs.
  pose proof Hs as Hs'. cbn [forallb] in Hs'.
  apply andb_true_iff in Hs' as [Hc Hrest].
  unfold JS.parseInt.
  rewrite (trimStart_solid c s (digit_not_space c Hc)).
  assert (Hsign : (c =? 45) = false /\ (c =? 43) = false).
  { unfold isDigit in Hc. to_prop. split; apply N.eqb_neq; lia. }
  destruct Hsign as [-> ->].
  assert (Hradix :
    match c :: s with
    | c0 :: x :: r =>
        if (c0 =? 48) && ((x =? 120) || (x =? 88)) then (16%Z, r)
        else (10%Z, c :: s)
    | _ => (10%Z, c :: s)
    end = (10%Z, c :: s)).
  { destruct s as [|x r]; [done|].
    cbn [forallb] in Hrest. apply andb_true_iff in Hrest as [Hx _].
    assert ((x =? 120) = false /\ (x =? 88) = false) as [-> ->].
    { unfold isDigit in Hx. to_prop. split; apply N.eqb_neq; lia. }
    by rewrite andb_false_r. }
  rewrite Hradix. by rewrite (parseDigits_digits (c :: s) None Hs).
Qed.

(** The date of a well-formed timestamp. *)
Lemma date_of_timestamp (s : jsstring) :
  timestamp_ok s = true ->
  JS.toISOString (JS.Date (JS.mul (JS.parseInt (JS.trim s)) 1000))
  = JS.toISOString (Some (decimal s * 1000)%Z) /\
  exists d, JS.toISOString (Some (decimal s * 1000)%Z) = Normal d.
Proof.
  unfold timestamp_ok. intros H.
  apply andb_true_iff in H as [H Hmax]. apply andb_true_iff in H as [Ht Hd].
  rewrite trim_hex by (revert Hd; apply forallb_impl, digit_hex).
  rewrite (parseInt_digits s Ht Hd). cbn [JS.mul JS.Date].
  pose proof (decimal_nonneg s Hd) as H0. apply Z.leb_le in Hmax.
  destruct (Z.leb_spec (Z.abs (decimal s * 1000)) 8640000000000000);
    [|lia].
  split; [done | by eexists].
Qed.

(** *** Fragments and fields *)

Lemma well_formed_fields (r : LogRecord) :
  well_formed r = true ->
  hex_name (r_hash r) = true /\ hex_name (r_short r) = true /\
  timestamp_ok (r_time r) = true /\ sentinel_free (r_author r) = true /\
  sentinel_free (r_email r) = true /\ sentinel_free (r_subject r) = true /\
  sentinel_free (r_blob r) = true.
Proof. unfold well_formed. intros H. to_prop. done. Qed.

Lemma hex_name_parts (s : jsstring) :
  hex_name s = true ->
  JS.truthy s = true /\ forallb isHexDigit s = true.
Proof. unfold hex_name. intros H. by apply andb_true_iff in H. Qed.

Lemma timestamp_sentinel_free (s : jsstring) :
  timestamp_ok s = true -> sentinel_free s = true.
Proof.
  unfold timestamp_ok. intros H. to_prop. apply hex_sentinel_free.
  eapply forallb_impl; [apply digit_hex | done].
Qed.

(** The seven fields of a well-formed record come apart at the field
    separators. *)
Lemma split_record (r : LogRecord) :
  well_formed r = true ->
  JS.split DELIMITER (render_record r)
  = [r_hash r; r_short r; r_author r; r_email r; r_time r; r_subject r;
     r_blob r].
Proof.
  intros (Hh & Hs & Ht & Ha & He & Hj & Hb)%well_formed_fields.
  apply hex_name_parts in Hh as [_ Hh], Hs as [_ Hs].
  apply hex_sentinel_free, sentinel_free_field in Hh, Hs.
  apply timestamp_sentinel_free, sentinel_free_field in Ht.
  apply sentinel_free_field in Ha, He, Hj, Hb.
  unfold render_record, DELIMITER.
  rewrite !split_piece by done. by rewrite split_whole.
Qed.

Lemma record_free_of_separator (r : LogRecord) :
  well_formed r = true -> 177 ∉ render_record r.
Proof.
  intros (Hh & Hs & Ht & Ha & He & Hj & Hb)%well_formed_fields.
  apply hex_name_parts in Hh as [_ Hh], Hs as [_ Hs].
  apply hex_sentinel_free, sentinel_free_record in Hh, Hs.
  apply timestamp_sentinel_free, sentinel_free_record in Ht.
  apply sentinel_free_record in Ha, He, Hj, Hb.
  unfold render_record, DELIMITER.
  rewrite !not_elem_of_app, !not_elem_of_cons.
  repeat match goal with |- _ /\ _ => split end;
    first [assumption | apply not_elem_of_nil | lia].
Qed.

Lemma record_not_blank (r : LogRecord) :
  well_formed r = true -> JS.truthy (JS.trim (render_record r)) = true.
Proof.
  intros (Hh & _)%well_formed_fields.
  apply hex_name_parts in Hh as [Ht Hh].
  rewrite truthy_trim. unfold render_record.
  destruct (r_hash r) as [|c h]; [done|].
  cbn [forallb] in Hh. apply andb_true_iff in Hh as [Hc _].
  cbn. by rewrite (hex_not_space c Hc).
Qed.

(** The fragments of a well-formed log are its records. *)
Lemma split_records (r : LogRecord) (rs : list LogRecord) :
  forallb well_formed (r :: rs) = true ->
  JS.split COMMIT_DELIMITER (render_record r ++ render_log rs)
  = render_record r :: map render_record rs.
Proof.
  revert r. induction rs as [|r' rs IH]; intros r Hwf;
    cbn [forallb] in Hwf; apply andb_true_iff in Hwf as [Hr Hrs];
    apply record_free_of_separator in Hr.
  - unfold render_log. cbn [map concat]. rewrite app_nil_r.
    unfold COMMIT_DELIMITER. by rewrite split_whole.
  - change (render_log (r' :: rs))
      with ((COMMIT_DELIMITER ++ render_record r') ++ render_log rs).
    rewrite <- (app_assoc COMMIT_DELIMITER).
    unfold COMMIT_DELIMITER at 1 2. rewrite split_piece by done.
    fold COMMIT_DELIMITER. by rewrite IH.
Qed.

Lemma split_log (r : LogRecord) (rs : list LogRecord) :
  forallb well_formed (r :: rs) = true ->
  JS.split COMMIT_DELIMITER (render_log (r :: rs))
  = [] :: render_record r :: map render_record rs.
Proof.
  intros Hwf.
  change (render_log (r :: rs))
    with ((COMMIT_DELIMITER ++ render_record r) ++ render_log rs).
  rewrite <- (app_assoc COMMIT_DELIMITER).
  change (COMMIT_DELIMITER ++ render_record r ++ render_log rs)
    with ([] ++ COMMIT_DELIMITER ++ render_record r ++ render_log rs).
  unfold COMMIT_DELIMITER at 1 2.
  rewrite split_piece by apply not_elem_of_nil.
  fold COMMIT_DELIMITER. by rewrite split_records.
Qed.

Lemma filter_records (rs : list LogRecord) :
  forallb well_formed rs = true ->
  List.filter (fun c => JS.truthy (JS.trim c)) (map render_record rs)
  = map render_record rs.
Proof.
  induction rs as [|r rs IH]; [done|]. cbn [forallb]. intros Hwf.
  apply andb_true_iff in Hwf as [Hr Hrs].
  cbn [map List.filter]. by rewrite (record_not_blank r Hr), IH.
Qed.

(** A well-formed record parses, field for field. *)
Lemma parseCommit_record (file : option jsstring) (r : LogRecord) :
  well_formed r = true ->
  parseCommit file (render_record r) = Normal (parsed_record file r).
Proof.
  intros Hwf. unfold parseCommit. rewrite (split_record r Hwf).
  destruct (well_formed_fields r Hwf) as (Hh & Hs & Ht & _).
  apply hex_name_parts in Hh as [Hh1 Hh2], Hs as [Hs1 Hs2].
  unfold field, field_raw. cbn [lookup list_lookup].
  rewrite Hh1, Hs1, (trim_hex _ Hh2), (trim_hex _ Hs2).
  assert (Htime : (if JS.truthy (r_time r) then JS.trim (r_time r) else [])
                  = JS.trim (r_time r)) by (by destruct (r_time r)).
  rewrite Htime. destruct (date_of_timestamp _ Ht) as [-> _].
  assert (Hblob : (if JS.truthy (r_blob r) then r_blob r else [])
                  = r_blob r) by (by destruct (r_blob r)).
  rewrite Hblob. unfold parsed_record.
  destruct (bodyStatus file (r_blob r)) as [b st]. cbn [cbind JS.toISOString fst snd].
  f_equal. f_equal.
  - by destruct (r_author r).
  - by destruct (r_email r).
  - by destruct (r_subject r).
Qed.

Lemma parsed_record_from (file : option jsstring) (r : LogRecord) :
  parsed_from r (parsed_record file r).
Proof. by repeat split. Qed.

(** From the collected output to the result, for a well-formed log. *)
Lemma gitLog_parse_records (file : option jsstring) (rs : list LogRecord) :
  forallb well_formed rs = true ->
  gitLog_parse file (render_log rs)
  = Normal {| all := map (parsed_record file) rs;
              latest := head (map (parsed_record file) rs);
              total := length rs |}.
Proof.
  intros Hwf. unfold gitLog_parse. destruct rs as [|r rs]; [done|].
  assert (Hsolid : JS.truthy (JS.trim (render_log (r :: rs))) = true).
  { by rewrite truthy_trim. }
  rewrite Hsolid. cbn [negb]. rewrite (split_log r rs Hwf).
  change (render_record r :: map render_record rs)
    with (map render_record (r :: rs)).
  cbn [List.filter]. change (JS.truthy (JS.trim [])) with false. cbn iota.
  rewrite (filter_records _ Hwf).
  rewrite (mapC_map_all _ _ (parsed_record file)).
  - cbn [cbind]. by rewrite length_map.
  - apply List.Forall_forall. intros r' Hr'.
    rewrite forallb_forall in Hwf. by apply parseCommit_record, Hwf.
Qed.

End WellFormed.

(** C5. For a well-formed log text of N records (each a hexadecimal hash
    and short hash, a timestamp in seconds within the range of [Date],
    and fields free of the separators' code units), [gitLog] resolves to
    exactly N records, the i-th built from the i-th record of the text,
    with [latest] the first of them and [total] equal to N. *)
Theorem well_formed_log_parses (w : World) (options : LogOptions)
    (maxCount : Z) (file : option jsstring) (out : ExecResult)
    (rs : list LogRecord) :
  gitLog_options options = Normal (maxCount, file) ->
  snd (gitExec (gitLog_args maxCount file) no_options w) = Normal out ->
  stdout out = render_log rs ->
  forallb well_formed rs = true ->
  exists commits,
    gitLog options w
    = (w, Normal {| all := commits; latest := head commits;
                    total := length rs |}) /\
    length commits = length rs /\
    Forall2 parsed_from rs commits.
Proof.
  intros Ho Hx Hout Hwf. exists (map (parsed_record file) rs).
  split; [|split].
  - unfold gitLog, bind, lift. rewrite Ho, gitExec_world, Hx, Hout.
    by rewrite (gitLog_parse_records file rs Hwf).
  - apply length_map.
  - clear. induction rs as [|r rs IH]; constructor; [|done].
    apply parsed_record_from.
Qed.

Lemma well_formed_log_parses_witness :
  exists c1 c2,
    snd (gitLog (OptObject None (Some Examples.notes)) Examples.w_log)
    = Normal {| all := [c1; c2]; latest := Some c1; total := 2 |} /\
    hash c1 = js "4f2a9c1d" /\ hash c2 = js "0b7e55aa".
Proof.
  destruct (well_formed_log_parses Examples.w_log
              (OptObject None (Some Examples.notes)) 500%Z
              (Some Examples.notes)
              {| stdout := render_log [Examples.rec1; Examples.rec2];
                 stderr := [] |}
              [Examples.rec1; Examples.rec2]
              eq_refl eq_refl eq_refl eq_refl)
    as (commits & Hrun & Hlen & Hall).
  destruct commits as [|c1 [|c2 [|c3 commits]]]; try discriminate Hlen.
  exists c1, c2. rewrite Hrun. split; [reflexivity|].
  apply Forall2_cons_1 in Hall as [H1 Hall].
  apply Forall2_cons_1 in Hall as [H2 _].
  split; [apply H1 | apply H2].
Defined.

(** ** Lines, and the trim of a trim *)

Section LineFacts.

Lemma trimStart_snoc_solid (a : jsstring) (c : N) :
  JS.isWhiteSpace c = false ->
  JS.trimStart (a ++ [c]) = JS.trimStart a ++ [c].
Proof.
  intros Hc. induction a as [|x a IH]; simpl; [by rewrite Hc|].
  by destruct (JS.isWhiteSpace x).
Qed.

Lemma trimEnd_cons_solid (c : N) (t : jsstring) :
  JS.isWhiteSpace c = false -> JS.trimEnd (c :: t) = c :: JS.trimEnd t.
Proof.
  intros Hc. unfold JS.trimEnd. cbn [rev].
  rewrite (trimStart_snoc_solid _ _ Hc). by rewrite rev_unit.
Qed.

Lemma trimStart_head (s : jsstring) :
  match head (JS.trimStart s) with
  | Some c => JS.isWhiteSpace c = false
  | None => True
  end.
Proof.
  induction s as [|c s IH]; simpl; [done|].
  destruct (JS.isWhiteSpace c) eqn:Hc; [done | by simpl].
Qed.

Lemma last_rev (s : jsstring) : last (rev s) = head s.
Proof. destruct s as [|c s]; [done|]. cbn [rev]. apply last_snoc. Qed.

(** [trim] is idempotent. *)
Lemma trim_trim (s : jsstring) : JS.trim (JS.trim s) = JS.trim s.
Proof.
  apply trim_solid.
  - unfold JS.trim. pose proof (trimStart_head s) as Hh.
    destruct (JS.trimStart s) as [|c t]; [done|].
    simpl in Hh. by rewrite (trimEnd_cons_solid c t Hh).
  - unfold JS.trim, JS.trimEnd. rewrite last_rev. apply trimStart_head.
Qed.

(** Splitting at line feeds, the separator being a single code unit. *)
Lemma split_scan_LF (cur : jsstring) (c : N) (s : jsstring) :
  JS.split_scan LF 0 cur (c :: s)
  = if c =? 10 then rev cur :: JS.split_scan LF 0 [] s
    else JS.split_scan LF 0 (c :: cur) s.
Proof.
  cbn [JS.split_scan JS.startsWith LF length Nat.pred].
  rewrite N.eqb_sym. by destruct (c =? 10).
Qed.

Lemma split_scan_LF_snoc (cur b l : jsstring) :
  10 ∉ l ->
  JS.split_scan LF 0 cur (b ++ LF ++ l) = JS.split_scan LF 0 cur b ++ [l].
Proof.
  intros Hl. revert cur. induction b as [|c b IH]; intros cur.
  - change ([] ++ LF ++ l) with (10 :: l). rewrite split_scan_LF.
    cbn [N.eqb Pos.eqb]. unfold LF. by rewrite split_scan_whole.
  - change ((c :: b) ++ LF ++ l) with (c :: (b ++ LF ++ l)).
    rewrite !split_scan_LF. destruct (c =? 10); by rewrite IH.
Qed.

Lemma join_split_scan_LF (cur s : jsstring) :
  JS.join LF (JS.split_scan LF 0 cur s) = rev cur ++ s.
Proof.
  revert cur. induction s as [|c s IH]; intros cur.
  - cbn. by rewrite app_nil_r.
  - rewrite split_scan_LF. destruct (N.eqb_spec c 10) as [->|Hne].
    + pose proof (split_scan_nonempty LF 0 [] s) as Hne.
      pose proof (IH []) as IH0.
      destruct (JS.split_scan LF 0 [] s) as [|x xs]; [done|].
      cbn [JS.join]. cbn [JS.join] in IH0. by rewrite IH0.
    + rewrite IH. cbn [rev]. by rewrite <- app_assoc.
Qed.

(** A reversed text, cut at its first line feed. *)
Lemma cut_at_LF (r : jsstring) :
  ((10 ∉ r) /\ untilLF r = r /\ afterLF r = []) \/
  (r = untilLF r ++ [10] ++ afterLF r /\ (10 ∉ untilLF r)).
Proof.
  induction r as [|c r IH].
  { left. split; [apply not_elem_of_nil | done]. }
  cbn [untilLF afterLF]. destruct (N.eqb_spec c 10) as [->|Hne].
  - right. split; [done | apply not_elem_of_nil].
  - destruct IH as [(Hn & Hu & Ha) | (Hr & Hn)].
    + left. rewrite Hu, Ha. split; [|done].
      apply not_elem_of_cons. split; [congruence | done].
    + right. split.
      * rewrite <- app_comm_cons. f_equal. exact Hr.
      * apply not_elem_of_cons. split; [congruence | done].
Qed.

Lemma not_elem_of_rev (c : N) (s : jsstring) : c ∉ s -> c ∉ rev s.
Proof.
  intros Hs Hin. apply Hs. apply list_elem_of_In, in_rev.
  by apply list_elem_of_In.
Qed.

(** A text is a single line, or its last line preceded by a line feed
    and what comes before. *)
Lemma cut_last_line (t : jsstring) :
  ((10 ∉ t) /\ lastLine t = t /\ beforeLastLine t = []) \/
  (t = beforeLastLine t ++ LF ++ lastLine t /\ (10 ∉ lastLine t)).
Proof.
  unfold lastLine, beforeLastLine.
  destruct (cut_at_LF (rev t)) as [(Hn & Hu & Ha) | (Hr & Hn)].
  - left. rewrite Hu, Ha, rev_involutive. split; [|done].
    rewrite <- (rev_involutive t). by apply not_elem_of_rev.
  - right. split; [|by apply not_elem_of_rev].
    assert (Ht : t = rev (untilLF (rev t) ++ [10] ++ afterLF (rev t))).
    { rewrite <- Hr. symmetry. apply rev_involutive. }
    rewrite !rev_app_distr, <- app_assoc in Ht. exact Ht.
Qed.

Lemma lines_last (t : jsstring) :
  last (JS.split LF t) = Some (lastLine t).
Proof.
  unfold JS.split, LF. fold LF.
  destruct (cut_last_line t) as [(Hn & -> & _) | (Ht & Hn)].
  - unfold LF. by rewrite split_scan_whole.
  - rewrite Ht at 1. rewrite split_scan_LF_snoc by done. apply last_snoc.
Qed.

Lemma lines_before (t : jsstring) :
  JS.join LF (removelast (JS.split LF t)) = beforeLastLine t.
Proof.
  unfold JS.split, LF. fold LF.
  destruct (cut_last_line t) as [(Hn & _ & ->) | (Ht & Hn)].
  - unfold LF. by rewrite split_scan_whole.
  - rewrite Ht at 1. rewrite split_scan_LF_snoc by done.
    rewrite removelast_last. apply join_split_scan_LF.
Qed.

(** Lines 97-105 in terms of the last line of the trimmed blob. *)
Lemma bodyStatus_rule (file blob : jsstring) :
  JS.truthy file = true ->
  match statusPattern (lastLine (JS.trim blob)) with
  | Some st =>
      statusMeaning (snd (bodyStatus (Some file) blob)) = Some st /\
      JS.trim (fst (bodyStatus (Some file) blob))
      = JS.trim (beforeLastLine (JS.trim blob))
  | None =>
      snd (bodyStatus (Some file) blob) = None /\
      JS.trim (fst (bodyStatus (Some file) blob)) = JS.trim blob
  end.
Proof.
  intros Hf. unfold bodyStatus, file_given. rewrite Hf, lines_last.
  rewrite truthy_statusLineRe, lines_before.
  pose proof (statusLineRe_pattern (lastLine (JS.trim blob))) as Hp.
  destruct (JS.statusLineRe _).
  - destruct Hp as [Hm [st Hs]]. rewrite Hs. cbn [fst snd].
    split; [congruence | apply trim_trim].
  - by rewrite Hp.
Qed.

End LineFacts.

(** C4, amended.  With a file filter, for each record the trailing blob
    is trimmed and the last line of the trimmed text is a status line
    exactly when it matches the pattern (a letter from A, M, D followed
    by white space): then the record's status is that letter and its body
    is what comes before that line, trimmed; otherwise the status is
    unknown and the body is the whole trimmed blob. *)
Theorem status_line_rule (w : World) (options : LogOptions) (maxCount : Z)
    (file : jsstring) (out : ExecResult) (r : LogResult Commit)
    (i : nat) (c : Commit) :
  gitLog_options options = Normal (maxCount, Some file) ->
  snd (gitExec (gitLog_args maxCount (Some file)) no_options w)
  = Normal out ->
  snd (gitLog options w) = Normal r ->
  all r !! i = Some c ->
  exists rawCommit,
    List.filter (fun f => JS.truthy (JS.trim f))
                (JS.split COMMIT_DELIMITER (stdout out)) !! i
    = Some rawCommit /\
    match statusPattern (lastLine (JS.trim (trailingBlob rawCommit))) with
    | Some st =>
        statusMeaning (status c) = Some st /\
        body c = JS.trim (beforeLastLine (JS.trim (trailingBlob rawCommit)))
    | None =>
        status c = None /\ body c = JS.trim (trailingBlob rawCommit)
    end.
Proof.
  intros Ho Hx. unfold gitLog, bind, lift.
  rewrite Ho, gitExec_world, Hx. cbn [snd]. unfold gitLog_parse.
  destruct (negb _).
  { intros [= <-] Hc. by destruct i. }
  destruct (mapC _ _) as [commits|e] eqn:Hmap; simpl; [|done].
  intros [= <-] Hc. cbn [all] in Hc.
  apply mapC_Forall2 in Hmap.
  destruct (Forall2_lookup_r _ _ _ _ _ Hmap Hc) as (raw & Hraw & Hparse).
  exists raw. split; [done|].
  destruct (parseCommit_bodyStatus _ _ _ Hparse) as [-> ->].
  destruct (gitLog_options_file _ _ _ Ho) as [|(f & [= <-] & Hf)]; [done|].
  apply (bodyStatus_rule file (trailingBlob raw) Hf).
Qed.

(** The record whose blob ends in the line [M<TAB>notes.txt] is
    Modified, and its body is the text before that line. *)
Lemma status_line_rule_witness :
  exists r c,
    snd (gitLog (OptObject None (Some Examples.notes)) Examples.w_log)
    = Normal r /\
    all r !! 0%nat = Some c /\
    statusMeaning (status c) = Some Modified /\
    body c = js "Dim at night.".
Proof.
  assert (H : exists r c,
    snd (gitLog (OptObject None (Some Examples.notes)) Examples.w_log)
    = Normal r /\ all r !! 0%nat = Some c).
  { vm_compute. do 2 eexists. split; reflexivity. }
  destruct H as (r & c & Hr & Hc). exists r, c.
  split; [exact Hr|]. split; [exact Hc|].
  destruct (status_line_rule Examples.w_log
              (OptObject None (Some Examples.notes)) 500%Z Examples.notes
              {| stdout := render_log [Examples.rec1; Examples.rec2];
                 stderr := [] |} r 0 c eq_refl eq_refl Hr Hc)
    as (raw & Hraw & Hrule).
  vm_compute in Hraw. injection Hraw as <-.
  vm_compute in Hrule. destruct Hrule as [Hs Hb].
  split; [exact Hs | exact Hb].
Defined.

(** C4, as stated, fails: the blob of this record ends in the line [M]
    followed by a space, which is its last non-empty line and matches the
    pattern, so that the specification's rule gives Modified; the parser
    trims the blob first, finds the last line [M], and leaves the status
    unknown and the line in the body. *)
Lemma status_rule_counterexample :
  exists c,
    snd (gitLog (OptObject None (Some Examples.notes)) Examples.w_trailing)
    = Normal {| all := [c]; latest := Some c; total := 1 |} /\
    trailingBlob (render_record Examples.rec_trailing)
    = js "fix" ++ LF ++ js "M " /\
    lastNonEmptyLine (js "fix" ++ LF ++ js "M ") = Some (js "M ") /\
    specStatus (js "fix" ++ LF ++ js "M ") = Modified /\
    status c = None /\
    body c = js "fix" ++ LF ++ js "M".
Proof. vm_compute. eexists. repeat split. Qed.

(** ** getLightweightGitLog: the parents *)

Section Parents.

Lemma join_cons (sep x y : jsstring) (l : list jsstring) :
  JS.join sep (x :: y :: l) = x ++ sep ++ JS.join sep (y :: l).
Proof. reflexivity. Qed.

Lemma parent_name_parts (h : jsstring) :
  parent_name h = true ->
  JS.truthy h = true /\
  forallb (fun c => negb (JS.isWhiteSpace c)) h = true /\
  (32 ∉ h) /\ (167 ∉ h).
Proof.
  unfold parent_name. intros H. apply andb_true_iff in H as [Ht Hs].
  split; [done|]. split; [|split].
  - revert Hs. apply forallb_impl. intros c Hc.
    by apply andb_true_iff in Hc as [? _].
  - apply (forallb_not_elem _ _ _ Hs). done.
  - apply (forallb_not_elem _ _ _ Hs). done.
Qed.

(** The single space cuts a list of names joined by single spaces back
    into the names. *)
Lemma split_join_names (h : jsstring) (hs : list jsstring) :
  forallb parent_name (h :: hs) = true ->
  JS.split SP (JS.join SP (h :: hs)) = h :: hs.
Proof.
  revert h. induction hs as [|h' hs IH]; intros h Hall;
    cbn [forallb] in Hall; apply andb_true_iff in Hall as [Hh Hrest];
    apply parent_name_parts in Hh as (_ & _ & Hsp & _).
  - cbn [JS.join]. unfold SP. by rewrite split_whole.
  - rewrite join_cons. unfold SP at 1 2. rewrite split_piece by done.
    fold SP. by rewrite IH.
Qed.

Lemma join_names_free (hs : list jsstring) :
  forallb parent_name hs = true -> 167 ∉ JS.join SP hs.
Proof.
  induction hs as [|h hs IH]; [intros _; apply not_elem_of_nil|].
  cbn [forallb]. intros Hall. apply andb_true_iff in Hall as [Hh Hrest].
  apply parent_name_parts in Hh as (_ & _ & _ & Hd).
  destruct hs as [|h' hs]; [done|].
  rewrite join_cons, !not_elem_of_app. split; [done|].
  split; [|by apply IH]. unfold SP. rewrite not_elem_of_cons.
  split; [lia | apply not_elem_of_nil].
Qed.

Lemma join_names_solid (h : jsstring) (hs : list jsstring) :
  forallb parent_name (h :: hs) = true ->
  JS.truthy (JS.join SP (h :: hs)) = true /\
  JS.trim (JS.join SP (h :: hs)) = JS.join SP (h :: hs).
Proof.
  intros Hall.
  assert (Hends :
    (exists c, head (JS.join SP (h :: hs)) = Some c /\
               JS.isWhiteSpace c = false) /\
    (exists c, last (JS.join SP (h :: hs)) = Some c /\
               JS.isWhiteSpace c = false)).
  { revert h Hall. induction hs as [|h' hs IH]; intros h Hall;
      cbn [forallb] in Hall; apply andb_true_iff in Hall as [Hh Hrest];
      apply parent_name_parts in Hh as (Ht & Hs & _ & _);
      rewrite forallb_forall in Hs.
    - cbn [JS.join]. destruct h as [|c h]; [done|]. split.
      + exists c. split; [done|]. apply negb_true_iff, Hs. by left.
      + destruct (last (c :: h)) as [d|] eqn:Hl.
        * exists d. split; [done|]. apply negb_true_iff, Hs.
          apply list_elem_of_In. apply last_Some in Hl as [s' ->].
          set_solver.
        * by apply last_None in Hl.
    - destruct (IH h' Hrest) as [_ (d & Hd & Hdw)].
      rewrite join_cons. destruct h as [|c h]; [done|].
      split.
      + exists c. split; [done|]. apply negb_true_iff, Hs. by left.
      + exists d. split; [|done].
        rewrite !last_app. by rewrite Hd. }
  destruct Hends as [(c & Hc & Hcw) (d & Hd & Hdw)]. split.
  - by destruct (JS.join SP (h :: hs)).
  - apply trim_solid; [by rewrite Hc | by rewrite Hd].
Qed.

(** White space is not found inside a name. *)
Lemma tokens_name (h cur s : jsstring) :
  forallb (fun c => negb (JS.isWhiteSpace c)) h = true ->
  tokens cur (h ++ s) = tokens (rev h ++ cur) s.
Proof.
  revert cur. induction h as [|c h IH]; intros cur Hh; [done|].
  cbn [forallb] in Hh. apply andb_true_iff in Hh as [Hc Hh].
  apply negb_true_iff in Hc. cbn [app tokens rev]. rewrite Hc.
  by rewrite IH, <- app_assoc.
Qed.

(** Splitting on white space cuts a list of names joined by single
    spaces back into the names. *)
Lemma tokens_names (hs : list jsstring) :
  forallb parent_name hs = true -> splitOnWhitespace (JS.join SP hs) = hs.
Proof.
  unfold splitOnWhitespace. induction hs as [|h hs IH]; [done|].
  cbn [forallb]. intros Hall. apply andb_true_iff in Hall as [Hh Hrest].
  apply parent_name_parts in Hh as (Ht & Hs & _ & _).
  assert (Htr : JS.truthy (rev h ++ []) = true)
    by (by rewrite app_nil_r, truthy_rev).
  destruct hs as [|h' hs].
  - cbn [JS.join]. rewrite <- (app_nil_r h) at 1.
    rewrite tokens_name by done. cbn [tokens]. rewrite Htr.
    by rewrite app_nil_r, rev_involutive.
  - rewrite join_cons, tokens_name by done. unfold SP at 1.
    cbn [app tokens]. change (JS.isWhiteSpace 32) with true. cbn iota.
    rewrite Htr, app_nil_r, rev_involutive. f_equal. by apply IH.
Qed.

End Parents.

(** C8.  [getLightweightGitLog] splits a record's parent field into the
    parents in the order reported: for a field as the tool prints it,
    parent hashes separated by single spaces, the parents are those
    hashes in that order, which is the field split on white space; an
    empty field yields the empty sequence. *)
Theorem parents_split_on_space (h d m : jsstring) (hs : list jsstring) :
  167 ∉ h ->
  forallb parent_name hs = true ->
  lw_parents (parseLight (render_light h hs d m)) = hs /\
  lw_parents (parseLight (render_light h hs d m))
  = splitOnWhitespace (JS.join SP hs).
Proof.
  intros Hh Hhs. rewrite (tokens_names hs Hhs).
  assert (Hp : lw_parents (parseLight (render_light h hs d m)) = hs);
    [|by split].
  unfold parseLight, render_light, DELIMITER.
  rewrite split_piece by done.
  rewrite split_piece by (by apply join_names_free).
  cbn [lookup list_lookup lw_parents].
  destruct hs as [|p hs]; [done|].
  destruct (join_names_solid p hs Hhs) as [-> ->].
  by apply split_join_names.
Qed.

Lemma parents_split_on_space_witness :
  lw_parents (parseLight (render_light (js "4f2a9c1d")
                            [js "abc123"; js "def456"]
                            (js "2023-11-14T22:13:20+00:00") (js "Merge")))
  = [js "abc123"; js "def456"] /\
  lw_parents (parseLight (render_light (js "0b7e55aa") []
                            (js "2020-09-13T12:26:40+00:00") (js "Root")))
  = [].
Proof.
  split.
  - apply parents_split_on_space; [|reflexivity].
    by apply sentinel_free_field.
  - apply parents_split_on_space; [|reflexivity].
    by apply sentinel_free_field.
Defined.

(** ** gitCheckoutSafe: what a restore leaves alone *)

Section RestoreFrame.

Variable path_join : jsstring -> jsstring -> jsstring.
Variable path_dirname : jsstring -> jsstring.

Local Abbreviation checkout := (gitCheckoutSafe path_join path_dirname).

Lemma same_files_except_refl (p : jsstring) (w : World) :
  same_files_except p w w.
Proof. by intros q _. Qed.

Lemma same_files_except_trans (p : jsstring) (a b c : World) :
  same_files_except p a b -> same_files_except p b c ->
  same_files_except p a c.
Proof. intros Hab Hbc q Hq. by rewrite (Hbc q Hq), (Hab q Hq). Qed.

Lemma readFileSync_world (p : jsstring) (w : World) :
  fst (fs.readFileSync p w) = set_read_faults (tail (read_faults w)) w.
Proof.
  unfold fs.readFileSync.
  destruct (head (read_faults w)) as [[e|]|]; [done| |];
    (destruct (fs.isDirectory w p); [done|]); by destruct (files w !! p).
Qed.

Lemma mkdirSync_world (d : jsstring) (w : World) :
  fst (fs.mkdirSync_recursive path_dirname d w)
  = set_mkdir_faults (tail (mkdir_faults w)) w \/
  fst (fs.mkdirSync_recursive path_dirname d w)
  = set_dirs (dirs w ∪ list_to_set (fs.ancestors path_dirname (length d) d))
      (set_mkdir_faults (tail (mkdir_faults w)) w).
Proof.
  unfold fs.mkdirSync_recursive.
  destruct (existsb _ _); [by left|].
  destruct (head (mkdir_faults w)) as [[e|]|]; auto.
Qed.

Lemma writeFileSync_other (p text q : jsstring) (w : World) :
  q <> p ->
  files (fst (fs.writeFileSync path_dirname p text w)) !! q = files w !! q.
Proof.
  intros Hq. unfold fs.writeFileSync.
  destruct (fs.isDirectory w p); [done|].
  destruct (_ && _); [done|].
  destruct (head (write_faults w)) as [[f|]|]; cbn.
  - destruct (wf_residue f); [by rewrite lookup_insert_ne | done].
  - by rewrite lookup_insert_ne.
  - by rewrite lookup_insert_ne.
Qed.

Lemma writeFileSync_dirs (p text : jsstring) (w : World) :
  dirs (fst (fs.writeFileSync path_dirname p text w)) = dirs w /\
  CONFIG_PATH (fst (fs.writeFileSync path_dirname p text w))
  = CONFIG_PATH w /\
  execFileAsync (fst (fs.writeFileSync path_dirname p text w))
  = execFileAsync w.
Proof.
  unfold fs.writeFileSync.
  destruct (fs.isDirectory w p); [done|].
  destruct (_ && _); [done|].
  by destruct (head (write_faults w)) as [[f|]|].
Qed.

(** X1. A restore reads and writes the target only: whatever the outcome
    of the call, every other file holds afterwards what it held
    before. *)
Theorem restore_touches_target_only (w : World)
    (commitHash filePath root q : jsstring) :
  CONFIG_PATH w = Some root ->
  q <> path_join root filePath ->
  files (fst (checkout commitHash filePath w)) !! q = files w !! q.
Proof.
  intros Hroot Hq.
  unfold gitCheckoutSafe, bind at 1. unfold fullPathOf. rewrite Hroot.
  refine (keeps_restore (same_files_except (path_join root filePath))
            (same_files_except_refl _) (same_files_except_trans _)
            path_dirname commitHash filePath _ _ _ _ _ _ w q Hq).
  - intros w0 q0 _. by rewrite readFileSync_world.
  - intros w0. apply same_files_except_refl.
  - intros w0 q0 _.
    by destruct (mkdirSync_world (path_dirname (path_join root filePath)) w0)
      as [-> | ->].
  - intros text w0 q0 Hq0. by apply writeFileSync_other.
  - by intros line w0 q0 _.
Qed.

End RestoreFrame.

Lemma restore_touches_target_only_witness :
  files (fst (gitCheckoutSafe posix.join posix.dirname Examples.rev1
                Examples.notes Samples.w_two)) !! js "/config/other.yaml"
  = Some (js "O") /\
  files (fst (gitCheckoutSafe posix.join posix.dirname Examples.rev1
                Examples.notes Samples.w_two)) !! Examples.notes_path
  = Some [].
Proof.
  split; [|vm_compute; reflexivity].
  rewrite (restore_touches_target_only posix.join posix.dirname
             Samples.w_two Examples.rev1
             Examples.notes Examples.config (js "/config/other.yaml")
             eq_refl).
  - reflexivity.
  - vm_compute. discriminate.
Defined.


(** ** gitCheckoutSafe: directories, and the outcomes case by case *)

Section RestoreCases.

Variable path_join : jsstring -> jsstring -> jsstring.
Variable path_dirname : jsstring -> jsstring.

Local Abbreviation checkout := (gitCheckoutSafe path_join path_dirname).
Local Abbreviation attempt := (restoreAttempt path_dirname).

Lemma dirs_grow_within_refl (made : list jsstring) (w w' : World) :
  dirs w' = dirs w -> dirs_grow_within made w w'.
Proof.
  intros H. unfold dirs_grow_within. rewrite H.
  split; [done | apply union_subseteq_l].
Qed.

(** X2. A restore removes no directory, and the only directories it may
    create are the parent directory of the target and the directories
    above it. *)
Theorem restore_creates_only_ancestors (w : World)
    (commitHash filePath root : jsstring) :
  CONFIG_PATH w = Some root ->
  dirs_grow_within
    (fs.ancestors path_dirname
       (length (path_dirname (path_join root filePath)))
       (path_dirname (path_join root filePath)))
    w (fst (checkout commitHash filePath w)).
Proof.
  intros Hroot.
  unfold gitCheckoutSafe, bind at 1. unfold fullPathOf. rewrite Hroot.
  set (made := fs.ancestors _ _ _).
  refine (keeps_restore (dirs_grow_within made) _ _
            path_dirname commitHash filePath _ _ _ _ _ _ w).
  - intros w0. by apply dirs_grow_within_refl.
  - intros a b c [H1 H2] [H3 H4]. split.
    + by transitivity (dirs b).
    + intros d Hd. apply H4 in Hd. apply elem_of_union in Hd as [Hd|Hd].
      * by apply H2.
      * apply elem_of_union. by right.
  - intros w0. rewrite readFileSync_world. by apply dirs_grow_within_refl.
  - intros w0. by apply dirs_grow_within_refl.
  - intros w0.
    destruct (mkdirSync_world path_dirname
                (path_dirname (path_join root filePath)) w0) as [-> | ->];
      [by apply dirs_grow_within_refl|].
    split; cbn; fold made.
    + apply union_subseteq_l.
    + done.
  - intros text w0.
    destruct (writeFileSync_dirs path_dirname (path_join root filePath)
                text w0)
      as (Hd & _).
    split; rewrite Hd; [done | apply union_subseteq_l].
  - intros line w0. by apply dirs_grow_within_refl.
Qed.

(** A restore changes neither the root directory nor the tool. *)
Lemma restore_same_tool (w : World) (commitHash filePath : jsstring) :
  same_tool w (fst (checkout commitHash filePath w)).
Proof.
  unfold gitCheckoutSafe, bind at 1. unfold fullPathOf.
  destruct (CONFIG_PATH w) as [root|] eqn:Hroot; [|done].
  refine (keeps_restore same_tool _ _
            path_dirname commitHash filePath _ _ _ _ _ _ w).
  - by intros w0.
  - intros a b c [H1 H2] [H3 H4]. split; congruence.
  - intros w0. by rewrite readFileSync_world.
  - by intros w0.
  - intros w0.
    by destruct (mkdirSync_world path_dirname
                   (path_dirname (path_join root filePath)) w0)
      as [-> | ->].
  - intros text w0.
    by destruct (writeFileSync_dirs path_dirname (path_join root filePath)
                text w0)
      as (_ & ? & ?).
  - by intros line w0.
Qed.

(** Once the primary attempt has failed, the call fails with its
    error. *)
Lemma handler_raises (filePath fullPath : jsstring)
    (backup : option jsstring) (e : JsError) (line : jsstring) (w : World) :
  snd ((console_error line ;;
        rollback path_dirname filePath fullPath backup ;;
        @throw unit e) w)
  = Throw e.
Proof.
  unfold bind, console_error, throw.
  destruct backup as [b|]; cbn [rollback ret]; [|done].
  unfold try_catch, bind, console_error.
  by destruct (fs.writeFileSync _ _ _ _) as [w' [[]|e']].
Qed.

(** What a successful attempt has done. *)
(** What a successful write has done. *)
Lemma writeFileSync_normal_inv (p text : jsstring) (w w' : World) :
  fs.writeFileSync path_dirname p text w = (w', Normal tt) ->
  files w' !! p = Some (Utf8.encode text) /\ console w' = console w.
Proof.
  unfold fs.writeFileSync.
  destruct (fs.isDirectory w p); [done|].
  destruct (_ && _); [done|].
  destruct (head (write_faults w)) as [[f|]|]; [done| |];
    intros [= <-]; cbn; (split; [apply lookup_insert_eq | done]).
Qed.

Lemma attempt_normal_inv (commitHash filePath fullPath : jsstring)
    (w w' : World) :
  attempt commitHash filePath fullPath w = (w', Normal tt) ->
  exists out,
    snd (gitExec [js "show"; commitHash ++ js ":" ++ filePath] no_options w)
    = Normal out /\
    files w' !! fullPath = Some (Utf8.encode (stdout out)) /\
    console w' = console w.
Proof.
  unfold restoreAttempt, bind. rewrite gitExec_world.
  destruct (snd (gitExec _ _ w)) as [out|e]; [|done].
  unfold fs.existsSync.
  destruct (negb _).
  - destruct (mkdirSync_world path_dirname (path_dirname fullPath) w)
      as [Hw1|Hw1];
      (destruct (fs.mkdirSync_recursive _ _ w) as [w1 [[]|e]]; [|done]);
      cbn [fst] in Hw1; subst w1; intros Hwr;
      apply writeFileSync_normal_inv in Hwr as [Hf Hc];
      exists out; by cbn in Hc.
  - unfold ret. intros Hwr.
    apply writeFileSync_normal_inv in Hwr as [Hf Hc]. by exists out.
Qed.

(** X3. If a restore returns, the target file holds exactly the text
    that [gitShowFileAtCommit] yields for the same commit and path,
    encoded as UTF-8, and nothing has been written to the console. *)
Theorem restore_agrees_with_show (w w' : World)
    (commitHash filePath root : jsstring) :
  CONFIG_PATH w = Some root ->
  checkout commitHash filePath w = (w', Normal tt) ->
  exists text,
    gitShowFileAtCommit commitHash filePath w' = (w', Normal text) /\
    files w' !! path_join root filePath = Some (Utf8.encode text) /\
    console w' = console w.
Proof.
  intros Hroot Hrun.
  pose proof (restore_same_tool w commitHash filePath) as [Hc He].
  rewrite Hrun in Hc, He. cbn [fst] in Hc, He.
  revert Hrun.
  unfold gitCheckoutSafe, bind at 1. unfold fullPathOf. rewrite Hroot.
  unfold bind at 1. rewrite readBackup_run.
  set (w1 := set_read_faults (tail (read_faults w)) w).
  unfold try_catch at 1.
  destruct (attempt commitHash filePath (path_join root filePath) w1)
    as [w2 [[]|e]] eqn:Hatt.
  - intros [= <-].
    destruct (attempt_normal_inv _ _ _ _ _ Hatt) as (out & Hx & Hf & Hcon).
    exists (stdout out). split; [|done].
    unfold gitShowFileAtCommit, bind, ret. rewrite gitExec_world.
    rewrite (gitExec_same _ _ w1 w2 Hc He).
    by rewrite Hx.
  - intros Hrun. apply (f_equal snd) in Hrun. cbn [snd] in Hrun.
    by rewrite handler_raises in Hrun.
Qed.

(** X4. Whenever a backup was taken, the primary restore fails (at the
    fetch, the directory creation or the write) and the write of the
    backup is not failed, the call raises the primary error and the
    target holds the backup text again, encoded as UTF-8. *)
Theorem primary_failure_rolls_back (w w1 w2 : World)
    (commitHash filePath root text : jsstring) (e : JsError) :
  CONFIG_PATH w = Some root ->
  readBackup (path_join root filePath) w = (w1, Normal (Some text)) ->
  attempt commitHash filePath (path_join root filePath) w1
  = (w2, Throw e) ->
  unfaulted (write_faults w2) = true ->
  exists w',
    checkout commitHash filePath w = (w', Throw e) /\
    files w' !! path_join root filePath = Some (Utf8.encode text).
Proof.
  intros Hroot Hback Hatt Hw.
  unfold gitCheckoutSafe, bind at 1. unfold fullPathOf. rewrite Hroot.
  unfold bind at 1. rewrite Hback. unfold try_catch at 1. rewrite Hatt.
  apply readBackup_taken in Hback as (-> & Hd & Hf).
  pose proof (attempt_stays_file path_dirname commitHash filePath
                (path_join root filePath)
                (set_read_faults (tail (read_faults w)) w)
                (conj Hd Hf)) as [Hd2 Hf2].
  rewrite Hatt in Hd2, Hf2. cbn [fst] in Hd2, Hf2.
  unfold bind, console_error, throw. cbn [rollback].
  unfold try_catch, bind.
  rewrite writeFileSync_ok by auto. unfold console_error.
  eexists. split; [done|]. cbn. apply lookup_insert_eq.
Qed.

(** X5. When the target cannot be read (it does not exist) and the
    fetch fails, nothing is written: files, directories and the write
    schedule are as before, one line is logged and the fetch's error is
    raised. *)
Theorem nothing_to_roll_back (w : World)
    (commitHash filePath root : jsstring) (e : JsError) :
  CONFIG_PATH w = Some root ->
  files w !! path_join root filePath = None ->
  snd (gitExec [js "show"; commitHash ++ js ":" ++ filePath] no_options w)
  = Throw e ->
  exists w',
    checkout commitHash filePath w = (w', Throw e) /\
    files w' = files w /\ dirs w' = dirs w /\
    write_faults w' = write_faults w /\
    console w'
    = console w ++ [js "[git] Restore failed for " ++ filePath ++
                    js ": " ++ err_message e].
Proof.
  intros Hroot Hfile He.
  unfold gitCheckoutSafe, bind at 1. unfold fullPathOf. rewrite Hroot.
  unfold bind at 1. rewrite readBackup_run, Hfile.
  set (w1 := set_read_faults (tail (read_faults w)) w).
  unfold try_catch at 1.
  rewrite (attempt_fetch_fails path_dirname commitHash filePath _ w1 e)
    by (by rewrite (gitExec_same _ _ w w1)).
  assert (Hnone : match head (read_faults w) with
                  | Some (Some _) => None
                  | _ => if fs.isDirectory w (path_join root filePath)
                         then None else Utf8.decode <$> None
                  end = None)
    by (destruct (head (read_faults w)) as [[?|]|]; [done| |];
        by destruct (fs.isDirectory w _)).
  rewrite Hnone. unfold bind, console_error, throw. cbn [rollback ret].
  eexists. split; [done|]. done.
Qed.


End RestoreCases.

Section RestoreCaseRuns.
Import Examples.

Local Abbreviation restore := (gitCheckoutSafe posix.join posix.dirname).

Lemma restore_creates_only_ancestors_witness :
  dirs_grow_within
    [js "/config/packages/lights"; js "/config/packages"; js "/config";
     js "/"]
    w_none (fst (restore rev1 deep w_none)).
Proof.
  exact (restore_creates_only_ancestors posix.join posix.dirname w_none
           rev1 deep config eq_refl).
Defined.

Lemma restore_agrees_with_show_witness :
  exists text,
    gitShowFileAtCommit rev1 notes (fst (restore rev1 notes w_AB))
    = (fst (restore rev1 notes w_AB), Normal text) /\
    files (fst (restore rev1 notes w_AB)) !! notes_path
    = Some (Utf8.encode text) /\
    console (fst (restore rev1 notes w_AB)) = [].
Proof.
  assert (Hrun : restore rev1 notes w_AB
                 = (fst (restore rev1 notes w_AB), Normal tt))
    by (vm_compute; reflexivity).
  exact (restore_agrees_with_show posix.join posix.dirname w_AB _ rev1
           notes config eq_refl Hrun).
Defined.

Lemma primary_failure_rolls_back_witness :
  exists w',
    restore rev1 notes w_once = (w', Throw (wf_error disk_full)) /\
    files w' !! notes_path = Some (js "A").
Proof.
  assert (Hatt :
    restoreAttempt posix.dirname rev1 notes notes_path
      (set_read_faults [] w_once)
    = (fst (restoreAttempt posix.dirname rev1 notes notes_path
              (set_read_faults [] w_once)), Throw (wf_error disk_full)))
    by (vm_compute; reflexivity).
  exact (primary_failure_rolls_back posix.join posix.dirname w_once _ _
           rev1 notes config (js "A") (wf_error disk_full) eq_refl
           (readBackup_run notes_path w_once) Hatt eq_refl).
Defined.

Lemma nothing_to_roll_back_witness :
  exists w',
    restore (js "0000000") notes w_norepo = (w', Throw command_failed) /\
    files w' = files w_norepo /\ dirs w' = dirs w_norepo /\
    write_faults w' = write_faults w_norepo /\
    console w'
    = console w_norepo ++
      [js "[git] Restore failed for " ++ notes ++ js ": " ++
       err_message command_failed].
Proof.
  exact (nothing_to_roll_back posix.join posix.dirname w_norepo
           (js "0000000") notes config command_failed
           eq_refl eq_refl eq_refl).
Defined.


End RestoreCaseRuns.

(** ** gitLog: every output *)

Section LogEvery.

Lemma mapC_length {A B} (f : A -> Completion B) (l : list A) (ys : list B) :
  mapC f l = Normal ys -> length ys = length l.
Proof.
  intros H. apply mapC_Forall2 in H. symmetry.
  by apply Forall2_length in H.
Qed.

(** [mapC] fails exactly when the callback fails on some element, and
    then with an error of the callback. *)
Lemma mapC_throw {A B} (f : A -> Completion B) (l : list A) (e : JsError) :
  mapC f l = Throw e -> exists x, x ∈ l /\ f x = Throw e.
Proof.
  induction l as [|x l IH]; simpl; [done|].
  destruct (f x) as [y|e'] eqn:Hx; simpl.
  - destruct (mapC f l) as [ys|e'] eqn:Hl; simpl; [done|].
    intros [= ->]. destruct (IH eq_refl) as (x' & Hin & Hx').
    exists x'. split; [by right | done].
  - intros [= ->]. exists x. split; [by left | done].
Qed.

Lemma mapC_normal {A B} (f : A -> Completion B) (l : list A) :
  Forall (fun x => exists y, f x = Normal y) l ->
  exists ys, mapC f l = Normal ys.
Proof.
  induction 1 as [|x l [y Hy] _ [ys IH]]; simpl; [by eexists|].
  rewrite Hy, IH. by eexists.
Qed.

(** The callback raises exactly on a fragment without a valid time. *)
Lemma parseCommit_outcome (file : option jsstring) (rawCommit : jsstring) :
  match fragmentTime rawCommit with
  | Some tv =>
      exists c, parseCommit file rawCommit = Normal c /\
                date c = JS.isoFormat tv
  | None => parseCommit file rawCommit = Throw JS.invalid_time
  end.
Proof.
  unfold fragmentTime, parseCommit.
  destruct (bodyStatus _ _) as [b st].
  destruct (JS.Date _) as [tv|]; cbn [JS.toISOString cbind]; [|done].
  by eexists.
Qed.

(** A blank output has no fragments. *)
Lemma fragments_blank (stdout : jsstring) :
  blank stdout = true -> fragments stdout = [].
Proof.
  intros Hb. unfold fragments, COMMIT_DELIMITER.
  rewrite split_whole.
  - cbn [List.filter]. by rewrite truthy_trim, Hb.
  - by apply (forallb_not_elem _ _ _ Hb).
Qed.

(** The parser on any output, in terms of its fragments. *)
Lemma gitLog_parse_fragments (file : option jsstring) (stdout : jsstring) :
  gitLog_parse file stdout
  = cbind (mapC (parseCommit file) (fragments stdout)) (fun commits =>
      Normal {| all := commits; latest := head commits;
                total := length commits |}).
Proof.
  unfold gitLog_parse. rewrite truthy_trim, negb_involutive.
  destruct (blank stdout) eqn:Hb; [|done].
  by rewrite (fragments_blank _ Hb).
Qed.

Lemma gitLog_run (w : World) (options : LogOptions) (maxCount : Z)
    (file : option jsstring) (out : ExecResult) :
  gitLog_options options = Normal (maxCount, file) ->
  snd (gitExec (gitLog_args maxCount file) no_options w) = Normal out ->
  gitLog options w = (w, gitLog_parse file (stdout out)).
Proof.
  intros Ho Hx. unfold gitLog, bind, lift.
  by rewrite Ho, gitExec_world, Hx.
Qed.

(** X7. Whatever the tool printed, a result of [gitLog] has one record
    per non-blank fragment between record separators, [total] is the
    number of records and [latest] is the first of them. *)
Theorem gitLog_counts_fragments (w : World) (options : LogOptions)
    (maxCount : Z) (file : option jsstring) (out : ExecResult)
    (r : LogResult Commit) :
  gitLog_options options = Normal (maxCount, file) ->
  snd (gitExec (gitLog_args maxCount file) no_options w) = Normal out ->
  snd (gitLog options w) = Normal r ->
  length (all r) = length (fragments (stdout out)) /\
  total r = length (all r) /\
  latest r = head (all r).
Proof.
  intros Ho Hx. rewrite (gitLog_run w options maxCount file out Ho Hx).
  cbn [snd]. rewrite gitLog_parse_fragments.
  destruct (mapC _ _) as [commits|e] eqn:Hmap; simpl; [|done].
  intros [= <-]. cbn. split; [|done]. by apply mapC_length in Hmap.
Qed.

(** X8. The only exception the parser of [gitLog] raises is the
    [RangeError] "Invalid time value", and it raises it exactly when
    some non-blank fragment has a fifth field that [parseInt] and [Date]
    do not turn into a valid time. *)
Theorem gitLog_raises_only_invalid_time (w : World) (options : LogOptions)
    (maxCount : Z) (file : option jsstring) (out : ExecResult) :
  gitLog_options options = Normal (maxCount, file) ->
  snd (gitExec (gitLog_args maxCount file) no_options w) = Normal out ->
  (forall e, snd (gitLog options w) = Throw e -> e = JS.invalid_time) /\
  (snd (gitLog options w) = Throw JS.invalid_time <->
   exists rawCommit,
     rawCommit ∈ fragments (stdout out) /\ fragmentTime rawCommit = None).
Proof.
  intros Ho Hx. rewrite (gitLog_run w options maxCount file out Ho Hx).
  cbn [snd]. rewrite gitLog_parse_fragments.
  assert (Hthrow : forall e,
    cbind (mapC (parseCommit file) (fragments (stdout out)))
      (fun commits => Normal {| all := commits; latest := head commits;
                                total := length commits |}) = Throw e ->
    e = JS.invalid_time /\
    exists raw, raw ∈ fragments (stdout out) /\ fragmentTime raw = None).
  { intros e. destruct (mapC _ _) as [commits|e'] eqn:Hmap; simpl; [done|].
    intros [= ->]. apply mapC_throw in Hmap as (raw & Hin & Hraw).
    pose proof (parseCommit_outcome file raw) as Hp.
    destruct (fragmentTime raw) as [tv|] eqn:Ht.
    - destruct Hp as (c & Hc & _). congruence.
    - split; [congruence | eauto]. }
  split; [intros e He; by apply Hthrow|].
  split; [intros He; by apply (Hthrow _ He)|].
  intros (raw & Hin & Hraw).
  destruct (mapC _ _) as [commits|e'] eqn:Hmap; simpl.
  - apply mapC_Forall2 in Hmap.
    apply list_elem_of_lookup in Hin as [i Hi].
    destruct (Forall2_lookup_l _ _ _ _ _ Hmap Hi) as (c & _ & Hc).
    pose proof (parseCommit_outcome file raw) as Hp.
    rewrite Hraw in Hp. congruence.
  - apply mapC_throw in Hmap as (raw' & _ & Hraw').
    pose proof (parseCommit_outcome file raw') as Hp.
    destruct (fragmentTime raw') as [tv|]; [|congruence].
    destruct Hp as (c & Hc & _). congruence.
Qed.

End LogEvery.

Lemma gitLog_counts_fragments_witness :
  exists r,
    snd (gitLog (OptObject None None) Examples.w_log) = Normal r /\
    length (all r) = 2%nat /\ total r = 2%nat /\ latest r = head (all r).
Proof.
  assert (H : exists r,
    snd (gitLog (OptObject None None) Examples.w_log) = Normal r).
  { vm_compute. eexists. reflexivity. }
  destruct H as (r & Hr). exists r. split; [exact Hr|].
  destruct (gitLog_counts_fragments Examples.w_log (OptObject None None)
              500%Z None
              {| stdout := render_log [Examples.rec1; Examples.rec2];
                 stderr := [] |} r eq_refl eq_refl Hr)
    as (Hlen & Htot & Hlat).
  split; [exact Hlen|]. split; [by rewrite Htot | exact Hlat].
Defined.

Lemma gitLog_raises_only_invalid_time_witness :
  exists rawCommit,
    rawCommit ∈ fragments Examples.split_subject /\
    fragmentTime rawCommit = None.
Proof.
  apply (proj1 (proj2 (gitLog_raises_only_invalid_time Examples.w_split
                         (OptObject None None) 500%Z None
                         {| stdout := Examples.split_subject; stderr := [] |}
                         eq_refl eq_refl))).
  vm_compute. reflexivity.
Defined.

(** ** gitLog: the fields of a record *)

Section LogFields.

Lemma field_trimmed (parts : list jsstring) (i : nat) :
  JS.trim (field parts i) = field parts i.
Proof.
  unfold field. destruct (parts !! i) as [p|]; [|done].
  destruct (JS.truthy p); [apply trim_trim | done].
Qed.

Lemma field_lookup (parts : list jsstring) (i : nat) (p : jsstring) :
  parts !! i = Some p -> field parts i = JS.trim p.
Proof. unfold field. intros ->. by destruct p. Qed.

Lemma field_raw_lookup (parts : list jsstring) (i : nat) (p : jsstring) :
  parts !! i = Some p -> field_raw parts i = p.
Proof. unfold field_raw. intros ->. by destruct p. Qed.

(** The fields of a parsed record are free of surrounding white space. *)
Lemma parseCommit_trimmed (file : option jsstring) (rawCommit : jsstring)
    (c : Commit) :
  parseCommit file rawCommit = Normal c ->
  JS.trim (hash c) = hash c /\ JS.trim (short c) = short c /\
  JS.trim (authorName c) = authorName c /\
  JS.trim (authorEmail c) = authorEmail c /\
  JS.trim (message c) = message c /\ JS.trim (body c) = body c.
Proof.
  unfold parseCommit. destruct (bodyStatus _ _) as [b st].
  destruct (JS.toISOString _) as [d|e]; cbn [cbind]; [|done].
  intros [= <-]. cbn [hash short authorName authorEmail message body].
  by rewrite !field_trimmed, trim_trim.
Qed.

(** The date of a parsed record is the ISO form of a whole number of
    seconds. *)
Lemma parseCommit_date (file : option jsstring) (rawCommit : jsstring)
    (c : Commit) :
  parseCommit file rawCommit = Normal c ->
  exists seconds : Z, date c = JS.isoFormat (seconds * 1000).
Proof.
  intros Hc. pose proof (parseCommit_outcome file rawCommit) as Hp.
  unfold fragmentTime in Hp.
  destruct (JS.parseInt _) as [|z]; cbn [JS.mul JS.Date] in Hp;
    [congruence|].
  destruct (Z.abs (z * 1000) <=? 8640000000000000)%Z; [|congruence].
  destruct Hp as (c' & Hc' & Hd). exists z. congruence.
Qed.

Lemma isoFormat_whole_second (seconds : Z) :
  exists prefix, JS.isoFormat (seconds * 1000) = prefix ++ js ".000Z".
Proof.
  unfold JS.isoFormat. destruct (JS.civil _) as [[y m] dd].
  assert (Hms : ((seconds * 1000) mod 86400000 mod 1000 = 0)%Z).
  { rewrite (Z.mod_eq (seconds * 1000) 86400000) by lia.
    replace (seconds * 1000
             - 86400000 * (seconds * 1000 / 86400000))%Z
      with ((seconds - 86400 * (seconds * 1000 / 86400000)) * 1000)%Z
      by lia.
    apply Z.mod_mul. lia. }
  rewrite Hms.
  eexists (JS.isoYear y ++ js "-" ++ JS.pad 2 m ++ js "-" ++ JS.pad 2 dd ++
           js "T" ++ JS.pad 2 _ ++ js ":" ++ JS.pad 2 _ ++ js ":" ++
           JS.pad 2 _).
  change (js ".000Z") with (js "." ++ JS.pad 3 0 ++ js "Z").
  by rewrite <- !app_assoc.
Qed.

End LogFields.

(** X9. In every record [gitLog] returns, the hash, the short hash, the
    author's name and email, the message and the body are free of
    surrounding white space: each is its own trim. *)
Theorem gitLog_fields_trimmed (w : World) (options : LogOptions)
    (r : LogResult Commit) (c : Commit) :
  snd (gitLog options w) = Normal r ->
  c ∈ all r ->
  JS.trim (hash c) = hash c /\ JS.trim (short c) = short c /\
  JS.trim (authorName c) = authorName c /\
  JS.trim (authorEmail c) = authorEmail c /\
  JS.trim (message c) = message c /\ JS.trim (body c) = body c.
Proof.
  unfold gitLog, bind, lift.
  destruct (gitLog_options options) as [[maxCount file]|e]; [|done].
  rewrite gitExec_world.
  destruct (snd (gitExec _ _ _)) as [out|e]; [|done].
  cbn [snd]. rewrite gitLog_parse_fragments.
  destruct (mapC _ _) as [commits|e] eqn:Hmap; simpl; [|done].
  intros [= <-] Hc. cbn [all] in Hc.
  apply mapC_Forall2 in Hmap.
  apply list_elem_of_lookup in Hc as [i Hi].
  destruct (Forall2_lookup_r _ _ _ _ _ Hmap Hi) as (raw & _ & Hraw).
  by apply (parseCommit_trimmed file raw).
Qed.

(** X12. The date of every record [gitLog] returns is the ISO 8601 form
    of a whole number of seconds: it ends in [.000Z]. *)
Theorem gitLog_dates_whole_seconds (w : World) (options : LogOptions)
    (r : LogResult Commit) (c : Commit) :
  snd (gitLog options w) = Normal r ->
  c ∈ all r ->
  exists prefix, date c = prefix ++ js ".000Z".
Proof.
  unfold gitLog, bind, lift.
  destruct (gitLog_options options) as [[maxCount file]|e]; [|done].
  rewrite gitExec_world.
  destruct (snd (gitExec _ _ _)) as [out|e]; [|done].
  cbn [snd]. rewrite gitLog_parse_fragments.
  destruct (mapC _ _) as [commits|e] eqn:Hmap; simpl; [|done].
  intros [= <-] Hc. cbn [all] in Hc.
  apply mapC_Forall2 in Hmap.
  apply list_elem_of_lookup in Hc as [i Hi].
  destruct (Forall2_lookup_r _ _ _ _ _ Hmap Hi) as (raw & _ & Hraw).
  destruct (parseCommit_date file raw c Hraw) as (z & ->).
  apply isoFormat_whole_second.
Qed.

Lemma gitLog_fields_trimmed_witness :
  exists r c,
    snd (gitLog (OptObject None None) Examples.w_log) = Normal r /\
    head (all r) = Some c /\
    JS.trim (message c) = message c /\ JS.trim (body c) = body c.
Proof.
  assert (H : exists r c rest,
    snd (gitLog (OptObject None None) Examples.w_log) = Normal r /\
    all r = c :: rest).
  { vm_compute. do 3 eexists. split; reflexivity. }
  destruct H as (r & c & rest & Hr & Hall).
  exists r, c. split; [exact Hr|]. split; [by rewrite Hall|].
  destruct (gitLog_fields_trimmed Examples.w_log (OptObject None None) r c Hr)
    as (_ & _ & _ & _ & Hm & Hb).
  - rewrite Hall. left.
  - split; [exact Hm | exact Hb].
Defined.

Lemma gitLog_dates_whole_seconds_witness :
  exists r c prefix,
    snd (gitLog (OptObject None None) Examples.w_log) = Normal r /\
    head (all r) = Some c /\
    date c = prefix ++ js ".000Z".
Proof.
  assert (H : exists r c rest,
    snd (gitLog (OptObject None None) Examples.w_log) = Normal r /\
    all r = c :: rest).
  { vm_compute. do 3 eexists. split; reflexivity. }
  destruct H as (r & c & rest & Hr & Hall).
  destruct (gitLog_dates_whole_seconds Examples.w_log (OptObject None None)
              r c Hr) as (prefix & Hd).
  - rewrite Hall. left.
  - exists r, c, prefix. split; [exact Hr|]. split; [by rewrite Hall|].
    exact Hd.
Defined.

(** ** gitLog: short and long fragments *)

Section LogDegrade.

(** X10. A fragment that stops after the timestamp, or after the
    subject, parses without raising when its timestamp is valid: the
    callback returns a record whose present fields are trimmed, whose
    missing subject and body are the empty string and whose status is
    unknown. *)
Theorem missing_text_fields_are_empty (file : option jsstring)
    (h s a e t : jsstring) (subject : option jsstring) :
  167 ∉ h -> 167 ∉ s -> 167 ∉ a -> 167 ∉ e ->
  timestamp_ok t = true ->
  match subject with Some m => 167 ∉ m | None => True end ->
  exists c,
    parseCommit file
      (h ++ DELIMITER ++ s ++ DELIMITER ++ a ++ DELIMITER ++ e ++
       DELIMITER ++ t ++
       match subject with Some m => DELIMITER ++ m | None => [] end)
    = Normal c /\
    hash c = JS.trim h /\ short c = JS.trim s /\
    authorName c = JS.trim a /\ authorEmail c = JS.trim e /\
    date c = JS.isoFormat (decimal t * 1000) /\
    message c = match subject with Some m => JS.trim m | None => [] end /\
    body c = [] /\ status c = None.
Proof.
  intros Hh Hs Ha He Ht Hm.
  pose proof (sentinel_free_field _ (timestamp_sentinel_free _ Ht)) as Ht'.
  assert (Hparts : exists parts,
    JS.split DELIMITER
      (h ++ DELIMITER ++ s ++ DELIMITER ++ a ++ DELIMITER ++ e ++
       DELIMITER ++ t ++
       match subject with Some m => DELIMITER ++ m | None => [] end)
    = parts /\
    parts !! 0%nat = Some h /\ parts !! 1%nat = Some s /\
    parts !! 2%nat = Some a /\ parts !! 3%nat = Some e /\
    parts !! 4%nat = Some t /\ parts !! 5%nat = subject /\
    parts !! 6%nat = None).
  { unfold DELIMITER. rewrite !split_piece by done.
    destruct subject as [m|].
    - rewrite split_piece, split_whole by done. by eexists.
    - rewrite app_nil_r, split_whole by done. by eexists. }
  unfold parseCommit.
  destruct Hparts as (parts & -> & H0 & H1 & H2 & H3 & H4 & H5 & H6).
  rewrite (field_lookup _ _ _ H0), (field_lookup _ _ _ H1),
    (field_lookup _ _ _ H2), (field_lookup _ _ _ H3),
    (field_lookup _ _ _ H4).
  destruct (date_of_timestamp _ Ht) as [-> _].
  assert (Hblob : field_raw parts 6 = []) by (unfold field_raw; by rewrite H6).
  rewrite Hblob.
  assert (Hbs : bodyStatus file [] = ([], None)).
  { unfold bodyStatus. by destruct (file_given file). }
  rewrite Hbs. cbn [JS.toISOString cbind]. eexists. split; [reflexivity|].
  cbn [hash short authorName authorEmail date message body status].
  repeat split; try done.
  unfold field. rewrite H5. destruct subject as [m|]; [|done].
  by destruct m.
Qed.

Lemma missing_text_fields_are_empty_witness :
  exists c,
    parseCommit (Some Examples.notes)
      (js "4f2a9c1d" ++ DELIMITER ++ js "4f2a9c1" ++ DELIMITER ++ js "Ann" ++
       DELIMITER ++ js "ann@example.org" ++ DELIMITER ++ js "1700000000" ++
       [])
    = Normal c /\
    message c = [] /\ body c = [] /\ status c = None.
Proof.
  assert (Hfree : forall x, sentinel_free x = true -> 167 ∉ x)
    by apply sentinel_free_field.
  destruct (missing_text_fields_are_empty (Some Examples.notes)
              (js "4f2a9c1d") (js "4f2a9c1") (js "Ann")
              (js "ann@example.org") (js "1700000000") None
              (Hfree (js "4f2a9c1d") eq_refl) (Hfree (js "4f2a9c1") eq_refl)
              (Hfree (js "Ann") eq_refl)
              (Hfree (js "ann@example.org") eq_refl) eq_refl I)
    as (c & Hc & _ & _ & _ & _ & _ & Hm & Hb & Hs).
  exists c. split; [exact Hc|].
  split; [exact Hm|]. split; [exact Hb | exact Hs].
Defined.

(** X11. A field separator inside the body ends the body: whatever
    follows it in the fragment is ignored. *)
Theorem body_ends_at_separator (file : option jsstring) (r : LogRecord)
    (more : jsstring) :
  well_formed r = true ->
  parseCommit file (render_record r ++ DELIMITER ++ more)
  = parseCommit file (render_record r).
Proof.
  intros Hwf.
  assert (Hparts : exists tail,
    JS.split DELIMITER (render_record r ++ DELIMITER ++ more)
    = [r_hash r; r_short r; r_author r; r_email r; r_time r; r_subject r;
       r_blob r] ++ tail).
  { destruct (well_formed_fields r Hwf) as (Hh & Hs & Ht & Ha & He & Hj & Hb).
    apply hex_name_parts in Hh as [_ Hh], Hs as [_ Hs].
    apply hex_sentinel_free, sentinel_free_field in Hh, Hs.
    apply timestamp_sentinel_free, sentinel_free_field in Ht.
    apply sentinel_free_field in Ha, He, Hj, Hb.
    unfold render_record. rewrite <- !app_assoc. unfold DELIMITER.
    rewrite !split_piece by done. by eexists. }
  destruct Hparts as (tail & Hsplit).
  unfold parseCommit. rewrite Hsplit, (split_record r Hwf). done.
Qed.

Lemma body_ends_at_separator_witness :
  parseCommit None (render_record Examples.rec2 ++ DELIMITER ++ js "lost")
  = parseCommit None (render_record Examples.rec2).
Proof. exact (body_ends_at_separator None Examples.rec2 (js "lost") eq_refl). Defined.

End LogDegrade.

(** ** getLightweightGitLog: well-formed output *)

Section LightLog.

Lemma hex_name_parent (p : jsstring) :
  hex_name p = true -> parent_name p = true.
Proof.
  unfold hex_name, parent_name. intros H.
  apply andb_true_iff in H as [-> H]. cbn [andb].
  revert H. apply forallb_impl. intros c Hc.
  rewrite (hex_not_space c Hc). destruct (hex_not_sentinel c Hc) as [H1 _].
  apply N.eqb_neq in H1. by rewrite H1.
Qed.

Lemma hex_names_parents (ps : list jsstring) :
  forallb hex_name ps = true -> forallb parent_name ps = true.
Proof.
  rewrite !forallb_forall. intros H p Hp. by apply hex_name_parent, H.
Qed.

Lemma hex_names_free (ps : list jsstring) :
  forallb hex_name ps = true -> 177 ∉ JS.join SP ps.
Proof.
  induction ps as [|p ps IH]; [intros _; apply not_elem_of_nil|].
  cbn [forallb]. intros H. apply andb_true_iff in H as [Hp Hps].
  apply hex_name_parts in Hp as [_ Hp].
  apply hex_sentinel_free, sentinel_free_record in Hp.
  destruct ps as [|p' ps]; [done|].
  rewrite join_cons, !not_elem_of_app. split; [done|].
  split; [|by apply IH]. unfold SP. rewrite not_elem_of_cons.
  split; [lia | apply not_elem_of_nil].
Qed.

Lemma light_fields (r : LightRecord) :
  light_well_formed r = true ->
  hex_name (l_hash r) = true /\ forallb hex_name (l_parents r) = true /\
  sentinel_free (l_date r) = true /\ sentinel_free (l_subject r) = true.
Proof. unfold light_well_formed. intros H. to_prop. done. Qed.

Lemma light_record_free (r : LightRecord) :
  light_well_formed r = true -> 177 ∉ render_light_record r.
Proof.
  intros (Hh & Hp & Hd & Hm)%light_fields.
  apply hex_name_parts in Hh as [_ Hh].
  apply hex_sentinel_free, sentinel_free_record in Hh.
  apply hex_names_free in Hp. apply sentinel_free_record in Hd, Hm.
  unfold render_light_record, render_light, DELIMITER.
  rewrite !not_elem_of_app, !not_elem_of_cons.
  repeat match goal with |- _ /\ _ => split end;
    first [assumption | apply not_elem_of_nil | lia].
Qed.

Lemma trimStart_blank_app (pre s : jsstring) :
  blank pre = true -> JS.trimStart (pre ++ s) = JS.trimStart s.
Proof.
  induction pre as [|c pre IH]; [done|]. cbn [blank forallb].
  intros H. apply andb_true_iff in H as [Hc Hpre]. cbn. rewrite Hc.
  by apply IH.
Qed.

(** A well-formed record parses back to its fields, also behind the
    line feed that separates it from the record before. *)
Lemma parseLight_record (pre : jsstring) (r : LightRecord) :
  blank pre = true ->
  light_well_formed r = true ->
  parseLight (pre ++ render_light_record r) = parsed_light r.
Proof.
  intros Hpre (Hh & Hp & Hd & Hm)%light_fields.
  pose proof (hex_names_parents _ Hp) as Hpn.
  apply hex_name_parts in Hh as [Hht Hh].
  pose proof (sentinel_free_field _ (hex_sentinel_free _ Hh)) as Hhf.
  apply sentinel_free_field in Hd, Hm.
  assert (Hpref : 167 ∉ pre ++ l_hash r).
  { apply not_elem_of_app. split; [|done].
    by apply (forallb_not_elem _ _ _ Hpre). }
  unfold parseLight, render_light_record, render_light.
  rewrite app_assoc. unfold DELIMITER.
  rewrite split_piece by done.
  rewrite split_piece by (by apply join_names_free).
  rewrite split_piece, split_whole by done.
  unfold parsed_light, field. cbn [lookup list_lookup].
  f_equal.
  - assert (Ht : JS.truthy (pre ++ l_hash r) = true).
    { destruct pre; [done|done]. }
    rewrite Ht. unfold JS.trim. rewrite (trimStart_blank_app _ _ Hpre).
    apply (trim_hex _ Hh).
  - destruct (l_parents r) as [|p ps]; [done|].
    destruct (join_names_solid p ps Hpn) as [-> ->].
    by apply split_join_names.
  - by destruct (l_date r).
  - by destruct (l_subject r).
Qed.

Lemma render_light_log_one (r : LightRecord) :
  render_light_log [r] = render_light_record r ++ COMMIT_DELIMITER.
Proof. reflexivity. Qed.

Lemma render_light_log_cons (r r' : LightRecord) (rs : list LightRecord) :
  render_light_log (r :: r' :: rs)
  = render_light_record r ++ COMMIT_DELIMITER ++ LF ++
    render_light_log (r' :: rs).
Proof.
  unfold render_light_log. cbn [map]. by rewrite join_cons, <- app_assoc.
Qed.

(** The pieces between the record separators of a well-formed log. *)
Lemma split_light_log (pre : jsstring) (r : LightRecord)
    (rs : list LightRecord) :
  177 ∉ pre ->
  forallb light_well_formed (r :: rs) = true ->
  JS.split COMMIT_DELIMITER (pre ++ render_light_log (r :: rs))
  = (pre ++ render_light_record r)
    :: map (fun r' => LF ++ render_light_record r') rs ++ [[]].
Proof.
  revert pre r. induction rs as [|r' rs IH]; intros pre r Hpre Hwf;
    cbn [forallb] in Hwf; apply andb_true_iff in Hwf as [Hr Hrs];
    apply light_record_free in Hr;
    assert (Hfree : 177 ∉ pre ++ render_light_record r)
      by (by apply not_elem_of_app).
  - rewrite render_light_log_one, app_assoc.
    replace ((pre ++ render_light_record r) ++ COMMIT_DELIMITER)
      with ((pre ++ render_light_record r) ++ COMMIT_DELIMITER ++ [])
      by (by rewrite app_nil_r).
    unfold COMMIT_DELIMITER. rewrite split_piece by done. done.
  - rewrite render_light_log_cons, app_assoc.
    unfold COMMIT_DELIMITER at 1 2. rewrite split_piece by done.
    fold COMMIT_DELIMITER. rewrite IH; [done| |done].
    unfold LF. rewrite not_elem_of_cons.
    split; [lia | apply not_elem_of_nil].
Qed.

Lemma light_not_blank (pre : jsstring) (r : LightRecord) :
  light_well_formed r = true ->
  JS.truthy (JS.trim (pre ++ render_light_record r)) = true.
Proof.
  intros (Hh & _)%light_fields. apply hex_name_parts in Hh as [Ht Hh].
  rewrite truthy_trim, blank_app. unfold render_light_record, render_light.
  destruct (l_hash r) as [|c h]; [done|].
  cbn [forallb] in Hh. apply andb_true_iff in Hh as [Hc _].
  cbn. rewrite (hex_not_space c Hc). by rewrite andb_false_r.
Qed.

Lemma light_fragments (r : LightRecord) (rs : list LightRecord) :
  forallb light_well_formed (r :: rs) = true ->
  map parseLight (fragments (render_light_log (r :: rs)))
  = map parsed_light (r :: rs).
Proof.
  intros Hwf. unfold fragments.
  rewrite <- (app_nil_l (render_light_log (r :: rs))).
  rewrite (split_light_log [] r rs (not_elem_of_nil _) Hwf).
  cbn [forallb] in Hwf. apply andb_true_iff in Hwf as [Hr Hrs].
  pose proof (light_not_blank [] r Hr) as Hnb. cbn [app] in Hnb.
  cbn [List.filter app]. rewrite Hnb. cbn [map].
  f_equal; [by apply (parseLight_record [] r)|].
  rewrite List.filter_app. cbn [List.filter].
  change (JS.truthy (JS.trim [])) with false. cbn iota.
  rewrite app_nil_r. clear Hr.
  induction rs as [|r' rs IH]; [done|].
  cbn [forallb] in Hrs. apply andb_true_iff in Hrs as [Hr' Hrs].
  cbn [map List.filter]. rewrite (light_not_blank LF r' Hr'). cbn [map].
  f_equal; [by apply (parseLight_record LF r') | by apply IH].
Qed.

End LightLog.

(** X13. For a well-formed lightweight log text of N records (hexadecimal
    hash and parent hashes, parents separated by single spaces, date and
    subject free of the separators' code units), [getLightweightGitLog]
    resolves to exactly N records in the order of the text: hash and
    parents as printed, date and subject trimmed, [latest] the first
    record and [total] equal to N. *)
Theorem well_formed_light_log_parses (w : World) (out : ExecResult)
    (rs : list LightRecord) :
  snd (gitExec lightweight_args no_options w) = Normal out ->
  stdout out = render_light_log rs ->
  forallb light_well_formed rs = true ->
  getLightweightGitLog w
  = (w, Normal {| all := map parsed_light rs; total := length rs;
                  latest := head (map parsed_light rs) |}).
Proof.
  intros Hx Hout Hwf.
  unfold getLightweightGitLog, bind, ret. rewrite gitExec_world, Hx, Hout.
  unfold lightweight_parse. destruct rs as [|r rs]; [done|].
  assert (Hsolid : JS.truthy (JS.trim (render_light_log (r :: rs))) = true).
  { cbn [forallb] in Hwf. apply andb_true_iff in Hwf as [Hr _].
    pose proof (light_not_blank [] r Hr) as Hnb.
    rewrite truthy_trim in Hnb. apply negb_true_iff in Hnb.
    cbn [app] in Hnb.
    destruct rs as [|r' rs].
    - fold (render_light_log [r]).
      by rewrite render_light_log_one, truthy_trim, blank_app, Hnb.
    - fold (render_light_log (r :: r' :: rs)).
      by rewrite render_light_log_cons, truthy_trim, blank_app, Hnb. }
  rewrite Hsolid. cbn [negb].
  fold (fragments (render_light_log (r :: rs))).
  rewrite (light_fragments r rs Hwf). by rewrite length_map.
Qed.

Lemma well_formed_light_log_parses_witness :
  getLightweightGitLog Samples.w_light
  = (Samples.w_light,
     Normal {| all := [parsed_light Samples.light1;
                       parsed_light Samples.light2];
               total := 2; latest := Some (parsed_light Samples.light1) |}).
Proof.
  exact (well_formed_light_log_parses Samples.w_light
           {| stdout := render_light_log [Samples.light1; Samples.light2];
              stderr := [] |}
           [Samples.light1; Samples.light2] eq_refl eq_refl eq_refl).
Defined.

(** ** gitStatus *)

Section StatusEvery.

Lemma status_fold (lines : list jsstring) (fs : list Status.File)
    (br : jsstring) :
  fst (fold_left Status.step lines (fs, br))
  = fs ++ map Status.entryOf (List.filter entry_line lines).
Proof.
  revert fs br. induction lines as [|l lines IH]; intros fs br.
  - cbn. by rewrite app_nil_r.
  - cbn [fold_left List.filter]. unfold Status.step at 2, entry_line at 1.
    destruct (JS.startsWith (js "##") l); cbn [negb andb]; [apply IH|].
    destruct (JS.truthy (JS.trim l)); cbn [negb]; [|apply IH].
    rewrite IH. cbn [map]. by rewrite <- app_assoc.
Qed.

Lemma status_fold_branch (lines : list jsstring) (fs : list Status.File)
    (br : jsstring) :
  Forall (fun l => JS.startsWith (js "##") l = false) lines ->
  snd (fold_left Status.step lines (fs, br)) = br.
Proof.
  intros Hall. revert fs. induction Hall as [|l lines Hl _ IH]; intros fs.
  - done.
  - cbn [fold_left]. unfold Status.step at 2. rewrite Hl.
    destruct (negb (JS.truthy (JS.trim l))); apply IH.
Qed.

Lemma status_parse_files (stdout : jsstring) :
  Status.files (Status.parse stdout)
  = map Status.entryOf
        (List.filter entry_line (JS.split LF (JS.trim stdout))).
Proof.
  unfold Status.parse.
  pose proof (status_fold (JS.split LF (JS.trim stdout)) [] (js "master"))
    as Hf.
  destruct (fold_left _ _ _) as [fs br]. by cbn in *.
Qed.

(** An entry line is not empty, so its first column is defined. *)
Lemma entry_line_index (line : jsstring) :
  entry_line line = true ->
  exists c, Status.index (Status.entryOf line) = Some [c].
Proof.
  unfold entry_line. intros H. apply andb_true_iff in H as [_ H].
  destruct line as [|c line]; [done|]. exists c.
  unfold Status.entryOf. by destruct (Str.includes _ _).
Qed.

End StatusEvery.

(** X16. Whatever the tool printed, [gitStatus] resolves to one entry
    per line of the trimmed output that is neither blank nor a [##]
    line, in order; each entry has its index column defined;
    [isClean] holds exactly when there is no such line; and [current]
    is [master] when no line starts with [##]. *)
Theorem gitStatus_entries (w : World) (out : ExecResult) :
  snd (gitExec [js "status"; js "--porcelain"; js "--branch"] no_options w)
  = Normal out ->
  exists r,
    gitStatus w = (w, Normal r) /\
    Status.files r
    = map Status.entryOf
          (List.filter entry_line (JS.split LF (JS.trim (stdout out)))) /\
    (forall f, f ∈ Status.files r -> exists c, Status.index f = Some [c]) /\
    (Status.isClean r = true <->
     List.filter entry_line (JS.split LF (JS.trim (stdout out))) = []) /\
    (Forall (fun l => JS.startsWith (js "##") l = false)
            (JS.split LF (JS.trim (stdout out))) ->
     Status.current r = js "master").
Proof.
  intros Hx. exists (Status.parse (stdout out)).
  split; [|split; [|split; [|split]]].
  - unfold gitStatus, bind, ret. by rewrite gitExec_world, Hx.
  - apply status_parse_files.
  - rewrite status_parse_files. intros f Hf.
    apply list_elem_of_In, in_map_iff in Hf as (line & <- & Hin).
    apply filter_In in Hin as [_ Hline]. by apply entry_line_index.
  - unfold Status.isClean. rewrite status_parse_files.
    destruct (List.filter _ _); cbn; split; done.
  - intros Hall. unfold Status.parse.
    pose proof (status_fold_branch _ [] (js "master") Hall) as Hb.
    destruct (fold_left _ _ _) as [fs br]. by cbn in *.
Qed.

Lemma gitStatus_entries_witness :
  exists r,
    gitStatus Samples.w_dirty = (Samples.w_dirty, Normal r) /\
    length (Status.files r) = 1%nat /\ Status.isClean r = false /\
    Status.current r = js "master".
Proof.
  destruct (gitStatus_entries Samples.w_dirty
              {| stdout := js "?? notes.txt" ++ LF; stderr := [] |} eq_refl)
    as (r & Hrun & Hfiles & _ & _ & Hcur).
  exists r. split; [exact Hrun|]. split; [by rewrite Hfiles|].
  split.
  - unfold Status.isClean. by rewrite Hfiles.
  - apply Hcur. vm_compute. repeat constructor.
Defined.

(** ** gitStatus: well-formed output *)

Section StatusWellFormed.

Lemma not_elem_by_scan (c : N) (s : jsstring) :
  forallb (fun x => negb (x =? c)) s = true -> c ∉ s.
Proof.
  intros H. apply (forallb_not_elem _ _ _ H). by rewrite N.eqb_refl.
Qed.

Lemma arrow_has_gt : 62 ∈ js " -> ".
Proof. apply list_elem_of_In. vm_compute. tauto. Qed.

(** A match of a pattern contains the pattern's code units. *)
Lemma startsWith_elem (pat s : jsstring) (c : N) :
  JS.startsWith pat s = true -> c ∈ pat -> c ∈ s.
Proof.
  revert s. induction pat as [|a pat IH]; intros s Hs Hc.
  - by apply elem_of_nil in Hc.
  - destruct s as [|b s]; [done|]. cbn in Hs.
    apply andb_true_iff in Hs as [Hab Hs]. apply N.eqb_eq in Hab as ->.
    apply elem_of_cons in Hc as [->|Hc]; [by left|].
    right. by apply IH.
Qed.

Lemma indexOf_absent (pat s : jsstring) (c : N) (i : Z) :
  c ∈ pat -> c ∉ s -> Str.indexOf_from pat s i = (-1)%Z.
Proof.
  intros Hc. revert i. induction s as [|b s IH]; intros i Hs.
  - cbn. destruct (JS.startsWith pat []) eqn:Hp; [|done].
    by destruct (Hs (startsWith_elem _ _ _ Hp Hc)).
  - cbn [Str.indexOf_from].
    destruct (JS.startsWith pat (b :: s)) eqn:Hp.
    + by destruct (Hs (startsWith_elem _ _ _ Hp Hc)).
    + apply IH. by apply not_elem_of_cons in Hs as [_ ?].
Qed.

Lemma includes_absent (pat s : jsstring) (c : N) :
  c ∈ pat -> c ∉ s -> Str.includes pat s = false.
Proof.
  intros Hc Hs. unfold Str.includes, Str.indexOf.
  by rewrite (indexOf_absent pat s c 0 Hc Hs).
Qed.

Lemma indexOf_present (pat a b : jsstring) (i : Z) :
  (0 <= i)%Z -> (0 <= Str.indexOf_from pat (a ++ pat ++ b) i)%Z.
Proof.
  revert i. induction a as [|c a IH]; intros i Hi.
  - cbn [app]. destruct (pat ++ b) as [|x s] eqn:Hs.
    + apply app_eq_nil in Hs as [-> _]. by cbn.
    + cbn [Str.indexOf_from]. rewrite <- Hs, startsWith_app. done.
  - cbn [app Str.indexOf_from].
    destruct (JS.startsWith pat (c :: a ++ pat ++ b)); [done|].
    apply IH. lia.
Qed.

Lemma includes_present (pat a b : jsstring) :
  Str.includes pat (a ++ pat ++ b) = true.
Proof.
  unfold Str.includes, Str.indexOf. apply Z.leb_le.
  by apply indexOf_present.
Qed.

(** *** Lines *)

Lemma render_lines_join (l : jsstring) (lines : list jsstring) :
  render_lines (l :: lines) = JS.join LF (l :: lines) ++ LF.
Proof.
  revert l. induction lines as [|l' lines IH]; intros l.
  - unfold render_lines. cbn. by rewrite app_nil_r.
  - rewrite join_cons.
    change (render_lines (l :: l' :: lines))
      with ((l ++ LF) ++ render_lines (l' :: lines)).
    by rewrite IH, <- !app_assoc.
Qed.

(** The single line feed cuts a text made of lines back into them. *)
Lemma split_join_lines (l : jsstring) (lines : list jsstring) :
  Forall (fun x => 10 ∉ x) (l :: lines) ->
  JS.split LF (JS.join LF (l :: lines)) = l :: lines.
Proof.
  revert l. induction lines as [|l' lines IH]; intros l Hall;
    apply Forall_cons in Hall as [Hl Hrest].
  - cbn [JS.join]. unfold LF. by rewrite split_whole.
  - rewrite join_cons. unfold LF at 1 2. rewrite split_piece by done.
    fold LF. by rewrite IH.
Qed.

Lemma head_join (l : jsstring) (lines : list jsstring) (c : N) :
  head l = Some c -> head (JS.join LF (l :: lines)) = Some c.
Proof.
  destruct lines as [|l' lines]; [done|]. rewrite join_cons.
  by destruct l.
Qed.

Lemma last_join_solid (l : jsstring) (lines : list jsstring) :
  Forall (fun x => exists c, last x = Some c /\ JS.isWhiteSpace c = false)
         (l :: lines) ->
  exists c, last (JS.join LF (l :: lines)) = Some c /\
            JS.isWhiteSpace c = false.
Proof.
  revert l. induction lines as [|l' lines IH]; intros l Hall;
    apply Forall_cons in Hall as [Hl Hrest]; [exact Hl|].
  destruct (IH l' Hrest) as (c & Hc & Hs).
  exists c. split; [|done]. by rewrite join_cons, !last_app, Hc.
Qed.

(** Trailing white space goes, and nothing else, when the text begins
    and ends with code units that are not white space. *)
Lemma trim_trailing (s post : jsstring) :
  match head s with Some c => JS.isWhiteSpace c = false | None => False end ->
  match last s with Some c => JS.isWhiteSpace c = false | None => False end ->
  blank post = true ->
  JS.trim (s ++ post) = s.
Proof.
  intros Hh Hl Hpost. unfold JS.trim.
  destruct s as [|c s]; [done|]. cbn [head] in Hh.
  change ((c :: s) ++ post) with (c :: (s ++ post)).
  rewrite (trimStart_solid c _ Hh). unfold JS.trimEnd.
  change (c :: s ++ post) with ((c :: s) ++ post).
  rewrite rev_app_distr, trimStart_blank_app by (by rewrite blank_rev).
  destruct (rev (c :: s)) as [|d r] eqn:Er.
  - apply (f_equal (@rev N)) in Er. by rewrite rev_involutive in Er.
  - assert (Hd : last (c :: s) = Some d).
    { apply (f_equal (@rev N)) in Er. rewrite rev_involutive in Er.
      rewrite Er. cbn [rev]. apply last_snoc. }
    rewrite Hd in Hl. rewrite (trimStart_solid d r Hl), <- Er.
    apply rev_involutive.
Qed.

Lemma ends_solid_parts (s : jsstring) :
  ends_solid s = true ->
  (10 ∉ s) /\ (exists c, last s = Some c /\ JS.isWhiteSpace c = false) /\
  blank s = false.
Proof.
  unfold ends_solid. intros H. apply andb_true_iff in H as [Hlf Hl].
  split; [by apply (forallb_not_elem _ _ _ Hlf)|].
  destruct (last s) as [c|] eqn:Hc; [|done].
  apply negb_true_iff in Hl. split; [by exists c|].
  apply last_Some in Hc as [s' ->]. rewrite blank_app. cbn.
  rewrite Hl. by rewrite andb_false_r.
Qed.

End StatusWellFormed.

Section StatusSteps.

Lemma nonspace_parts (s : jsstring) :
  JS.truthy s = true ->
  forallb (fun c => negb (JS.isWhiteSpace c)) s = true ->
  (10 ∉ s) /\ (32 ∉ s) /\
  (exists c, last s = Some c /\ JS.isWhiteSpace c = false).
Proof.
  intros Ht Hs.
  split; [by apply (forallb_not_elem _ _ _ Hs)|].
  split; [by apply (forallb_not_elem _ _ _ Hs)|].
  destruct (last s) as [c|] eqn:Hc.
  - exists c. split; [done|]. rewrite forallb_forall in Hs.
    apply negb_true_iff, Hs, list_elem_of_In.
    apply last_Some in Hc as [s' ->]. set_solver.
  - apply last_None in Hc. by subst.
Qed.

Lemma branch_name_parts (b : jsstring) :
  branch_name b = true ->
  JS.truthy b = true /\
  forallb (fun c => negb (JS.isWhiteSpace c)) b = true /\ (46 ∉ b).
Proof.
  unfold branch_name. intros H. apply andb_true_iff in H as [Ht Hs].
  split; [done|]. split.
  - revert Hs. apply forallb_impl. intros c Hc.
    by apply andb_true_iff in Hc as [? _].
  - apply (forallb_not_elem _ _ _ Hs). done.
Qed.

(** The tracking part of a branch line: the branch and its upstream. *)
Lemma tracking_parts (b : jsstring) (upstream : option jsstring) :
  branch_name b = true ->
  match upstream with
  | Some u => JS.truthy u && forallb (fun c => negb (JS.isWhiteSpace c)) u
  | None => true
  end = true ->
  (10 ∉ b ++ match upstream with Some u => js "..." ++ u | None => [] end) /\
  (32 ∉ b ++ match upstream with Some u => js "..." ++ u | None => [] end) /\
  (exists c,
     last (b ++ match upstream with Some u => js "..." ++ u | None => [] end)
     = Some c /\ JS.isWhiteSpace c = false) /\
  head (JS.split (js "...")
          (b ++ match upstream with Some u => js "..." ++ u | None => [] end))
  = Some b.
Proof.
  intros (Hbt & Hbs & Hdot)%branch_name_parts Hu.
  destruct (nonspace_parts b Hbt Hbs) as (Hb10 & Hb32 & c & Hc & Hcs).
  change (js "...") with [46; 46; 46].
  destruct upstream as [u|].
  - apply andb_true_iff in Hu as [Hut Hus].
    destruct (nonspace_parts u Hut Hus) as (Hu10 & Hu32 & d & Hd & Hds).
    repeat split.
    + rewrite !not_elem_of_app, !not_elem_of_cons.
      repeat split; first [assumption | apply not_elem_of_nil | lia].
    + rewrite !not_elem_of_app, !not_elem_of_cons.
      repeat split; first [assumption | apply not_elem_of_nil | lia].
    + exists d. by rewrite !last_app, Hd.
    + by rewrite split_piece.
  - rewrite app_nil_r. repeat split; [done..| |].
    + by exists c.
    + by rewrite split_whole.
Qed.

Lemma header_parts (b : jsstring) (upstream info : option jsstring) :
  header_ok b upstream info = true ->
  (10 ∉ render_header b upstream info) /\
  (exists c, last (render_header b upstream info) = Some c /\
             JS.isWhiteSpace c = false) /\
  forall fs br,
    Status.step (fs, br) (render_header b upstream info) = (fs, b).
Proof.
  unfold header_ok. intros H.
  apply andb_true_iff in H as [H Hi]. apply andb_true_iff in H as [Hb Hu].
  destruct (tracking_parts b upstream Hb Hu) as (H10 & H32 & (c & Hc & Hcs)
                                                 & Hhead).
  pose proof (branch_name_parts b Hb) as (Hbt & _).
  unfold render_header.
  set (tracking := b ++ match upstream with
                        | Some u => js "..." ++ u
                        | None => []
                        end) in *.
  rewrite (app_assoc b). fold tracking.
  change (js "## ") with ([35; 35] ++ SP).
  assert (Hstep : forall fs br rest,
    (JS.split SP ([35; 35] ++ SP ++ tracking ++ rest)) !! 1%nat
    = Some tracking ->
    Status.step (fs, br) (([35; 35] ++ SP) ++ tracking ++ rest) = (fs, b)).
  { intros fs br rest Hsplit. unfold Status.step.
    change (JS.startsWith (js "##") (([35; 35] ++ SP) ++ tracking ++ rest))
      with true. cbn iota.
    unfold Status.branchOf. rewrite <- app_assoc, Hsplit, Hhead.
    by rewrite Hbt. }
  destruct info as [i|].
  - destruct (ends_solid_parts i Hi) as (Hi10 & (d & Hd & Hds) & _).
    repeat split.
    + rewrite !not_elem_of_app. unfold SP. rewrite !not_elem_of_cons.
      repeat split; first [assumption | apply not_elem_of_nil | lia].
    + exists d. by rewrite !last_app, Hd.
    + intros fs br. apply Hstep. unfold SP.
      rewrite split_piece
        by (rewrite !not_elem_of_cons; repeat split;
            first [apply not_elem_of_nil | lia]).
      by rewrite split_piece.
  - rewrite !app_nil_r. repeat split.
    + rewrite !not_elem_of_app. unfold SP. rewrite !not_elem_of_cons.
      repeat split; first [assumption | apply not_elem_of_nil | lia].
    + exists c. by rewrite !last_app, Hc.
    + intros fs br. rewrite <- (app_nil_r tracking). apply Hstep.
      rewrite app_nil_r. unfold SP.
      rewrite split_piece
        by (rewrite !not_elem_of_cons; repeat split;
            first [apply not_elem_of_nil | lia]).
      by rewrite split_whole.
Qed.

End StatusSteps.

Section StatusEntries.

Lemma entry_parts (e : StatusEntry) :
  entry_ok e = true ->
  (10 ∉ render_entry e) /\
  (exists c, last (render_entry e) = Some c /\ JS.isWhiteSpace c = false) /\
  forall fs br,
    Status.step (fs, br) (render_entry e) = (fs ++ [recorded e], br).
Proof.
  destruct e as [x y rest]. unfold entry_ok, render_entry, recorded,
    recorded_path. cbn [e_index e_worktree e_rest].
  intros H.
  apply andb_true_iff in H as [H Hsolid].
  apply andb_true_iff in H as [H Hgt].
  apply andb_true_iff in H as [H Hy62].
  apply andb_true_iff in H as [H Hx62].
  apply andb_true_iff in H as [H Hy10].
  apply andb_true_iff in H as [Hhash Hx10].
  apply negb_true_iff in Hhash, Hx10, Hy10, Hx62, Hy62.
  apply N.eqb_neq in Hx10, Hy10, Hx62, Hy62.
  destruct (ends_solid_parts rest Hsolid) as (Hr10 & (c & Hc & Hcs) & Hblank).
  pose proof (forallb_not_elem _ 62 _ Hgt eq_refl) as Hr62.
  split; [|split].
  - rewrite not_elem_of_app, !not_elem_of_cons.
    repeat split; first [assumption | apply not_elem_of_nil | lia | congruence].
  - exists c. by rewrite last_app, Hc.
  - intros fs br. unfold Status.step.
    assert (Hhdr : JS.startsWith (js "##") ([x; y; 32] ++ rest) = false).
    { change (js "##") with [35; 35]. cbn [JS.startsWith app].
      rewrite (N.eqb_sym 35 x), (N.eqb_sym 35 y), andb_true_r. exact Hhash. }
    rewrite Hhdr.
    assert (Hnb : JS.truthy (JS.trim ([x; y; 32] ++ rest)) = true).
    { rewrite truthy_trim, blank_app, Hblank. by rewrite andb_false_r. }
    rewrite Hnb. cbn [negb]. do 2 f_equal.
    unfold Status.entryOf, Str.indexOf, Str.at_, SP.
    cbn [app take lookup list_lookup fmap option_fmap option_map
         Str.indexOf_from JS.startsWith].
    rewrite !andb_true_r, (N.eqb_sym 32 x), (N.eqb_sym 32 y).
    destruct (N.eqb_spec x 32) as [->|Hx32].
    + change (Str.slice (0 + 1) (32 :: y :: 32 :: rest))
        with (y :: 32 :: rest).
      rewrite (includes_absent (js " -> ") (y :: 32 :: rest) 62).
      * done.
      * apply arrow_has_gt.
      * rewrite !not_elem_of_cons. repeat split; [congruence | lia | done].
    + destruct (N.eqb_spec y 32) as [->|Hy32].
      * change (Str.slice (0 + 1 + 1) (x :: 32 :: 32 :: rest))
          with (32 :: rest).
        rewrite (includes_absent (js " -> ") (32 :: rest) 62).
        -- done.
        -- apply arrow_has_gt.
        -- rewrite !not_elem_of_cons. repeat split; [lia | done].
      * rewrite N.eqb_refl.
        change (Str.slice (0 + 1 + 1 + 1) (x :: y :: 32 :: rest)) with rest.
        rewrite (includes_absent (js " -> ") rest 62).
        -- done.
        -- apply arrow_has_gt.
        -- done.
Qed.

Lemma entries_fold (es : list StatusEntry) (fs : list Status.File)
    (br : jsstring) :
  forallb entry_ok es = true ->
  fold_left Status.step (map render_entry es) (fs, br)
  = (fs ++ map recorded es, br).
Proof.
  revert fs. induction es as [|e es IH]; intros fs Hall.
  - cbn. by rewrite app_nil_r.
  - cbn [forallb] in Hall. apply andb_true_iff in Hall as [He Hes].
    destruct (entry_parts e He) as (_ & _ & Hstep).
    cbn [map fold_left]. rewrite Hstep, (IH _ Hes).
    by rewrite <- app_assoc.
Qed.

(** A well-formed status text is its lines, joined. *)
Lemma status_lines (b : jsstring) (upstream info : option jsstring)
    (es : list StatusEntry) :
  header_ok b upstream info = true ->
  forallb entry_ok es = true ->
  JS.split LF (JS.trim (render_status b upstream info es))
  = render_header b upstream info :: map render_entry es.
Proof.
  intros Hh Hes. unfold render_status. rewrite render_lines_join.
  destruct (header_parts b upstream info Hh) as (Hh10 & Hhl & _).
  assert (Hall : Forall (fun l => (10 ∉ l) /\
                   exists c, last l = Some c /\ JS.isWhiteSpace c = false)
                   (map render_entry es)).
  { apply List.Forall_forall. intros l Hl.
    apply in_map_iff in Hl as (e & <- & He).
    rewrite forallb_forall in Hes.
    destruct (entry_parts e (Hes e He)) as (H10 & Hl & _). done. }
  rewrite trim_trailing.
  - apply split_join_lines. constructor; [done|].
    eapply Forall_impl; [exact Hall|]. by intros l [? _].
  - erewrite head_join; [|reflexivity]. done.
  - destruct (last_join_solid (render_header b upstream info)
                (map render_entry es)) as (c & -> & Hc); [|done].
    constructor; [done|].
    eapply Forall_impl; [exact Hall|]. by intros l [_ ?].
  - done.
Qed.

Lemma filter_map_comm {A B} (f : B -> bool) (g : A -> B) (l : list A) :
  List.filter f (map g l) = map g (List.filter (fun x => f (g x)) l).
Proof.
  induction l as [|x l IH]; [done|]. cbn. destruct (f (g x)); cbn;
    by rewrite IH.
Qed.

End StatusEntries.

(** X14. For a well-formed status text (a branch line, then entry lines
    [XY rest] without [>], each ending in a code unit that is not white
    space), [gitStatus] returns the entries in order with [index] X and
    [working_dir] Y, and [current] is the branch.  The recorded path is
    the text after the first space of the line: it is [rest] only when
    neither column is a space; when the index column is a space it is
    the work-tree column, a space and [rest]; when only the work-tree
    column is a space it is a space and [rest]. *)
Theorem well_formed_status_parses (w : World) (out : ExecResult)
    (b : jsstring) (upstream info : option jsstring)
    (es : list StatusEntry) :
  snd (gitExec [js "status"; js "--porcelain"; js "--branch"] no_options w)
  = Normal out ->
  stdout out = render_status b upstream info es ->
  header_ok b upstream info = true ->
  forallb entry_ok es = true ->
  gitStatus w
  = (w, Normal
          {| Status.files := map recorded es;
             Status.current := b;
             Status.conflicted :=
               map recorded_path
                   (List.filter (fun e => (e_index e =? 67) ||
                                          (e_worktree e =? 67)) es) |}).
Proof.
  intros Hx Hout Hh Hes.
  unfold gitStatus, bind, ret. rewrite gitExec_world, Hx, Hout.
  unfold Status.parse. rewrite (status_lines b upstream info es Hh Hes).
  cbn [fold_left].
  destruct (header_parts b upstream info Hh) as (_ & _ & ->).
  rewrite (entries_fold es [] b Hes). cbn [app].
  rewrite filter_map_comm, map_map. done.
Qed.

Lemma well_formed_status_parses_witness :
  exists r,
    gitStatus Samples.w_status = (Samples.w_status, Normal r) /\
    map Status.path (Status.files r)
    = [js "M a.yaml"; js " b.yaml"; js "c.yaml"] /\
    Status.current r = js "main".
Proof.
  eexists. split.
  - exact (well_formed_status_parses Samples.w_status
             {| stdout := render_status (js "main") (Some (js "origin/main"))
                            (Some (js "[ahead 1]")) Samples.entries;
                stderr := [] |}
             (js "main") (Some (js "origin/main")) (Some (js "[ahead 1]"))
             Samples.entries eq_refl eq_refl eq_refl eq_refl).
  - split; reflexivity.
Defined.

Section StatusRename.

(** A text free of one of the separator's code units is one piece. *)
Lemma split_scan_absent (sep cur s : jsstring) (c : N) :
  c ∈ sep -> c ∉ s -> JS.split_scan sep 0 cur s = [rev cur ++ s].
Proof.
  intros Hc. revert cur. induction s as [|x s IH]; intros cur Hs.
  - by rewrite app_nil_r.
  - cbn [JS.split_scan].
    destruct (JS.startsWith sep (x :: s)) eqn:Hp.
    + by destruct (Hs (startsWith_elem _ _ _ Hp Hc)).
    + rewrite IH by (by apply not_elem_of_cons in Hs as [_ ?]).
      cbn [rev]. by rewrite <- app_assoc.
Qed.

Lemma arrow_split (cur old new : jsstring) :
  32 ∉ old -> 62 ∉ new ->
  JS.split_scan (js " -> ") 0 cur (old ++ js " -> " ++ new)
  = [rev cur ++ old; new].
Proof.
  intros Hold Hnew. change (js " -> ") with (32 :: [45; 62; 32]).
  rewrite split_scan_piece by done. f_equal.
  rewrite (split_scan_absent _ [] new 62); [done| |done].
  rewrite !elem_of_cons. auto.
Qed.

Lemma split_scan_pass (sep cur s : jsstring) (c : N) :
  JS.startsWith sep (c :: s) = false ->
  JS.split_scan sep 0 cur (c :: s) = JS.split_scan sep 0 (c :: cur) s.
Proof. intros H. cbn [JS.split_scan]. by rewrite H. Qed.

Lemma arrow_split_space (old new : jsstring) :
  32 ∉ old -> 62 ∉ new -> head old <> Some 45 ->
  JS.split (js " -> ") ((32 :: old) ++ js " -> " ++ new) = [32 :: old; new].
Proof.
  intros Hold Hnew Hdash.
  assert (Hno : JS.startsWith (js " -> ") (32 :: old ++ js " -> " ++ new)
                = false).
  { change (js " -> ") with [32; 45; 62; 32].
    cbn [JS.startsWith]. rewrite N.eqb_refl. cbn [andb].
    destruct old as [|c old']; [by vm_compute|].
    cbn [app JS.startsWith].
    destruct (N.eqb_spec 45 c) as [<-|]; done. }
  change (JS.split (js " -> ") ((32 :: old) ++ js " -> " ++ new))
    with (JS.split_scan (js " -> ") 0 [] (32 :: old ++ js " -> " ++ new)).
  rewrite (split_scan_pass _ _ _ _ Hno). by rewrite arrow_split.
Qed.

End StatusRename.

(** X15. For a rename line [XY old -> new] whose index column is not a
    space, the entry has [path] new and [index] X, [working_dir] Y; its
    [oldPath] is [old] when the work-tree column is not a space, and a
    space followed by [old] when it is (as in [R  old -> new]). *)
Theorem rename_entry (x y : N) (old new : jsstring) :
  x <> 32 -> 32 ∉ old -> 62 ∉ new ->
  (y = 32 -> head old <> Some 45) ->
  Status.entryOf ([x; y; 32] ++ old ++ js " -> " ++ new)
  = {| Status.path := new;
       Status.working_dir := Some [y];
       Status.index := Some [x];
       Status.oldPath := Some (if y =? 32 then 32 :: old else old) |}.
Proof.
  intros Hx Hold Hnew Hdash.
  unfold Status.entryOf, Str.indexOf, Str.at_, SP.
  cbn [app take lookup list_lookup fmap option_fmap option_map
       Str.indexOf_from JS.startsWith].
  rewrite !andb_true_r, (N.eqb_sym 32 x), (N.eqb_sym 32 y).
  apply N.eqb_neq in Hx. rewrite Hx.
  destruct (N.eqb_spec y 32) as [->|Hy].
  - change (Str.slice (0 + 1 + 1) (x :: 32 :: 32 :: old ++ js " -> " ++ new))
      with ((32 :: old) ++ js " -> " ++ new).
    rewrite includes_present.
    by rewrite (arrow_split_space old new Hold Hnew (Hdash eq_refl)).
  - rewrite N.eqb_refl.
    change (Str.slice (0 + 1 + 1 + 1) (x :: y :: 32 :: old ++ js " -> " ++ new))
      with (old ++ js " -> " ++ new).
    rewrite includes_present.
    change (JS.split (js " -> ") (old ++ js " -> " ++ new))
      with (JS.split_scan (js " -> ") 0 [] (old ++ js " -> " ++ new)).
    by rewrite arrow_split.
Qed.

Lemma rename_entry_witness :
  Status.entryOf (js "R  old.txt -> new.txt")
  = {| Status.path := js "new.txt";
       Status.working_dir := Some (js " ");
       Status.index := Some (js "R");
       Status.oldPath := Some (js " old.txt") |}.
Proof.
  apply (rename_entry 82 32 (js "old.txt") (js "new.txt")).
  - lia.
  - by apply not_elem_by_scan.
  - by apply not_elem_by_scan.
  - intros _. vm_compute. discriminate.
Defined.

(** ** gitBranch, gitRevparse and the probes *)

Section Branches.

Lemma split_render_lines (lines : list jsstring) :
  Forall (fun l => 10 ∉ l) lines ->
  JS.split LF (render_lines lines) = lines ++ [[]].
Proof.
  induction 1 as [|l lines Hl _ IH]; [done|].
  change (render_lines (l :: lines)) with ((l ++ LF) ++ render_lines lines).
  rewrite <- app_assoc. unfold LF at 1 2. rewrite split_piece by done.
  fold LF. by rewrite IH.
Qed.

Lemma replace_absent (pat rep s : jsstring) (c : N) :
  c ∈ pat -> c ∉ s -> Str.replace pat rep s = s.
Proof.
  intros Hc. induction s as [|x s IH]; intros Hs.
  - cbn. destruct (JS.startsWith pat []) eqn:Hp; [|done].
    by destruct (Hs (startsWith_elem _ _ _ Hp Hc)).
  - cbn [Str.replace]. destruct (JS.startsWith pat (x :: s)) eqn:Hp.
    + by destruct (Hs (startsWith_elem _ _ _ Hp Hc)).
    + f_equal. apply IH. by apply not_elem_of_cons in Hs as [_ ?].
Qed.

Lemma ref_name_parts (s : jsstring) :
  ref_name s = true ->
  JS.truthy s = true /\ (10 ∉ s) /\ (32 ∉ s) /\ JS.trim s = s /\
  (exists c, last s = Some c /\ JS.isWhiteSpace c = false).
Proof.
  unfold ref_name. intros H. apply andb_true_iff in H as [Ht Hs].
  destruct (nonspace_parts s Ht Hs) as (H10 & H32 & Hl).
  split; [done|]. split; [done|]. split; [done|].
  split; [by apply trim_no_space | done].
Qed.

(** What line 295 makes of one line of the listing. *)
Lemma branch_line_name (l : BranchLine) :
  ref_name (b_name l) = true ->
  (10 ∉ render_branch l) /\
  Str.replace (js "* ") [] (JS.trim (render_branch l)) = b_name l.
Proof.
  intros (Ht & H10 & H32 & Htrim & c & Hc & Hcs)%ref_name_parts.
  unfold render_branch. destruct (b_current l).
  - change (js "* ") with [42; 32]. split.
    + rewrite not_elem_of_app, !not_elem_of_cons.
      repeat split; first [assumption | apply not_elem_of_nil | lia].
    + rewrite trim_solid.
      * cbn [app Str.replace JS.startsWith length drop].
        by rewrite !N.eqb_refl.
      * done.
      * by rewrite last_app, Hc.
  - change (js "  ") with [32; 32]. split.
    + rewrite not_elem_of_app, !not_elem_of_cons.
      repeat split; first [assumption | apply not_elem_of_nil | lia].
    + unfold JS.trim. rewrite trimStart_blank_app by done.
      fold (JS.trim (b_name l)). rewrite Htrim.
      apply (replace_absent _ _ _ 32); [|done].
      change (js "* ") with [42; 32]. rewrite !elem_of_cons. auto.
Qed.

Lemma branch_names_lines (ls : list BranchLine) :
  forallb (fun l => ref_name (b_name l)) ls = true ->
  branchNames (render_branches ls) = map b_name ls.
Proof.
  intros Hall. unfold branchNames, render_branches.
  rewrite split_render_lines.
  2:{ apply List.Forall_forall. intros x Hx.
      apply in_map_iff in Hx as (l & <- & Hl).
      rewrite forallb_forall in Hall. by apply branch_line_name, Hall. }
  rewrite map_app, List.filter_app. cbn [map List.filter].
  change (JS.truthy (Str.replace (js "* ") [] (JS.trim []))) with false.
  cbn iota. rewrite app_nil_r.
  induction ls as [|l ls IH]; [done|].
  cbn [forallb] in Hall. apply andb_true_iff in Hall as [Hl Hls].
  destruct (branch_line_name l Hl) as [_ Hname].
  destruct (ref_name_parts _ Hl) as (Ht & _).
  cbn [map List.filter]. rewrite Hname, Ht. f_equal. by apply IH.
Qed.

End Branches.

(** X17. For a well-formed listing (one line per branch: [* ] or two
    spaces, then a name without white space), [gitBranch()] returns the
    names in the order printed, the current branch without its
    marker. *)
Theorem branch_listing_parses (w : World) (out : ExecResult)
    (ls : list BranchLine) :
  snd (gitExec [js "branch"] no_options w) = Normal out ->
  stdout out = render_branches ls ->
  forallb (fun l => ref_name (b_name l)) ls = true ->
  gitBranch None w = (w, Normal (Some (map b_name ls))).
Proof.
  intros Hx Hout Hall. unfold gitBranch, bind, ret.
  by rewrite gitExec_world, Hx, Hout, (branch_names_lines ls Hall).
Qed.

Lemma branch_listing_parses_witness :
  gitBranch None Samples.w_branches
  = (Samples.w_branches,
     Normal (Some [js "main"; js "feature/lights"; js "old"])).
Proof.
  exact (branch_listing_parses Samples.w_branches
           {| stdout := render_branches Samples.branches; stderr := [] |}
           Samples.branches eq_refl eq_refl eq_refl).
Defined.

Lemma probe_run (args : list jsstring) (w : World) :
  try_catch (gitExec args no_options ;; ret true) (fun e => ret false) w
  = (w, Normal (match snd (gitExec args no_options w) with
                | Normal _ => true
                | Throw _ => false
                end)).
Proof.
  unfold try_catch, bind, ret. rewrite gitExec_world.
  by destruct (snd (gitExec args no_options w)).
Qed.

(** X18. [gitRmCached] and [gitResetHead] never raise: each resolves to
    [true] exactly when its command succeeds and to [false] when the
    command fails for whatever reason. *)
Theorem index_probes_never_raise (w : World) (path : jsstring) :
  snd (gitRmCached path w)
  = Normal (match snd (gitExec [js "rm"; js "--cached"; js "-f"; path]
                         no_options w) with
            | Normal _ => true
            | Throw _ => false
            end) /\
  snd (gitResetHead path w)
  = Normal (match snd (gitExec [js "reset"; js "HEAD"; js "--"; path]
                         no_options w) with
            | Normal _ => true
            | Throw _ => false
            end).
Proof.
  unfold gitRmCached, gitResetHead. by rewrite !probe_run.
Qed.

(** X19. Without a root directory ([CONFIG_PATH] undefined or empty)
    every wrapper that reports through its result rejects with the error
    [CONFIG_PATH not initialized] and leaves the world as it was. *)
Theorem unconfigured_wrappers_reject (w : World) :
  CONFIG_PATH w = None \/ CONFIG_PATH w = Some [] ->
  (forall options, options <> OptNull ->
     gitLog options w = (w, Throw not_initialized)) /\
  getLightweightGitLog w = (w, Throw not_initialized) /\
  gitStatus w = (w, Throw not_initialized) /\
  (forall c f, gitShowFileAtCommit c f w = (w, Throw not_initialized)) /\
  (forall c, gitCommitDetails c w = (w, Throw not_initialized)) /\
  (forall files, gitAdd files w = (w, Throw not_initialized)) /\
  (forall m, gitCommit m w = (w, Throw not_initialized)) /\
  (forall args, gitRaw args w = (w, Throw not_initialized)) /\
  gitInit w = (w, Throw not_initialized) /\
  (forall args, gitDiff args w = (w, Throw not_initialized)) /\
  (forall args, gitCheckout args w = (w, Throw not_initialized)) /\
  (forall args, gitBranch args w = (w, Throw not_initialized)) /\
  (forall args, gitRevparse args w = (w, Throw not_initialized)).
Proof.
  intros Hnone.
  pose proof (fun args o => gitExec_unconfigured args o w Hnone) as Hx.
  repeat split; intros;
    unfold gitLog, getLightweightGitLog, gitStatus, gitShowFileAtCommit,
      gitCommitDetails, gitAdd, gitCommit, gitRaw, gitInit, gitDiff,
      gitCheckout, gitBranch, gitRevparse, bind, lift;
    try (by rewrite Hx).
  - destruct options as [mc f| | |]; cbn; try (by rewrite Hx); done.
  - destruct args; unfold bind; by rewrite Hx.
Qed.

Lemma unconfigured_wrappers_reject_witness :
  gitStatus Examples.w_unconfigured
  = (Examples.w_unconfigured, Throw not_initialized) /\
  gitBranch None Examples.w_unconfigured
  = (Examples.w_unconfigured, Throw not_initialized).
Proof.
  pose proof (unconfigured_wrappers_reject Examples.w_unconfigured
                (or_introl eq_refl)) as H.
  split; [apply H|]. apply H.
Defined.

(** X20. [gitRevparse] returns what the tool printed without the white
    space around it: for an output made of a text without white space
    between two runs of white space, it returns that text. *)
Theorem revparse_trims (w : World) (args : list jsstring) (out : ExecResult)
    (pre h post : jsstring) :
  snd (gitExec (js "rev-parse" :: args) no_options w) = Normal out ->
  stdout out = pre ++ h ++ post ->
  blank pre = true -> blank post = true -> ref_name h = true ->
  gitRevparse args w = (w, Normal h).
Proof.
  intros Hx Hout Hpre Hpost Hh.
  destruct (ref_name_parts h Hh) as (Ht & _ & _ & _ & c & Hc & Hcs).
  unfold gitRevparse, bind, ret. rewrite gitExec_world, Hx, Hout.
  do 2 f_equal. unfold JS.trim. rewrite trimStart_blank_app by done.
  fold (JS.trim (h ++ post)). apply trim_trailing; [|by rewrite Hc|done].
  unfold ref_name in Hh. apply andb_true_iff in Hh as [_ Hs].
  destruct h as [|x h]; [done|]. cbn [head forallb] in *.
  apply andb_true_iff in Hs as [Hx0 _]. by apply negb_true_iff in Hx0.
Qed.

Lemma revparse_trims_witness :
  gitRevparse [js "HEAD"] Samples.w_head
  = (Samples.w_head, Normal (js "4f2a9c1d")).
Proof.
  exact (revparse_trims Samples.w_head [js "HEAD"]
           {| stdout := js "4f2a9c1d" ++ LF; stderr := [] |}
           [] (js "4f2a9c1d") LF eq_refl eq_refl eq_refl eq_refl eq_refl).
Defined.
